(** * CivicLens AI: the ingestion and retrieval pipeline, embedded in Rocq

    The definitions follow the layout of the Python sources:
    - [Py]           the pieces of the Python runtime the code relies on
                     (exceptions, [str] methods, [os.path]);
    - [Loading]      [_load_docs] of [app/ingest.py];
    - [Constants]    [app/constants.py];
    - [TextSplitter] the text splitter [app/ingest.py] configures;
    - [Ingest]       the rest of [app/ingest.py];
    - [Rag]          [app/rag.py];
    - [ChainlitApp]  the ingestion job and the [/ingest] command of
                     [app/chainlit_app.py];
    - [Replies]      the routing of messages and the replies to commands
                     of [app/chainlit_app.py];
    - [Download]     [download_executive_orders_pdf_files.py].
    The properties follow, one module per subject, and the scenarios that
    run them on concrete inputs.

    External services (the file system, the document loaders, the vector
    store, the embedding, reranking and chat models) are parameters: each
    call has an outcome, a returned value or a raised exception, that the
    code cannot choose.

    A Python [str] is a [string]: one [ascii] per character.  Literals that
    hold characters beyond that range (the typographic quotes of the prompt
    templates) are kept in UTF-8, which preserves equality and the substring
    relation, the only operations applied to them. *)

From Stdlib Require Import ZArith QArith Ascii String List Bool Lia.
From stdpp Require Import base option gmap sets list strings sorting pretty.

Open Scope string_scope.

(** ** The Python runtime *)

Module Py.

(** The outcome of a call that may raise: the value it returns, or the
    message [str(e)] of the [Exception] it raises. *)
Inductive result (A : Type) : Type :=
  | Returned (a : A)
  | Raised (e : string).
Arguments Returned {A} a.
Arguments Raised {A} e.

Definition bind {A B} (r : result A) (k : A -> result B) : result B :=
  match r with
  | Returned a => k a
  | Raised e => Raised e
  end.

Definition ascii_code (c : ascii) : nat := nat_of_ascii c.

(** [str.lower] on one character: the capital letters [A]-[Z] and the
    capital letters of the Latin-1 block move 32 places up, every other
    character below 256 is its own lowercase. *)
Definition lower_char (c : ascii) : ascii :=
  let n := ascii_code c in
  if (((65 <=? n) && (n <=? 90))
      || ((192 <=? n) && (n <=? 222) && negb (n =? 215)))%nat
  then ascii_of_nat (n + 32) else c.

(** [str.isspace] on one character. *)
Definition isspace (c : ascii) : bool :=
  let n := ascii_code c in
  (((9 <=? n) && (n <=? 13)) || ((28 <=? n) && (n <=? 32))
   || (n =? 133) || (n =? 160))%nat.

Fixpoint lower (s : string) : string :=
  match s with
  | EmptyString => EmptyString
  | String c s' => String (lower_char c) (lower s')
  end.

(** [s.startswith(".")]. *)
Definition startswith_dot (s : string) : bool :=
  match s with
  | String c _ => Ascii.eqb c "."
  | EmptyString => false
  end.

(** [s.rfind(c)] for a one-character [c]: the index of the last
    occurrence, or -1. *)
Fixpoint rfind_from (c : ascii) (s : string) (i : Z) : Z :=
  match s with
  | EmptyString => (-1)%Z
  | String a s' =>
      let later := rfind_from c s' (i + 1) in
      if (0 <=? later)%Z then later
      else if Ascii.eqb a c then i else (-1)%Z
  end.

Definition rfind (c : ascii) (s : string) : Z := rfind_from c s 0.

(** Slices [s[:i]], [s[i:]] and [s[i:i+1]] for a non-negative [i]. *)
Definition slice_to (s : string) (i : Z) : string :=
  substring 0 (Z.to_nat i) s.

Definition slice_from (s : string) (i : Z) : string :=
  substring (Z.to_nat i) (String.length s - Z.to_nat i) s.

Definition slice_one (s : string) (i : Z) : string :=
  match get (Z.to_nat i) s with
  | Some c => String c EmptyString
  | None => EmptyString
  end.

(** [posixpath.basename]. *)
Definition basename (p : string) : string :=
  slice_from p (rfind "/" p + 1).

(** The [while] loop of [genericpath._splitext], which skips the leading
    dots of the file name; [n] bounds the iterations left, that is
    [dotIndex - filenameIndex]. *)
Fixpoint splitext_loop (p : string) (dotIndex : Z) (n : nat) (filenameIndex : Z)
  : string * string :=
  match n with
  | O => (p, "")
  | S n' =>
      if negb (String.eqb (slice_one p filenameIndex) ".")
      then (slice_to p dotIndex, slice_from p dotIndex)
      else splitext_loop p dotIndex n' (filenameIndex + 1)
  end.

(** [posixpath.splitext]. *)
Definition splitext (p : string) : string * string :=
  let sepIndex := rfind "/" p in
  let dotIndex := rfind "." p in
  if (sepIndex <? dotIndex)%Z
  then splitext_loop p dotIndex (Z.to_nat (dotIndex - (sepIndex + 1))) (sepIndex + 1)
  else (p, "").

(** [a <= b] on [str]: the lexicographic order of the character codes. *)
Fixpoint str_leb (a b : string) : bool :=
  match a, b with
  | EmptyString, _ => true
  | String _ _, EmptyString => false
  | String x a', String y b' =>
      ((ascii_code x <? ascii_code y)
       || ((ascii_code x =? ascii_code y) && str_leb a' b'))%nat
  end.

(** The truth value of [os.getenv(...)]: unset and empty are false. *)
Definition truthy (v : option string) : bool :=
  match v with
  | Some (String _ _) => true
  | _ => false
  end.

(** [sub in s]. *)
Fixpoint contains (sub s : string) : bool :=
  String.prefix sub s ||
  match s with
  | EmptyString => false
  | String _ s' => contains sub s'
  end.

(** A computation over a state [S] that may raise: the outcome and the
    state it leaves, also when it raises. *)
Definition io (S A : Type) : Type := S -> result A * S.

Definition ret {S A} (a : A) : io S A := fun w => (Returned a, w).
Definition raise {S A} (e : string) : io S A := fun w => (Raised e, w).
Definition seq {S A B} (c : io S A) (k : A -> io S B) : io S B :=
    fun w =>
      match c w with
      | (Returned a, w') => k a w'
      | (Raised e, w') => (Raised e, w')
      end.
Definition lift {S A} (r : result A) : io S A := fun w => (r, w).

(** [try: c except Exception: handler]. *)
Definition try_except {S A} (c : io S A) (handler : string -> io S A) : io S A :=
  fun w =>
    match c w with
    | (Returned a, w') => (Returned a, w')
    | (Raised e, w') => handler e w'
    end.

End Py.

Import Py.

Notation "x <- c ;; k" := (seq c (fun x => k))
  (at level 100, c at next level, right associativity).
Notation "c ;;; k" := (seq c (fun _ => k))
  (at level 100, right associativity).

(** A langchain [Document]: its text and its metadata dictionary. *)
Record Document := mkDocument {
  page_content : string;
  metadata : gmap string string;
}.

(** ** app/ingest.py: loading *)

Module Loading.

(** The four loader classes [_load_docs] dispatches to. *)
Inductive loader :=
  | UnstructuredMarkdownLoader
  | PyMuPDFLoader
  | UnstructuredWordDocumentLoader
  | TextLoader.

(** The branch of the [if]/[elif] chain an extension selects; no branch
    for any other extension. *)
Definition select_loader (ext : string) : option loader :=
  if String.eqb ext ".md" then Some UnstructuredMarkdownLoader
  else if String.eqb ext ".pdf" then Some PyMuPDFLoader
  else if String.eqb ext ".docx" then Some UnstructuredWordDocumentLoader
  else if String.eqb ext ".txt" then Some TextLoader
  else None.

(** What the loop of [_load_docs] builds: the documents, the paths of the
    files loaded, and the lines printed. *)
Record loaded := mkLoaded {
  docs : list Document;
  file_paths : list string;
  printed : list string;
}.

Section WithFiles.

(** The file system as [_load_docs] sees it: [isdir] is [os.path.isdir],
    and [load L path] is the outcome of [L(path).load()]. *)
Variable isdir : string -> bool.
Variable load : loader -> string -> result (list Document).

(** One iteration of the [for] loop. *)
Definition load_path (acc : loaded) (path : string) : loaded :=
  if isdir path || startswith_dot (basename path) then acc
  else
    let ext := lower (snd (splitext path)) in
    match select_loader ext with
    | Some L =>
        match load L path with
        | Returned ds =>
            mkLoaded (docs acc ++ ds) (file_paths acc ++ [path]) (printed acc)
        | Raised _ =>
            mkLoaded (docs acc) (file_paths acc)
                     (printed acc ++ ["INGEST ERROR: failed to load " ++ path])
        end
    | None => acc
    end.

(** [_load_docs], on the paths [glob.glob] yields. *)
Definition _load_docs (paths : list string) : loaded :=
  fold_left load_path paths (mkLoaded [] [] []).

End WithFiles.

End Loading.

(** ** app/constants.py: the configuration of ingestion *)

Module Constants.

Definition INDEX_NAME : string := "hnsw_index".
Definition EMBEDDING_TABLE_NAME : string := "langchain_pg_embedding".

Definition CHUNK_SIZE : Z := 500.
Definition CHUNK_OVERLAP : Z := 100.

Definition HNSW_EF_CONSTRUCTION : Z := 64.
Definition HNSW_M : Z := 16.

Definition RAG_K : Z := 10.
Definition USE_MULTI_QUERY : bool := true.
Definition RERANK_TOP_N : Z := 8.
Definition COHERE_RERANK_MODEL : string := "rerank-multilingual-v3.0".

Definition DEFAULT_DATA_DIR : string := "data".
Definition DEFAULT_OPENAI_MODEL : string := "gpt-4o".

Definition EMBEDDING_MODEL : string := "text-embedding-3-small".

Definition REDIS_CACHE_DISTANCE_THRESHOLD : Q := 8 # 10.

(** The system message of the synthesis prompt. *)
Definition SYSTEM_PROMPT : string :=
"
You are CivicLens AI and Executive Summarizer, a precise, non-partisan knowledge assistant designed to advance AI education, civic literacy, and responsible governance for America’s future.

Mission Context:
CivicLens AI supports the national challenge of “Advancing Artificial Intelligence (AI) Education for American Youth” by transforming complex government documents—such as U.S. 
Executive Orders—into accurate, age-appropriate, and plain-language explanations. 

The system serves multiple audiences, including youth (ages 10–18) and federal leadership, without political persuasion or advocacy.

Core Purpose:
- Help young Americans understand how government decisions affect their education, opportunities, and future
- Support policymakers with clear, plain-English summaries of complex policy documents
- Demonstrate responsible, ethical, and transparent use of AI in civic education

Operating Rules:
- Use ONLY the information explicitly provided in the supplied context
- Do NOT add outside knowledge, interpretation, speculation, or opinion
- Carefully review ALL context passages before answering
- Cite values, dates, names, codes, titles, and identifiers exactly as written
- Preserve original wording when referencing official terms or labels
- Distinguish clearly between numeric values, identifiers, dates, and descriptive text
- If multiple records exist, prioritize the most recent by date unless instructed otherwise
- If the answer is not present in the context, respond exactly:
  “I don’t know based on the available documents.”

Ethics & Safety Constraints:
- No political advocacy or persuasion
- No partisan framing or bias
- Age-appropriate, neutral explanations
- Transparent, explainable outputs suitable for educational and governmental use
- Human oversight assumed for high-impact decisions

Tone & Style:
- Clear, factual, and concise
- Plain language where possible, without altering meaning
- Educational and neutral, suitable for civic learning environments

".

(** The user message of the synthesis prompt, with the fields [{input}] and [{context}]. *)
Definition USER_PROMPT_TEMPLATE : string :=
"Question: {input}

Context from documents:
{context}

Instructions:
1. Search through ALL context passages for information relevant to the question
2. Extract the answer directly from the context only
3. Quote or reference specific values, dates, names, titles, codes, or identifiers exactly as written
4. Respect labels, headings, and structured fields present in the source text
5. Clearly distinguish between different data types (e.g., dates vs. numeric values vs. IDs)
6. Do NOT infer, summarize beyond the text, or use outside knowledge
7. If the information is not explicitly stated in the context, respond:
   “I don’t know based on the available documents.”
   
8. Provide a summary that captures the main ideas, key points, and important details.
9. Keep the summary clear, concise, and easy to understand.
10. Highlight any actionable items, conclusions, or recommendations if present.

".

(** The prompt of the query rewriter, with the field [{question}]. *)
Definition MULTI_QUERY_PROMPT_TEMPLATE : string :=
"
You are CivicLens AI and Executive Summarizer of technical documents, a precise, non-partisan knowledge assistant designed to advance AI education, civic literacy,
and responsible governance for America’s future.

Question: {question}

Instructions:
1. Search through ALL context passages for information relevant to the question
2. Extract the answer directly from the context only
3. Quote or reference specific values, dates, names, titles, codes, or identifiers exactly as written
4. Respect labels, headings, and structured fields present in the source text
5. Clearly distinguish between different data types (e.g., dates vs. numeric values vs. IDs)
6. Do NOT infer, summarize beyond the text, or use outside knowledge
7. If the information is not explicitly stated in the context, respond:
   “I don’t know based on the available documents.”
   
".

End Constants.

(** ** The text splitter

    [_chunk] builds [RecursiveCharacterTextSplitter(chunk_size, chunk_overlap)]
    and calls its [split_documents].  The class comes from
    [langchain_text_splitters]; this module follows its methods with every
    other option at its default: separators ["\n\n", "\n", " ", ""],
    [keep_separator=True], [is_separator_regex=False], [length_function=len],
    [strip_whitespace=True], [add_start_index=False]. *)

Module TextSplitter.

Local Open Scope list_scope.

Definition text := list ascii.

Definition len (t : text) : Z := Z.of_nat (length t).

Definition text_eqb (a b : text) : bool := bool_decide (a = b).

Fixpoint lstrip (t : text) : text :=
  match t with
  | c :: t' => if isspace c then lstrip t' else t
  | [] => []
  end.

(** [str.strip()]. *)
Definition strip (t : text) : text := rev (lstrip (rev (lstrip t))).

(** [separator.join(docs)]. *)
Fixpoint join (separator : text) (docs : list text) : text :=
  match docs with
  | [] => []
  | [d] => d
  | d :: rest => d ++ separator ++ join separator rest
  end.

(** [sep] starts [t]. *)
Fixpoint starts_with (sep t : text) : bool :=
  match sep, t with
  | [], _ => true
  | a :: sep', b :: t' => Ascii.eqb a b && starts_with sep' t'
  | _ :: _, [] => false
  end.

(** [re.search(re.escape(sep), t)] finds a match. *)
Fixpoint contains (sep t : text) : bool :=
  starts_with sep t ||
  match t with
  | [] => false
  | _ :: t' => contains sep t'
  end.

(** [re.split("(" + re.escape(sep) + ")", t)] for a non-empty [sep]: the
    pieces between the matches, found left to right without overlap, each
    followed by the separator that ends it.  [skip] counts the characters
    of the current match still to pass, [piece] is the piece read so far. *)
Fixpoint re_split (sep t : text) (skip : nat) (piece : text) : list text :=
  match t with
  | [] => [piece]
  | c :: t' =>
      match skip with
      | S k => re_split sep t' k piece
      | O =>
          if starts_with sep t
          then piece :: sep :: re_split sep t' (length sep - 1) []
          else re_split sep t' 0 (piece ++ [c])
      end
  end.

(** [[_splits[i] + _splits[i + 1] for i in range(1, len(_splits), 2)]],
    on [_splits[1:]]. *)
Fixpoint glue (l : list text) : list text :=
  match l with
  | s :: p :: rest => (s ++ p) :: glue rest
  | _ => []
  end.

(** [_split_text_with_regex(text, separator, keep_separator=True)].
    [re.split] with one group returns an odd number of items, so the
    branch for an even number adds nothing. *)
Definition _split_text_with_regex (t separator : text) : list text :=
  let splits :=
    match separator with
    | _ :: _ =>
        let _splits := re_split separator t 0 [] in
        match _splits with
        | first :: others => first :: glue others
        | [] => []
        end
    | [] => map (fun c => [c]) t
    end in
  filter (fun s => s <> []) splits.

Section Configured.

Variables chunk_size chunk_overlap : Z.

(** [_join_docs]. *)
Definition _join_docs (docs : list text) (separator : text) : option text :=
  let t := strip (join separator docs) in
  if text_eqb t [] then None else Some t.

(** The separator length a piece costs: [separator_len if len(current_doc)
    > n else 0]. *)
Definition sep_cost (separator : text) (current_doc : list text) (n : nat) : Z :=
  if (n <? length current_doc)%nat then len separator else 0%Z.

(** The [while] loop of [_merge_splits], dropping pieces from the front
    of [current_doc]; [current_doc[0]] raises on an empty list. *)
Fixpoint drop_front (separator : text) (_len : Z) (current_doc : list text) (total : Z)
  : result (list text * Z) :=
  let again :=
    ((chunk_overlap <? total)
     || ((chunk_size <? total + _len + sep_cost separator current_doc 0)
         && (0 <? total)))%Z in
  match current_doc with
  | [] =>
      if again then Raised "IndexError: list index out of range"
      else Returned ([], total)
  | d0 :: rest =>
      if again
      then drop_front separator _len rest
             (total - (len d0 + sep_cost separator current_doc 1))
      else Returned (current_doc, total)
  end.

(** The state of the [for] loop of [_merge_splits]. *)
Record merging := mkMerging {
  m_docs : list text;
  current_doc : list text;
  total : Z;
}.

Definition emit (docs : list text) (current : list text) (separator : text)
  : list text :=
  match _join_docs current separator with
  | Some doc => docs ++ [doc]
  | None => docs
  end.

(** [current_doc.append(d)] and the update of [total] after it. *)
Definition append_piece (separator : text) (docs : list text)
    (current : list text) (tot : Z) (d : text) : merging :=
  let current' := current ++ [d] in
  mkMerging docs current' (tot + (len d + sep_cost separator current' 1)).

(** One iteration of the [for] loop of [_merge_splits]. *)
Definition merge_step (separator : text) (st : merging) (d : text)
  : result merging :=
  let _len := len d in
  if (chunk_size <? total st + _len + sep_cost separator (current_doc st) 0)%Z
  then
    match current_doc st with
    | _ :: _ =>
        let docs := emit (m_docs st) (current_doc st) separator in
        bind (drop_front separator _len (current_doc st) (total st))
             (fun '(current, tot) =>
                Returned (append_piece separator docs current tot d))
    | [] =>
        Returned (append_piece separator (m_docs st) (current_doc st) (total st) d)
    end
  else Returned (append_piece separator (m_docs st) (current_doc st) (total st) d).

Fixpoint merge_loop (separator : text) (st : merging) (splits : list text)
  : result merging :=
  match splits with
  | [] => Returned st
  | d :: rest => bind (merge_step separator st d)
                      (fun st' => merge_loop separator st' rest)
  end.

(** [_merge_splits]. *)
Definition _merge_splits (splits : list text) (separator : text)
  : result (list text) :=
  bind (merge_loop separator (mkMerging [] [] 0) splits)
       (fun st => Returned (emit (m_docs st) (current_doc st) separator)).

(** The state of the [for] loop of [_split_text]. *)
Record splitting := mkSplitting {
  final_chunks : list text;
  _good_splits : list text;
}.

(** [if _good_splits: final_chunks.extend(_merge_splits(...))]. *)
Definition flush (st : splitting) : result (list text) :=
  match _good_splits st with
  | _ :: _ =>
      bind (_merge_splits (_good_splits st) [])
           (fun merged => Returned (final_chunks st ++ merged))
  | [] => Returned (final_chunks st)
  end.

(** One iteration of the [for] loop of [_split_text]; [recur] is
    [_split_text] on [new_separators]. *)
Definition split_step (new_separators : list text)
    (recur : text -> result (list text)) (st : splitting) (s : text)
  : result splitting :=
  if (len s <? chunk_size)%Z
  then Returned (mkSplitting (final_chunks st) (_good_splits st ++ [s]))
  else
    bind (flush st) (fun final =>
      match new_separators with
      | [] => Returned (mkSplitting (final ++ [s]) [])
      | _ :: _ =>
          bind (recur s) (fun other_info =>
            Returned (mkSplitting (final ++ other_info) []))
      end).

Fixpoint split_loop (new_separators : list text)
    (recur : text -> result (list text)) (st : splitting) (splits : list text)
  : result splitting :=
  match splits with
  | [] => Returned st
  | s :: rest => bind (split_step new_separators recur st s)
                      (fun st' => split_loop new_separators recur st' rest)
  end.

(** The body of [_split_text] once [separator] and [new_separators] are
    chosen. *)
Definition split_on (separator : text) (new_separators : list text)
    (recur : text -> result (list text)) (t : text) : result (list text) :=
  let splits := _split_text_with_regex t separator in
  bind (split_loop new_separators recur (mkSplitting [] []) splits) flush.

(** [_split_text(text, separators)].  The loop that chooses the separator
    is the recursion on [separators]: the first separator that is empty
    or occurs in the text is chosen, with the separators after it as
    [new_separators] when it occurs; when none is, the last one is used
    and [new_separators] is empty. *)
Fixpoint _split_text (separators : list text) (t : text) : result (list text) :=
  match separators with
  | [] => Raised "IndexError: list index out of range"
  | _s :: rest =>
      if text_eqb _s [] then split_on [] [] (fun _ => Returned []) t
      else if contains _s t then split_on _s rest (_split_text rest) t
      else
        match rest with
        | [] => split_on _s [] (fun _ => Returned []) t
        | _ :: _ => _split_text rest t
        end
  end.

(** The default separators: ["\n\n", "\n", " ", ""]. *)
Definition newline : ascii := ascii_of_nat 10.
Definition separators : list text :=
      [[newline; newline]; [newline]; [" "%char]; []].

(** [split_text]. *)
Definition split_text (t : text) : result (list text) :=
  _split_text separators t.

(** [create_documents], for one document: every chunk carries a copy of
    the document's metadata. *)
Definition chunks_of (d : Document) : result (list Document) :=
  bind (split_text (list_ascii_of_string (page_content d)))
       (fun chunks =>
          Returned (map (fun c => mkDocument (string_of_list_ascii c) (metadata d))
                        chunks)).

(** [split_documents]. *)
Fixpoint split_documents (docs : list Document) : result (list Document) :=
  match docs with
  | [] => Returned []
  | d :: rest =>
      bind (chunks_of d) (fun cs =>
        bind (split_documents rest) (fun more => Returned (cs ++ more)))
  end.

End Configured.

End TextSplitter.

(** ** [str] methods on whole strings *)

Module Str.

(** [s.strip()]: white space is taken off both ends, as the splitter takes
    it off its chunks. *)
Definition strip_str (s : string) : string :=
  string_of_list_ascii (TextSplitter.strip (list_ascii_of_string s)).

End Str.

(** ** app/ingest.py: chunking, the search index and the ingestion run *)

Module Ingest.

Import Constants Loading.
Local Open Scope list_scope.

(** [langchain_postgres.v2.indexes]. *)
Inductive DistanceStrategy := EUCLIDEAN | COSINE_DISTANCE | INNER_PRODUCT.

Record HNSWIndex := mkHNSWIndex {
  name : string;
  distance_strategy : DistanceStrategy;
  ef_construction : Z;
  m : Z;
}.

(** The embedding table behind the vector store: the rows written, the
    valid indexes by name, and every index build carried out, in order. *)
Record PGVectorStore := mkStore {
  entries : list (Document * list Q);
  indexes : gmap string HNSWIndex;
  builds : list HNSWIndex;
}.

(** What the process changes: the table and the standard output. *)
Record World := mkWorld {
  store : PGVectorStore;
  stdout : list string;
}.

Abbreviation io := (Py.io World).

Definition print (line : string) : io unit :=
  fun w => (Returned tt, mkWorld (store w) (stdout w ++ [line])).

(** [_chunk]: the splitter on [CHUNK_SIZE] and [CHUNK_OVERLAP]; a failure
    is reported and raised again. *)
Definition _chunk (docs : list Document) : io (list Document) :=
  print ("INGEST: chunking " ++ pretty (length docs) ++ " documents") ;;;
  match TextSplitter.split_documents CHUNK_SIZE CHUNK_OVERLAP docs with
  | Returned chunks => ret chunks
  | Raised e => print "INGEST ERROR: chunking failed" ;;; raise e
  end.

(** [store.ais_valid_index(index_name)]: read from the table itself. *)
Definition ais_valid_index (index_name : string) : io bool :=
  fun w => (Returned (bool_decide (is_Some (indexes (store w) !! index_name))), w).

(** [store.aapply_vector_index(index, concurrently=True)]: [CREATE INDEX],
    which fails on a name already taken. *)
Definition aapply_vector_index (index : HNSWIndex) : io unit :=
  fun w =>
    match indexes (store w) !! name index with
    | Some _ => (Raised ("relation " ++ name index ++ " already exists"), w)
    | None =>
        (Returned tt,
         mkWorld (mkStore (entries (store w))
                          (<[name index := index]> (indexes (store w)))
                          (builds (store w) ++ [index]))
                 (stdout w))
    end.

(** [_create_index]. *)
Definition _create_index : io unit :=
  valid <- ais_valid_index INDEX_NAME ;;
  if (valid : bool) then
    print ("Index '" ++ INDEX_NAME ++ "' already exists, skipping creation.")
  else
    let index := mkHNSWIndex INDEX_NAME COSINE_DISTANCE HNSW_EF_CONSTRUCTION HNSW_M in
    aapply_vector_index index ;;;
    print "Index created successfully.".

(** The statistics [run_ingest_async] returns: the dictionary with the
    keys "documents", "chunks" and "files". *)
Record stats := mkStats {
  documents : nat;
  chunks : nat;
  files : list string;
}.

Section WithEnvironment.

(** The surroundings of one run: the paths [glob.glob] yields under the
    data directory, [os.path.isdir], the loaders, whether
    [get_vector_store()] fails, and the embedding service. *)
Variable paths : list string.
Variable isdir : string -> bool.
Variable load : loader -> string -> result (list Document).
Variable get_vector_store : result unit.
Variable embed_documents : list string -> result (list (list Q)).

(** [store.aadd_documents(chunks)]: embed the texts, then append the
    rows. *)
Definition aadd_documents (chunks : list Document) : io unit :=
  vectors <- lift (embed_documents (map page_content chunks)) ;;
  fun w =>
    (Returned tt,
     mkWorld (mkStore (entries (store w) ++ zip chunks vectors)
                      (indexes (store w)) (builds (store w)))
             (stdout w)).

(** [run_ingest_async]. *)
Definition run_ingest_async : io stats :=
  let loaded := _load_docs isdir load paths in
  fold_right (fun line k => print line ;;; k) (ret tt) (printed loaded) ;;;
  let docs := docs loaded in
  let file_paths := file_paths loaded in
  chunks <- _chunk docs ;;
  lift get_vector_store ;;;
  aadd_documents chunks ;;;
  print ("INGEST: " ++ pretty (length docs) ++ " docs, "
         ++ pretty (length chunks) ++ " chunks") ;;;
  _create_index ;;;
  ret (mkStats (length docs) (length chunks) file_paths).

End WithEnvironment.

End Ingest.

(** ** app/rag.py *)

Module Rag.

Import Constants.
Local Open Scope list_scope.

#[global] Instance Document_eq_dec : EqDecision Document.
Proof. solve_decision. Defined.

(** One chat message: its role and its content. *)
Definition message : Type := string * string.

(** [template.format] on the variables [vars], for the f-string templates of the prompt:
    [{name}] is replaced by [vars[name]], [{{] and [}}] stand for a brace.
    [field] holds the name being read inside braces. *)
Fixpoint format_from (template : string) (field : option string)
    (vars : gmap string string) : result string :=
  match template with
  | EmptyString =>
      match field with
      | None => Returned EmptyString
      | Some _ => Raised "ValueError: expected '}' before end of string"
      end
  | String c rest =>
      match field with
      | Some fname =>
          if Ascii.eqb c "}" then
            match vars !! fname with
            | Some v => bind (format_from rest None vars)
                             (fun out => Returned (v ++ out)%string)
            | None => Raised ("KeyError: " ++ fname)%string
            end
          else format_from rest (Some (fname ++ String c EmptyString)%string) vars
      | None =>
          if Ascii.eqb c "{" then
            match rest with
            | String "{" rest' =>
                bind (format_from rest' None vars)
                     (fun out => Returned (String "{" out))
            | _ => format_from rest (Some EmptyString) vars
            end
          else if Ascii.eqb c "}" then
            match rest with
            | String "}" rest' =>
                bind (format_from rest' None vars)
                     (fun out => Returned (String "}" out))
            | _ => Raised "ValueError: Single '}' encountered in format string"
            end
          else bind (format_from rest None vars)
                    (fun out => Returned (String c out))
      end
  end.

Definition format (template : string) (vars : gmap string string) : result string :=
  format_from template None vars.

(** [PROMPT]: the chat prompt template. *)
Definition PROMPT : list message :=
  [("system", SYSTEM_PROMPT); ("user", USER_PROMPT_TEMPLATE)].

Fixpoint format_messages (templates : list message) (vars : gmap string string)
  : result (list message) :=
  match templates with
  | [] => Returned []
  | (role, template) :: rest =>
      bind (format template vars) (fun content =>
        bind (format_messages rest vars) (fun more =>
          Returned ((role, content) :: more)))
  end.

(** ["\n\n".join(...)]. *)
Fixpoint join_paragraphs (parts : list string) : string :=
  match parts with
  | [] => EmptyString
  | [p] => p
  | p :: rest =>
      (p ++ String (ascii_of_nat 10) (String (ascii_of_nat 10) (join_paragraphs rest)))%string
  end.

(** The state of the module: the cache set by [set_llm_cache] (the key is
    the prompt together with the model configuration), the calls that
    reached the model service, and the standard output. *)
Record State := mkState {
  llm_cache : option (gmap (list message * string) string);
  model_calls : list (string * list message);
  stdout : list string;
}.

Abbreviation io := (Py.io State).

Definition print (line : string) : io unit :=
  fun st => (Returned tt, mkState (llm_cache st) (model_calls st) (stdout st ++ [line])).

(** The module-level set-up of the cache, on the content the Redis
    server holds: without [REDIS_URL], or when the connection test
    raises, no cache is set. *)
Definition configure_cache (REDIS_URL : option string) (ping : result unit)
    (redis : gmap (list message * string) string) : State :=
  if truthy REDIS_URL then
    match ping with
    | Returned _ => mkState (Some redis) [] ["✓ Redis cache enabled"]
    | Raised e => mkState None [] ["⚠ Redis cache disabled: " ++ e]%string
    end
  else mkState None [] [].

(** The result of [chain.ainvoke]. *)
Record chain_result := mkResult {
  r_input : string;
  r_context : list Document;
  r_answer : string;
}.

(** [d.metadata.get("source")]. *)
Definition source (d : Document) : option string := metadata d !! "source".

(** [a <= b] between two sources that can be compared. *)
Definition source_le (a b : option string) : Prop :=
  match a, b with
  | Some x, Some y => str_leb x y = true
  | None, _ => True
  | Some _, None => False
  end.

#[global] Instance source_le_dec a b : Decision (source_le a b).
Proof. destruct a, b; simpl; apply _. Defined.

(** The message of the [TypeError] of [sorted] on members that hold
    [None] and a [str]: the first comparison with [None] is [x < None] when
    [None] comes first and [None < x] otherwise (one run of [list.sort],
    fewer than 64 members).  A Python set yields its members in an order
    the program does not fix; the order of [elements] stands for it. *)
Definition type_error (l : list (option string)) : string :=
  match l with
  | None :: _ => "'<' not supported between instances of 'str' and 'NoneType'"
  | _ => "'<' not supported between instances of 'NoneType' and 'str'"
  end.

(** [sorted(unique_sources)]: comparing [None] with a [str] raises, which
    happens as soon as the set holds [None] and anything else. *)
Definition sorted (unique_sources : gset (option string))
  : result (list (option string)) :=
  let l := elements unique_sources in
  if (length l <=? 1)%nat || forallb (fun k => bool_decide (is_Some k)) l
  then Returned (merge_sort source_le l)
  else Raised (type_error l).

(** [_unique_documents] of the multi-query retriever: first occurrences. *)
Fixpoint unique_documents (seen documents : list Document) : list Document :=
  match documents with
  | [] => []
  | d :: rest =>
      if bool_decide (d ∈ seen) then unique_documents seen rest
      else d :: unique_documents (seen ++ [d]) rest
  end.

Section WithServices.

(** The services [app/rag.py] calls: the vector store and its search
    with [k = RAG_K], the constructor of the multi-query retriever and
    the rewrites its model returns for a question, the Cohere
    credential, constructor and reranking call, the model name from the
    environment, and the chat model. *)
Variable get_vector_store : result unit.
Variable similarity_search : string -> result (list Document).
Variable multi_query_from_llm : result unit.
Variable generate_queries : string -> result (list string).
Variable COHERE_API_KEY : option string.
Variable CohereRerank : result unit.
Variable compress_documents : list Document -> string -> result (list Document).
Variable OPENAI_MODEL : option string.
Variable chat : string -> list message -> result string.

Definition retriever : Type := string -> result (list Document).

(** [os.getenv("OPENAI_MODEL", DEFAULT_OPENAI_MODEL)]. *)
Definition model_name : string := default DEFAULT_OPENAI_MODEL OPENAI_MODEL.

(** A call of the chat model under the global cache: a stored response
    for the same prompt and model is returned without a call; any other
    call reaches the model and its response is stored. *)
Definition generate (messages : list message) : io string :=
  fun st =>
    let call := (model_name, messages) in
    match llm_cache st with
    | Some cache =>
        match cache !! (messages, model_name) with
        | Some stored => (Returned stored, st)
        | None =>
            match chat model_name messages with
            | Returned out =>
                (Returned out,
                 mkState (Some (<[(messages, model_name) := out]> cache))
                         (model_calls st ++ [call]) (stdout st))
            | Raised e =>
                (Raised e, mkState (llm_cache st) (model_calls st ++ [call]) (stdout st))
            end
        end
    | None =>
        (chat model_name messages,
         mkState None (model_calls st ++ [call]) (stdout st))
    end.

(** [MultiQueryRetriever] with [include_original=True]: search for every
    rewrite and for the question itself, keep the distinct documents. *)
Fixpoint retrieve_documents (base : retriever) (queries : list string)
  : result (list Document) :=
  match queries with
  | [] => Returned []
  | q :: rest =>
      bind (base q) (fun found =>
        bind (retrieve_documents base rest) (fun more => Returned (found ++ more)))
  end.

Definition multi_query_retriever (base : retriever) : retriever :=
  fun question =>
    bind (generate_queries question) (fun queries =>
      bind (retrieve_documents base (queries ++ [question])) (fun documents =>
        Returned (unique_documents [] documents))).

(** [ContextualCompressionRetriever]: rerank what the base retriever
    finds, when it finds anything. *)
Definition contextual_compression_retriever (base : retriever) : retriever :=
  fun question =>
    bind (base question) (fun found =>
      match found with
      | [] => Returned []
      | _ :: _ => compress_documents found question
      end).

(** [_build_chain]: the chain it returns is the retriever it assembles,
    followed by the document chain [doc_chain] below. *)
Definition _build_chain : io retriever :=
  lift get_vector_store ;;;
  base_retriever <-
    (if USE_MULTI_QUERY then
       try_except
         (lift multi_query_from_llm ;;;
          print "✓ Multi-query retriever enabled" ;;;
          ret (multi_query_retriever similarity_search))
         (fun e =>
            print ("⚠ Multi-query retriever failed: " ++ e)%string ;;;
            ret similarity_search)
     else ret similarity_search) ;;
  if truthy COHERE_API_KEY then
    try_except
      (lift CohereRerank ;;;
       print ("✓ Cohere reranker enabled (top_n=" ++ pretty RERANK_TOP_N ++ ")")%string ;;;
       ret (contextual_compression_retriever base_retriever))
      (fun e =>
         print ("⚠ Cohere reranker failed: " ++ e)%string ;;;
         ret base_retriever)
  else ret base_retriever.

(** The document chain: the contents joined into [{context}], the
    prompt formatted, the model called. *)
Definition doc_chain (question : string) (context : list Document) : io string :=
  let vars : gmap string string :=
    <["input" := question]>
      (<["context" := join_paragraphs (map page_content context)]> ∅) in
  messages <- lift (format_messages PROMPT vars) ;;
  generate messages.

(** [rag_chain.ainvoke({"input": question})]. *)
Definition ainvoke (retrieve : retriever) (question : string) : io chain_result :=
  context <- lift (retrieve question) ;;
  answer <- doc_chain question context ;;
  ret (mkResult question context answer).

(** [answer_with_docs_async]. *)
Definition answer_with_docs_async (question : string)
  : io (string * list (option string) * list string) :=
  chain <- _build_chain ;;
  result <- ainvoke chain question ;;
  let answer := r_answer result in
  let docs := r_context result in
  let unique_sources : gset (option string) := list_to_set (map source docs) in
  sources <- lift (sorted unique_sources) ;;
  let context := map page_content docs in
  ret (answer, sources, context).

End WithServices.

End Rag.

(** ** app/chainlit_app.py: the ingestion job and the /ingest command *)

Module ChainlitApp.

Local Open Scope list_scope.

(** The values [_ingest_last] holds: [None], a status or error string, a
    reading of [time.time()], or the statistics of a run. *)
Inductive value :=
  | VNone
  | VStr (s : string)
  | VTime (t : Q)
  | VStats (s : Ingest.stats).

(** [d.update(new)]: the keys of [new] are set, the others keep their
    value. *)
Definition update (d new : gmap string value) : gmap string value := new ∪ d.

(** The task [asyncio.create_task(_ingest_job())] returns, as
    [handle_command] and the event loop see it: created and waiting for
    its first turn, running, finished, or cancelled.  [_ingest_job]
    catches [Exception] only, and the handler that waits for the task does
    not shield it: a cancellation of the handler cancels the task, which
    then ends without the update of [_ingest_last]. *)
Inductive task := Created | Started | Done | Cancelled.

(** [task.done()]: true of a finished and of a cancelled task. *)
Definition done (t : task) : bool :=
  match t with
  | Done | Cancelled => true
  | _ => false
  end.

(** The module-level state, the table and output [run_ingest_async] works
    on, and the messages sent to the chat. *)
Record Globals := mkGlobals {
  _ingest_task : option task;
  _ingest_last : gmap string value;
  world : Ingest.World;
  sent : list string;
}.

(** [_ingest_last] when the module is loaded. *)
Definition initial_ingest_last : gmap string value :=
  <["status" := VStr "idle"]>
    (<["started_at" := VNone]>
       (<["finished_at" := VNone]>
          (<["stats" := VNone]>
             (<["error" := VNone]> ∅)))).

Definition initial (w : Ingest.World) : Globals :=
  mkGlobals None initial_ingest_last w [].

(** [_ingest_last["status"]]. *)
Definition status (g : Globals) : option value := _ingest_last g !! "status".

(** The surroundings of one run of [run_ingest_async]. *)
Record Environment := mkEnvironment {
  paths : list string;
  isdir : string -> bool;
  load : Loading.loader -> string -> result (list Document);
  get_vector_store : result unit;
  embed_documents : list string -> result (list (list Q));
}.

Definition run_ingest_async (env : Environment) : Py.io Ingest.World Ingest.stats :=
  Ingest.run_ingest_async (paths env) (isdir env) (load env)
                          (get_vector_store env) (embed_documents env).

(** The tables and outputs a run can leave behind when it is cancelled.
    A cancellation arrives at one of the [await]s of [run_ingest_async]:
    at [get_vector_store()], after loading and chunking; at
    [aadd_documents], with the rows written; at [ais_valid_index], after
    the line on the counts; at [aapply_vector_index], with the index
    built.  A run that raises before an [await] cannot be cancelled
    there. *)
Definition cancelled_at (env : Environment) (w : Ingest.World) : list Ingest.World :=
  let loaded := Loading._load_docs (isdir env) (load env) (paths env) in
  let docs := Loading.docs loaded in
  let load_and_chunk :=
    (fold_right (fun line k => Ingest.print line ;;; k) (ret tt)
                (Loading.printed loaded) ;;;
     Ingest._chunk docs) in
  match load_and_chunk w with
  | (Raised _, _) => []
  | (Returned chunks, w0) =>
      w0 ::
      match get_vector_store env,
            Ingest.aadd_documents (embed_documents env) chunks w0 with
      | Returned _, (Returned _, w1) =>
          let counts :=
            ("INGEST: " ++ pretty (length docs) ++ " docs, "
             ++ pretty (length chunks) ++ " chunks")%string in
          let w2 := snd (Ingest.print counts w1) in
          let index :=
            Ingest.mkHNSWIndex Constants.INDEX_NAME Ingest.COSINE_DISTANCE
                               Constants.HNSW_EF_CONSTRUCTION Constants.HNSW_M in
          w1 :: w2 ::
          match Ingest.ais_valid_index Constants.INDEX_NAME w2,
                Ingest.aapply_vector_index index w2 with
          | (Returned false, _), (Returned _, w3) => [w3]
          | _, _ => []
          end
      | _, _ => []
      end
  end.

(** [_ingest_job] up to its [await]: the first update, at time [now]. *)
Definition _ingest_job_begin (now : Q) (last : gmap string value)
  : gmap string value :=
  update last
    (<["status" := VStr "running"]>
       (<["started_at" := VTime now]>
          (<["finished_at" := VNone]>
             (<["stats" := VNone]>
                (<["error" := VNone]> ∅))))).

(** [_ingest_job] after its [await]: the update for the outcome of
    [run_ingest_async], at time [now]. *)
Definition _ingest_job_end (now : Q) (outcome : result Ingest.stats)
    (last : gmap string value) : gmap string value :=
  match outcome with
  | Returned stats =>
      update last
        (<["status" := VStr "succeeded"]>
           (<["finished_at" := VTime now]>
              (<["stats" := VStats stats]> ∅)))
  | Raised e =>
      update last
        (<["status" := VStr "failed"]>
           (<["finished_at" := VTime now]>
              (<["error" := VStr e]> ∅)))
  end.

(** [_ingest_job], run without interruption: [started] and [finished] are
    the two readings of the clock. *)
Definition _ingest_job (env : Environment) (started finished : Q) (g : Globals)
  : Globals :=
  let last := _ingest_job_begin started (_ingest_last g) in
  let '(outcome, w) := run_ingest_async env (world g) in
  mkGlobals (_ingest_task g) (_ingest_job_end finished outcome last) w (sent g).

Definition ALREADY_RUNNING : string :=
  "‚ö†Ô∏è Ingestion is already running. Please wait for it to complete.".

Definition STARTING : string :=
  "üîÑ Starting document ingestion...".

(** [command.lower().split()[0]]: the first run of characters that are
    not white space. *)
Fixpoint first_word (s : string) (word : string) : string :=
  match s with
  | EmptyString => word
  | String c rest =>
      if isspace c then
        match word with
        | EmptyString => first_word rest word
        | String _ _ => word
        end
      else first_word rest (word ++ String c EmptyString)%string
  end.

Section WithOtherCommands.

(** The messages the branches for [/status], [/help] and unknown
    commands send; they read the state and change nothing else. *)
Variable other_commands : string -> Globals -> list string.

(** [handle_command], up to the point where it starts to wait for the
    task: under the lock, either the refusal or the creation of the
    task. *)
Definition handle_command (command : string) (g : Globals) : Globals :=
  let cmd := first_word (lower command) EmptyString in
  if String.eqb cmd "/ingest" then
    match _ingest_task g with
    | Some t =>
        if negb (done t) then
          mkGlobals (_ingest_task g) (_ingest_last g) (world g)
                    (sent g ++ [ALREADY_RUNNING])
        else
          mkGlobals (Some Created) (_ingest_last g) (world g)
                    (sent g ++ [STARTING])
    | None =>
        mkGlobals (Some Created) (_ingest_last g) (world g)
                  (sent g ++ [STARTING])
    end
  else
    mkGlobals (_ingest_task g) (_ingest_last g) (world g)
              (sent g ++ other_commands cmd g).

(** What can happen to the module state: a command arrives, the event
    loop gives the created task its first turn, the run inside the
    started task comes to its end, or the task is cancelled: before its
    first turn, or at the [await] number [cut] of its run. *)
Inductive event :=
  | Command (command : string)
  | JobBegins (now : Q)
  | JobEnds (env : Environment) (now : Q)
  | JobCancelled (env : Environment) (cut : nat).

(** One event; [None] when the event cannot happen in that state. *)
Definition step (e : event) (g : Globals) : option Globals :=
  match e with
  | Command command => Some (handle_command command g)
  | JobBegins now =>
      match _ingest_task g with
      | Some Created =>
          Some (mkGlobals (Some Started) (_ingest_job_begin now (_ingest_last g))
                          (world g) (sent g))
      | _ => None
      end
  | JobEnds env now =>
      match _ingest_task g with
      | Some Started =>
          let '(outcome, w) := run_ingest_async env (world g) in
          Some (mkGlobals (Some Done) (_ingest_job_end now outcome (_ingest_last g))
                          w (sent g))
      | _ => None
      end
  | JobCancelled env cut =>
      match _ingest_task g with
      | Some Created =>
          Some (mkGlobals (Some Cancelled) (_ingest_last g) (world g) (sent g))
      | Some Started =>
          match cancelled_at env (world g) !! cut with
          | Some w => Some (mkGlobals (Some Cancelled) (_ingest_last g) w (sent g))
          | None => None
          end
      | _ => None
      end
  end.

(** The state after a sequence of events. *)
Fixpoint run (events : list event) (g : Globals) : option Globals :=
  match events with
  | [] => Some g
  | e :: rest =>
      match step e g with
      | Some g' => run rest g'
      | None => None
      end
  end.

(** The states the process can be in. *)
Definition reachable (g : Globals) : Prop :=
  exists w events, run events (initial w) = Some g.

End WithOtherCommands.

End ChainlitApp.


(** ** app/chainlit_app.py: the routing of messages and the replies *)

Module Replies.

Import ChainlitApp Str.
Local Open Scope list_scope.



Definition ASK_FOR_INPUT : string :=
  "Please ask a question or use a command like `/ingest` or `/status`.".

Definition STATUS_IDLE : string :=
  "üìä **Ingestion Status:** Idle

No ingestion has been run yet. Use `/ingest` to start.".

Definition STATUS_RUNNING : string :=
  "üìä **Ingestion Status:** Running üîÑ

Please wait...".

Definition STATUS_SUCCEEDED : string :=
  "üìä **Ingestion Status:** Succeeded ‚úÖ

- Documents: ".

Definition STATUS_FAILED : string :=
  "üìä **Ingestion Status:** Failed ‚ùå

Error: ".

Definition HELP : string :=
  "# Available Commands

**Document Management:**
- `/ingest` - Ingest documents from the data/ folder
- `/status` - Check ingestion status

**Help:**
- `/help` - Show this help message

**Tips:**
- Just type your question to get answers from ingested documents
- Sources are automatically displayed with answers
- Context snippets are available in the side panel".

Definition TOP_FILES : string :=
  "

**Top 5 Files ingested:**
".

Definition INGESTION_COMPLETED : string :=
  "‚úÖ Ingestion completed successfully!

- Documents: ".

Definition INGESTION_FAILED : string :=
  "‚ùå Ingestion failed: ".

Definition INGESTION_ERROR : string :=
  "‚ùå Ingestion error: ".

Definition newline : string := String (ascii_of_nat 10) EmptyString.

(** [sep.join(parts)]. *)
Fixpoint join (sep : string) (parts : list string) : string :=
  match parts with
  | [] => EmptyString
  | [p] => p
  | p :: rest => (p ++ sep ++ join sep rest)%string
  end.

(** [type(v).__name__]. *)
Definition type_name (v : value) : string :=
  match v with
  | VNone => "NoneType"
  | VStr _ => "str"
  | VTime _ => "float"
  | VStats _ => "dict"
  end.

(** [v == s] for a string [s]. *)
Definition equals (v : value) (s : string) : bool :=
  match v with
  | VStr t => String.eqb t s
  | _ => false
  end.

(** The truth value of [v]; the dictionary of a run has its three keys. *)
Definition truth (v : value) : bool :=
  match v with
  | VNone => false
  | VStr s => negb (String.eqb s EmptyString)
  | VTime t => negb (Qeq_bool t 0)
  | VStats _ => true
  end.

(** What [_ingest_last.get("stats", {})] gives: the value under the key,
    or the empty dictionary. *)
Inductive looked_up :=
  | Found (v : value)
  | EmptyDict.

Definition get_stats (last : gmap string value) : looked_up :=
  match last !! "stats" with
  | Some v => Found v
  | None => EmptyDict
  end.

Definition no_get (v : value) : string :=
  ("'" ++ type_name v ++ "' object has no attribute 'get'")%string.

(** [stats.get(key, 0)] as an f-string prints it, for the keys
    "documents" and "chunks". *)
Definition count (stats : looked_up) (field : Ingest.stats -> nat) : result string :=
  match stats with
  | EmptyDict => Returned "0"
  | Found (VStats s) => Returned (pretty (field s))
  | Found v => Raised (no_get v)
  end.

(** [stats.get("files", [])]. *)
Definition get_files (stats : looked_up) : result (list string) :=
  match stats with
  | EmptyDict => Returned []
  | Found (VStats s) => Returned (Ingest.files s)
  | Found v => Raised (no_get v)
  end.

Section WithFormats.

(** The two renderings left to the Python runtime: the difference of two
    clock readings under the format [.1f], and [str] of a float or of a
    dictionary. *)
Variable elapsed_text : Q -> Q -> string.
Variable repr : value -> string.

(** [str(v)], as an f-string prints [v]. *)
Definition str (v : value) : string :=
  match v with
  | VNone => "None"
  | VStr s => s
  | _ => repr v
  end.

(** [elapsed] of the [/status] branch, under the format [.1f]. *)
Definition elapsed (last : gmap string value) : result string :=
  let finished := default VNone (last !! "finished_at") in
  if truth finished then
    let started := default finished (last !! "started_at") in
    match finished, started with
    | VTime f, VTime s => Returned (elapsed_text f s)
    | _, _ =>
        Raised ("unsupported operand type(s) for -: '" ++ type_name finished
                ++ "' and '" ++ type_name started ++ "'")%string
    end
  else Returned "0.0".

(** [_ingest_last.get("error", "Unknown error")], as an f-string prints
    it. *)
Definition error_text (last : gmap string value) : string :=
  str (default (VStr "Unknown error") (last !! "error")).

(** The [/status] branch of [handle_command]: the message it sends, or
    the exception it raises. *)
Definition status_reply (last : gmap string value) : result string :=
  match last !! "status" with
  | None => Raised "'status'"
  | Some status =>
      if equals status "idle" then Returned STATUS_IDLE
      else if equals status "running" then Returned STATUS_RUNNING
      else if equals status "succeeded" then
        let stats := get_stats last in
        bind (elapsed last) (fun time =>
          bind (count stats Ingest.documents) (fun documents =>
            bind (count stats Ingest.chunks) (fun chunks =>
              Returned (STATUS_SUCCEEDED ++ documents ++ newline ++ "- Chunks: "
                        ++ chunks ++ newline ++ "- Time: " ++ time ++ "s")%string)))
      else Returned (STATUS_FAILED ++ error_text last)%string
  end.

(** The list of at most five file names in the report of a run. *)
Definition file_list (files : list string) : string :=
  match files with
  | [] => EmptyString
  | _ :: _ =>
      (TOP_FILES
       ++ join newline (map (fun f => "- `" ++ basename f ++ "`") (take 5 files)))%string
  end.

(** The [/ingest] branch of [handle_command] once the task it waits for
    has finished: the message it sends. *)
Definition ingest_report (last : gmap string value) : string :=
  let report :=
    match last !! "status" with
    | None => Raised "'status'"
    | Some status =>
        if equals status "succeeded" then
          let stats := get_stats last in
          bind (get_files stats) (fun files =>
            bind (count stats Ingest.documents) (fun documents =>
              bind (count stats Ingest.chunks) (fun chunks =>
                Returned (INGESTION_COMPLETED ++ documents ++ newline ++ "- Chunks: "
                          ++ chunks ++ file_list files)%string)))
        else Returned (INGESTION_FAILED ++ error_text last)%string
    end in
  match report with
  | Returned message => message
  | Raised e => (INGESTION_ERROR ++ e)%string
  end.

(** The [/ingest] branch at [await _ingest_task]: nothing yet while the
    task is in flight; the report when the task has finished; when the task
    was cancelled the wait raises [CancelledError], whose [str] is empty
    and which [except Exception] does not catch, and no message is sent. *)
Definition ingest_wait (t : task) (last : gmap string value)
  : option (result string) :=
  match t with
  | Created | Started => None
  | Done => Some (Returned (ingest_report last))
  | Cancelled => Some (Raised EmptyString)
  end.

(** The branches of [handle_command] other than [/ingest]: the messages
    sent; none when the branch raises. *)
Definition other_commands (cmd : string) (g : Globals) : list string :=
  if String.eqb cmd "/status" then
    match status_reply (_ingest_last g) with
    | Returned message => [message]
    | Raised _ => []
    end
  else if String.eqb cmd "/help" then [HELP]
  else [("Unknown command: `" ++ cmd ++ "`

Use `/help` to see available commands.")%string].

End WithFormats.

End Replies.


(** ** download_executive_orders_pdf_files.py *)

Module Download.

Local Open Scope list_scope.

Definition PDF_COLUMN : string := "pdf_url".
Definition OUTPUT_DIR : string := "data".

(** [s.endswith(suffix)]. *)
Definition endswith (s suffix : string) : bool :=
  (String.length suffix <=? String.length s)%nat
  && String.eqb (substring (String.length s - String.length suffix)
                           (String.length suffix) s)
                suffix.

(** [posixpath.join(a, b)]. *)
Definition join (a b : string) : string :=
  if String.prefix "/" b then b
  else if String.eqb a EmptyString || endswith a "/" then (a ++ b)%string
  else (a ++ "/" ++ b)%string.

(** What [main] does, as seen from outside: the calls of [download_pdf]
    with their URL and output path, and the lines printed; both stay when
    [main] raises. *)
Record log := mkLog {
  calls : list (string * string);
  lines : list string;
}.

Section WithWeb.

(** [urlparse(url).path], which raises on a URL it cannot parse, and the
    outcome of the call of [download_pdf] made for the row [index]. *)
Variable urlparse_path : string -> result string.
Variable download_pdf : nat -> string -> string -> result unit.

(** [get_filename_from_url]. *)
Definition get_filename_from_url (url : string) (index : nat) : result string :=
  bind (urlparse_path url) (fun path =>
    let filename := basename path in
    if negb (endswith (lower filename) ".pdf")
    then Returned ("document_" ++ pretty index ++ ".pdf")%string
    else Returned filename).

(** The [output_path] of a row. *)
Definition output_path (url : string) (index : nat) : result string :=
  bind (get_filename_from_url url index) (fun filename =>
    Returned (join OUTPUT_DIR filename)).

(** One iteration of the loop of [main], for the value of the row under
    [PDF_COLUMN]. *)
Definition row (acc : log) (index : nat) (url : option string) : log :=
  if truthy url then
    let url := default EmptyString url in
    match output_path url index with
    | Returned path =>
        let started :=
          mkLog (calls acc ++ [(url, path)])
                (lines acc ++ [("[DOWNLOADING] " ++ url)%string]) in
        match download_pdf index url path with
        | Returned _ =>
            mkLog (calls started) (lines started ++ [("[SAVED] " ++ path)%string])
        | Raised e =>
            mkLog (calls started)
                  (lines started
                   ++ [("[ERROR] Row " ++ pretty index ++ ": " ++ e)%string])
        end
    | Raised e =>
        mkLog (calls acc)
              (lines acc ++ [("[ERROR] Row " ++ pretty index ++ ": " ++ e)%string])
    end
  else
    mkLog (calls acc)
          (lines acc ++ [("[SKIP] Row " ++ pretty index ++ ": Empty URL")%string]).

(** [for index, row in enumerate(reader, start=...)]. *)
Fixpoint rows_from (index : nat) (rows : list (option string)) (acc : log) : log :=
  match rows with
  | [] => acc
  | url :: rest => rows_from (S index) rest (row acc index url)
  end.

(** [main], on what the reader of the CSV file gives.  The reader is
    lazy: [fieldnames] is the outcome of opening the file and reading its
    header, [rows] are the rows the [for] statement reads, and [ending] is
    how the reading ends after them, with the end of the file or with an
    exception of the reader, which is raised inside the [for] statement,
    outside the [try], and ends [main] there. *)
Definition main (fieldnames : result (option (list string)))
    (rows : list (option string)) (ending : result unit) : result unit * log :=
  match fieldnames with
  | Raised e => (Raised e, mkLog [] [])
  | Returned None =>
      (Raised "argument of type 'NoneType' is not iterable", mkLog [] [])
  | Returned (Some names) =>
      if bool_decide (PDF_COLUMN ∈ names)
      then (ending, rows_from 1 rows (mkLog [] []))
      else (Raised ("Column '" ++ PDF_COLUMN ++ "' not found in CSV.")%string,
            mkLog [] [])
  end.

End WithWeb.

End Download.

(** * Properties of the runtime model *)

Module PyFacts.

Lemma ascii_code_inj c d : ascii_code c = ascii_code d -> c = d.
Proof.
  unfold ascii_code. intros H.
  rewrite <- (ascii_nat_embedding c), <- (ascii_nat_embedding d).
  now rewrite H.
Qed.

(** The order of [str] is reflexive, total, transitive and antisymmetric. *)
Lemma str_leb_refl a : str_leb a a = true.
Proof.
  induction a as [| x a IH]; simpl; [reflexivity |].
  rewrite Nat.eqb_refl, IH. now rewrite orb_true_r.
Qed.


Lemma str_leb_cons x a y b :
  str_leb (String x a) (String y b) = true <->
  (ascii_code x < ascii_code y)%nat
  \/ (ascii_code x = ascii_code y /\ str_leb a b = true).
Proof.
  simpl. rewrite orb_true_iff, andb_true_iff, Nat.ltb_lt, Nat.eqb_eq. reflexivity.
Qed.


Lemma str_leb_antisym a b :
  str_leb a b = true -> str_leb b a = true -> a = b.
Proof.
  revert b. induction a as [| x a IH]; intros [| y b]; try (simpl; congruence).
  rewrite !str_leb_cons.
  intros [Hxy | [Hxy Hab]] [Hyx | [Hyx Hba]]; try lia.
  f_equal; [now apply ascii_code_inj | now apply IH].
Qed.

End PyFacts.

(** * Properties of the loader *)

Module LoadingFacts.

Import Loading.
Local Open Scope list_scope.



(** The paths [_load_docs] hands to a loader that returns. *)
Definition loads (isdir : string -> bool)
    (load : loader -> string -> result (list Document)) (path : string)
  : option (list Document) :=
  if isdir path || startswith_dot (basename path) then None
  else
    match select_loader (lower (snd (splitext path))) with
    | Some L =>
        match load L path with
        | Returned ds => Some ds
        | Raised _ => None
        end
    | None => None
    end.






Section Folding.

Variable isdir : string -> bool.
Variable load : loader -> string -> result (list Document).

(** One iteration, in terms of [loads]. *)
Lemma load_path_docs acc path :
      docs (load_path isdir load acc path)
      = docs acc ++ default [] (loads isdir load path).
Proof.
      unfold load_path, loads.
      destruct (isdir path || startswith_dot (basename path)); simpl;
        [now rewrite app_nil_r |].
      destruct (select_loader _); simpl; [| now rewrite app_nil_r].
      destruct (load _ _); simpl; [reflexivity | now rewrite app_nil_r].
Qed.

Lemma load_path_file_paths acc path :
      file_paths (load_path isdir load acc path)
      = file_paths acc
          ++ (if bool_decide (is_Some (loads isdir load path)) then [path] else []).
Proof.
      unfold load_path, loads.
      destruct (isdir path || startswith_dot (basename path)); simpl;
        [now rewrite app_nil_r |].
      destruct (select_loader _); simpl; [| now rewrite app_nil_r].
      destruct (load _ _); simpl; [reflexivity | now rewrite app_nil_r].
Qed.

Lemma load_path_printed_mono acc path line :
      line ∈ printed acc -> line ∈ printed (load_path isdir load acc path).
Proof.
      unfold load_path. intros Hin.
      destruct (isdir path || startswith_dot (basename path)); [exact Hin |].
      destruct (select_loader _); [| exact Hin].
      destruct (load _ _); simpl; [exact Hin |].
      apply elem_of_app. now left.
Qed.

Lemma fold_docs paths acc :
      docs (fold_left (load_path isdir load) paths acc)
      = docs acc ++ concat (map (fun p => default [] (loads isdir load p)) paths).
Proof.
      revert acc. induction paths as [| p paths IH]; intros acc; simpl.
      - now rewrite app_nil_r.
      - rewrite IH, load_path_docs. now rewrite <- app_assoc.
Qed.

Lemma fold_file_paths paths acc :
      file_paths (fold_left (load_path isdir load) paths acc)
      = file_paths acc
          ++ List.filter (fun p => bool_decide (is_Some (loads isdir load p))) paths.
Proof.
      revert acc. induction paths as [| p paths IH]; intros acc; simpl.
      - now rewrite app_nil_r.
      - rewrite IH, load_path_file_paths.
        destruct (loads isdir load p); simpl.
        + now rewrite <- app_assoc.
        + now rewrite app_nil_r.
Qed.

Lemma fold_printed_mono paths acc line :
      line ∈ printed acc ->
      line ∈ printed (fold_left (load_path isdir load) paths acc).
Proof.
      revert acc. induction paths as [| p paths IH]; intros acc Hin; simpl.
      - exact Hin.
      - apply IH. now apply load_path_printed_mono.
Qed.

(** What [_load_docs] returns: the documents of the files whose loader
    returned, in order, and the paths of those files. *)
Lemma _load_docs_docs paths :
      docs (_load_docs isdir load paths)
      = concat (map (fun p => default [] (loads isdir load p)) paths).
Proof. unfold _load_docs. now rewrite fold_docs. Qed.

Lemma _load_docs_file_paths paths :
      file_paths (_load_docs isdir load paths)
      = List.filter (fun p => bool_decide (is_Some (loads isdir load p))) paths.
Proof. unfold _load_docs. now rewrite fold_file_paths. Qed.

End Folding.

(** C6. When the loader chosen for a file raises, [_load_docs] still
    returns, with the results of all the other files: every other file of
    the listing that its loader reads is among the file paths, with all
    its documents among the documents; the documents and the file paths
    are, in the order of the listing, those of the other files that are
    read, the same as for the listing without the failing file; the path
    of the failing file is not among the file paths, and the failure is
    printed. *)
Theorem load_docs_skips_failing_file
      (isdir : string -> bool) (load : loader -> string -> result (list Document))
      (before after : list string) (path : string) (L : loader) (e : string) :
    isdir path = false ->
    startswith_dot (basename path) = false ->
    select_loader (lower (snd (splitext path))) = Some L ->
    load L path = Raised e ->
    let r := _load_docs isdir load (before ++ path :: after) in
    let r' := _load_docs isdir load (before ++ after) in
    docs r = docs r'
    /\ file_paths r = file_paths r'
    /\ (path ∉ file_paths r)
    /\ (("INGEST ERROR: failed to load " ++ path)%string ∈ printed r)
    /\ (forall other L' ds,
          other ∈ before ++ after ->
          isdir other = false ->
          startswith_dot (basename other) = false ->
          select_loader (lower (snd (splitext other))) = Some L' ->
          load L' other = Returned ds ->
          other ∈ file_paths r /\ forall d, d ∈ ds -> d ∈ docs r)
    /\ docs r
       = concat (map (fun other => default [] (loads isdir load other))
                     (before ++ after))
    /\ file_paths r
       = List.filter (fun other => bool_decide (is_Some (loads isdir load other)))
                     (before ++ after).
Proof.
    intros Hdir Hdot Hsel Hload r r'.
    assert (Hloads : loads isdir load path = None).
    { unfold loads. now rewrite Hdir, Hdot, Hsel, Hload. }
    assert (Hdocs : docs r
                    = concat (map (fun other => default [] (loads isdir load other))
                                  (before ++ after))).
    { subst r. rewrite _load_docs_docs, !map_app, !concat_app. simpl.
      now rewrite Hloads. }
    assert (Hpaths : file_paths r
                     = List.filter
                         (fun other => bool_decide (is_Some (loads isdir load other)))
                         (before ++ after)).
    { subst r. rewrite _load_docs_file_paths, !List.filter_app. simpl.
      now rewrite Hloads. }
    split; [| split; [| split; [| split; [| split; [| split]]]]].
    - rewrite Hdocs. subst r'. now rewrite _load_docs_docs.
    - rewrite Hpaths. subst r'. now rewrite _load_docs_file_paths.
    - rewrite Hpaths. intros Hin. apply list_elem_of_In, List.filter_In in Hin.
      destruct Hin as [_ Hin]. rewrite Hloads in Hin. discriminate.
    - subst r. unfold _load_docs. rewrite fold_left_app. simpl.
      apply fold_printed_mono.
      unfold load_path at 1. rewrite Hdir, Hdot. simpl. rewrite Hsel, Hload. simpl.
      apply elem_of_app. right. apply list_elem_of_singleton. reflexivity.
    - intros other L' ds Hother Hdir' Hdot' Hsel' Hload'.
      assert (Hread : loads isdir load other = Some ds).
      { unfold loads. now rewrite Hdir', Hdot', Hsel', Hload'. }
      split.
      + rewrite Hpaths. apply list_elem_of_In, List.filter_In.
        split; [now apply list_elem_of_In |]. rewrite Hread. reflexivity.
      + intros d Hd. rewrite Hdocs. apply list_elem_of_In, in_concat.
        exists ds. split; [| now apply list_elem_of_In].
        apply in_map_iff. exists other. rewrite Hread.
        split; [reflexivity | now apply list_elem_of_In].
    - exact Hdocs.
    - exact Hpaths.
Qed.


(** A directory listing with a PDF file whose loader raises. *)
Definition sample_load (L : loader) (path : string) : result (list Document) :=
  if String.eqb path "data/orders/eo-14110.pdf" then Raised "cannot open broken document"
  else Returned [mkDocument ("text of " ++ path)%string (<["source" := path]> ∅)].

Lemma load_docs_skips_failing_file_witness :
    let r := _load_docs (fun _ => false) sample_load
               (["data/readme.md"] ++ "data/orders/eo-14110.pdf" :: ["data/notes.txt"]) in
    let r' := _load_docs (fun _ => false) sample_load
                (["data/readme.md"] ++ ["data/notes.txt"]) in
    docs r = docs r'
    /\ file_paths r = file_paths r'
    /\ ("data/orders/eo-14110.pdf" ∉ file_paths r)
    /\ ("INGEST ERROR: failed to load data/orders/eo-14110.pdf" ∈ printed r)
    /\ (forall other L' ds,
          other ∈ ["data/readme.md"] ++ ["data/notes.txt"] ->
          false = false ->
          startswith_dot (basename other) = false ->
          select_loader (lower (snd (splitext other))) = Some L' ->
          sample_load L' other = Returned ds ->
          other ∈ file_paths r /\ forall d, d ∈ ds -> d ∈ docs r)
    /\ docs r
       = concat (map (fun other => default [] (loads (fun _ => false) sample_load other))
                     (["data/readme.md"] ++ ["data/notes.txt"]))
    /\ file_paths r
       = List.filter
           (fun other => bool_decide (is_Some (loads (fun _ => false) sample_load other)))
           (["data/readme.md"] ++ ["data/notes.txt"]).
Proof.
    apply (load_docs_skips_failing_file (fun _ => false) sample_load
             ["data/readme.md"] ["data/notes.txt"] "data/orders/eo-14110.pdf"
             PyMuPDFLoader "cannot open broken document");
      reflexivity.
Defined.

(** The listing of the scenario: the two files that are read, in the
    order of the listing, and the line on the third. *)
Example load_docs_around_a_failure :
    _load_docs (fun _ => false) sample_load
      ["data/readme.md"; "data/orders/eo-14110.pdf"; "data/notes.txt"]
    = mkLoaded
        [mkDocument "text of data/readme.md" (<["source" := "data/readme.md"]> ∅);
         mkDocument "text of data/notes.txt" (<["source" := "data/notes.txt"]> ∅)]
        ["data/readme.md"; "data/notes.txt"]
        ["INGEST ERROR: failed to load data/orders/eo-14110.pdf"].
Proof. vm_compute. reflexivity. Qed.


End LoadingFacts.


(** * Properties of the search index *)

Module IndexFacts.

Import Constants Ingest.
Local Open Scope list_scope.

(** The index [_create_index] builds. *)
Definition the_index : HNSWIndex :=
  mkHNSWIndex INDEX_NAME COSINE_DISTANCE HNSW_EF_CONSTRUCTION HNSW_M.

Lemma _create_index_present (w : World) :
  is_Some (indexes (store w) !! INDEX_NAME) ->
  _create_index w
  = (Returned tt,
     mkWorld (store w)
             (stdout w ++ ["Index 'hnsw_index' already exists, skipping creation."])).
Proof.
  intros Hsome. unfold _create_index, seq, ais_valid_index.
  rewrite bool_decide_eq_true_2 by exact Hsome. reflexivity.
Qed.

Lemma _create_index_absent (w : World) :
  indexes (store w) !! INDEX_NAME = None ->
  _create_index w
  = (Returned tt,
     mkWorld (mkStore (entries (store w))
                      (<[INDEX_NAME := the_index]> (indexes (store w)))
                      (builds (store w) ++ [the_index]))
             (stdout w ++ ["Index created successfully."])).
Proof.
  intros Hnone. unfold _create_index, seq, ais_valid_index.
  rewrite bool_decide_eq_false_2 by (rewrite Hnone; apply is_Some_None).
  unfold aapply_vector_index. simpl. rewrite Hnone. reflexivity.
Qed.

(** C3. Two calls of [_create_index] in a row both return; the second one
    leaves the table as the first one left it, so that the two calls
    together build at most one index; and a call made when an index of
    that name exists changes nothing in the table. *)
Theorem create_index_idempotent (w : World) :
  exists w1 w2,
    _create_index w = (Returned tt, w1)
    /\ _create_index w1 = (Returned tt, w2)
    /\ store w2 = store w1
    /\ (length (builds (store w2)) <= length (builds (store w)) + 1)%nat
    /\ (is_Some (indexes (store w) !! INDEX_NAME) -> store w1 = store w).
Proof.
  destruct (indexes (store w) !! INDEX_NAME) as [idx |] eqn:Hidx.
  - assert (Hsome : is_Some (indexes (store w) !! INDEX_NAME)) by (rewrite Hidx; eauto).
    rewrite (_create_index_present w Hsome).
    eexists _, _. split; [reflexivity |].
    rewrite _create_index_present by exact Hsome.
    simpl. split; [reflexivity |]. split; [reflexivity |].
    split; [simpl; lia | reflexivity].
  - rewrite (_create_index_absent w Hidx).
    eexists _, _. split; [reflexivity |].
    rewrite _create_index_present
      by (simpl; rewrite lookup_insert_eq; eauto).
    simpl. split; [reflexivity |]. split; [reflexivity |]. split.
    + simpl. rewrite length_app. simpl. lia.
    + intros [x Hx]. discriminate.
Qed.

(** An empty table, and the two calls on it: one build. *)
Definition empty_world : World := mkWorld (mkStore [] ∅ []) [].

Example create_index_twice_on_empty :
  let '(_, w1) := _create_index empty_world in
  let '(_, w2) := _create_index w1 in
  builds (store w2) = [the_index]
  /\ stdout w2 = ["Index created successfully.";
                  "Index 'hnsw_index' already exists, skipping creation."].
Proof. vm_compute. split; reflexivity. Qed.

End IndexFacts.


(** * Properties of the chunker *)

Module SplitterFacts.

Import TextSplitter.
Local Open Scope list_scope.
Local Open Scope Z_scope.

(** The sum of the lengths of the pieces. *)
Fixpoint total_len (pieces : list text) : Z :=
  match pieces with
  | [] => 0
  | p :: rest => len p + total_len rest
  end.

Lemma len_nonneg t : 0 <= len t.
Proof. unfold len. lia. Qed.

Lemma len_app a b : len (a ++ b) = len a + len b.
Proof. unfold len. rewrite length_app. lia. Qed.

Lemma total_len_nonneg pieces : 0 <= total_len pieces.
Proof.
  induction pieces as [| p rest IH]; simpl; [lia |].
  pose proof (len_nonneg p). lia.
Qed.

Lemma total_len_app a b : total_len (a ++ b) = total_len a + total_len b.
Proof. induction a as [| p a IH]; simpl; [reflexivity | rewrite IH; lia]. Qed.

Lemma lstrip_length t : (length (lstrip t) <= length t)%nat.
Proof.
  induction t as [| c t IH]; simpl; [lia |].
  destruct (isspace c); simpl; lia.
Qed.

Lemma strip_length t : len (strip t) <= len t.
Proof.
  unfold strip, len. rewrite length_rev.
  pose proof (lstrip_length (rev (lstrip t))) as H1.
  rewrite length_rev in H1.
  pose proof (lstrip_length t). lia.
Qed.

Lemma join_empty_len docs : len (join [] docs) = total_len docs.
Proof.
  induction docs as [| d rest IH]; [reflexivity |].
  destruct rest as [| d' rest'].
  - simpl. lia.
  - change (join [] (d :: d' :: rest')) with (d ++ [] ++ join [] (d' :: rest')).
    rewrite !len_app, IH. simpl. unfold len at 2. simpl. lia.
Qed.

Lemma sep_cost_empty current n : sep_cost [] current n = 0.
Proof. unfold sep_cost. destruct (n <? length current)%nat; reflexivity. Qed.

Section Bounds.

Variables chunk_size chunk_overlap : Z.
Hypothesis chunk_size_gt_1 : 1 < chunk_size.
Hypothesis chunk_overlap_nonneg : 0 <= chunk_overlap.

Definition bounded (t : text) : Prop := len t <= chunk_size.
Definition small (t : text) : Prop := len t < chunk_size.

Lemma _join_docs_bounded current doc :
  _join_docs current [] = Some doc -> len doc <= total_len current.
Proof.
  unfold _join_docs. destruct (text_eqb _ _); [discriminate |].
  intros [= <-]. rewrite <- join_empty_len. apply strip_length.
Qed.

Lemma emit_bounded docs current :
  Forall bounded docs -> total_len current <= chunk_size ->
  Forall bounded (emit docs current []).
Proof.
  intros Hdocs Hcur. unfold emit.
  destruct (_join_docs current []) as [doc |] eqn:Hjoin; [| exact Hdocs].
  apply Forall_app. split; [exact Hdocs |].
  constructor; [| constructor].
  unfold bounded. pose proof (_join_docs_bounded _ _ Hjoin). lia.
Qed.

(** The loop that drops pieces from the front ends without an error, the
    total it leaves is the length of the pieces left, and the next piece
    fits after them. *)
Lemma drop_front_returns _len current :
  0 <= _len -> _len < chunk_size ->
  exists current',
    drop_front chunk_size chunk_overlap [] _len current (total_len current)
    = Returned (current', total_len current')
    /\ total_len current' + _len <= chunk_size.
Proof.
  intros Hlen0 Hlen.
  induction current as [| d0 rest IH].
  - exists []. simpl. rewrite sep_cost_empty.
    replace (chunk_overlap <? 0) with false by (symmetry; apply Z.ltb_ge; lia).
    replace (0 <? 0) with false by reflexivity.
    rewrite andb_false_r. simpl. split; [reflexivity | lia].
  - cbn [drop_front]. rewrite !sep_cost_empty.
    destruct ((chunk_overlap <? total_len (d0 :: rest))
              || ((chunk_size <? total_len (d0 :: rest) + _len + 0)
                  && (0 <? total_len (d0 :: rest)))) eqn:Hagain.
    + replace (total_len (d0 :: rest) - (len d0 + 0)) with (total_len rest)
        by (simpl; lia).
      exact IH.
    + exists (d0 :: rest). split; [reflexivity |].
      apply orb_false_iff in Hagain. destruct Hagain as [_ Hagain].
      apply andb_false_iff in Hagain.
      pose proof (total_len_nonneg (d0 :: rest)).
      destruct Hagain as [H1 | H1]; [apply Z.ltb_ge in H1 | apply Z.ltb_ge in H1]; lia.
Qed.

(** What [_merge_splits] keeps true from one piece to the next. *)
Definition merging_ok (st : merging) : Prop :=
  total st = total_len (current_doc st)
  /\ total st <= chunk_size
  /\ Forall bounded (m_docs st).

Lemma append_piece_ok docs current d :
  Forall bounded docs ->
  total_len current + len d <= chunk_size ->
  merging_ok (append_piece [] docs current (total_len current) d).
Proof.
  intros Hdocs Hfit. unfold merging_ok, append_piece. simpl.
  rewrite sep_cost_empty, total_len_app. simpl. repeat split; [lia.. | exact Hdocs].
Qed.

Lemma merge_step_ok st d :
  merging_ok st -> small d ->
  exists st', merge_step chunk_size chunk_overlap [] st d = Returned st'
              /\ merging_ok st'.
Proof.
  intros (Htot & Hle & Hdocs) Hd. unfold small in Hd.
  pose proof (len_nonneg d) as Hd0.
  unfold merge_step. rewrite sep_cost_empty, Htot.
  destruct (chunk_size <? total_len (current_doc st) + len d + 0) eqn:Hover.
  - destruct (current_doc st) as [| c0 cs] eqn:Hcur.
    + eexists. split; [reflexivity |]. apply append_piece_ok; [exact Hdocs |].
      simpl. lia.
    + destruct (drop_front_returns (len d) (c0 :: cs) Hd0 Hd) as (current' & Hdrop & Hfit).
      rewrite Hdrop. simpl. eexists. split; [reflexivity |].
      apply append_piece_ok; [| exact Hfit].
      apply emit_bounded; [exact Hdocs |]. rewrite <- Htot. exact Hle.
  - apply Z.ltb_ge in Hover. eexists. split; [reflexivity |].
    apply append_piece_ok; [exact Hdocs | lia].
Qed.

Lemma merge_loop_ok splits st :
  merging_ok st -> Forall small splits ->
  exists st', merge_loop chunk_size chunk_overlap [] st splits = Returned st'
              /\ merging_ok st'.
Proof.
  revert st. induction splits as [| d rest IH]; intros st Hst Hsmall.
  - exists st. split; [reflexivity | exact Hst].
  - inversion Hsmall as [| ? ? Hd Hrest]; subst.
    destruct (merge_step_ok st d Hst Hd) as (st1 & Hstep & Hst1).
    simpl. rewrite Hstep. simpl. apply IH; assumption.
Qed.

(** [_merge_splits] on pieces shorter than the chunk size returns chunks
    within the chunk size. *)
Lemma _merge_splits_bounded splits :
  Forall small splits ->
  exists docs, _merge_splits chunk_size chunk_overlap splits [] = Returned docs
               /\ Forall bounded docs.
Proof.
  intros Hsmall. unfold _merge_splits.
  destruct (merge_loop_ok splits (mkMerging [] [] 0)) as (st & Hloop & Htot & Hle & Hdocs);
    [repeat split; [simpl; lia | constructor] | exact Hsmall |].
  rewrite Hloop. simpl. eexists. split; [reflexivity |].
  apply emit_bounded; [exact Hdocs | rewrite <- Htot; exact Hle].
Qed.

(** What [_split_text] keeps true from one split to the next. *)
Definition splitting_ok (st : splitting) : Prop :=
  Forall bounded (final_chunks st) /\ Forall small (_good_splits st).

Lemma flush_bounded st :
  splitting_ok st ->
  exists final, flush chunk_size chunk_overlap st = Returned final
                /\ Forall bounded final.
Proof.
  intros [Hfinal Hgood]. unfold flush.
  destruct (_good_splits st) as [| g gs] eqn:Hg.
  - eexists. split; [reflexivity | exact Hfinal].
  - destruct (_merge_splits_bounded (g :: gs) Hgood) as (merged & Hm & Hb).
    rewrite Hm. simpl. eexists. split; [reflexivity |].
    apply Forall_app. split; assumption.
Qed.

(** The recursive call returns chunks within the chunk size. *)
Definition recur_ok (recur : text -> result (list text)) : Prop :=
  forall s, exists chunks, recur s = Returned chunks /\ Forall bounded chunks.

Lemma split_step_ok new_separators recur st s :
  splitting_ok st ->
  small s \/ (new_separators <> [] /\ recur_ok recur) ->
  exists st', split_step chunk_size chunk_overlap new_separators recur st s = Returned st'
              /\ splitting_ok st'.
Proof.
  intros Hst Hcase. unfold split_step.
  destruct (len s <? chunk_size) eqn:Hs.
  - eexists. split; [reflexivity |]. destruct Hst as [Hfinal Hgood].
    split; simpl; [exact Hfinal |].
    apply Forall_app. split; [exact Hgood |].
    constructor; [| constructor]. unfold small. apply Z.ltb_lt. exact Hs.
  - apply Z.ltb_ge in Hs.
    destruct Hcase as [Hsmall | [Hne Hrecur]]; [unfold small in Hsmall; lia |].
    destruct (flush_bounded st Hst) as (final & Hflush & Hfinal).
    rewrite Hflush. simpl.
    destruct new_separators as [| n ns]; [congruence |].
    destruct (Hrecur s) as (other & Hother & Hbounded).
    rewrite Hother. simpl. eexists. split; [reflexivity |].
    split; simpl; [| constructor].
    apply Forall_app. split; assumption.
Qed.

Lemma split_loop_ok new_separators recur splits st :
  splitting_ok st ->
  Forall small splits \/ (new_separators <> [] /\ recur_ok recur) ->
  exists st', split_loop chunk_size chunk_overlap new_separators recur st splits
              = Returned st'
              /\ splitting_ok st'.
Proof.
  revert st. induction splits as [| s rest IH]; intros st Hst Hcase.
  - exists st. split; [reflexivity | exact Hst].
  - assert (Hhead : small s \/ (new_separators <> [] /\ recur_ok recur)).
    { destruct Hcase as [Hall | Hr]; [left; now inversion Hall | right; exact Hr]. }
    assert (Htail : Forall small rest \/ (new_separators <> [] /\ recur_ok recur)).
    { destruct Hcase as [Hall | Hr]; [left; now inversion Hall | right; exact Hr]. }
    destruct (split_step_ok new_separators recur st s Hst Hhead) as (st1 & Hstep & Hst1).
    simpl. rewrite Hstep. simpl. apply IH; assumption.
Qed.

Lemma split_on_ok separator new_separators recur t :
  Forall small (_split_text_with_regex t separator)
  \/ (new_separators <> [] /\ recur_ok recur) ->
  exists chunks,
    split_on chunk_size chunk_overlap separator new_separators recur t = Returned chunks
    /\ Forall bounded chunks.
Proof.
  intros Hcase. unfold split_on.
  destruct (split_loop_ok new_separators recur (_split_text_with_regex t separator)
              (mkSplitting [] [])) as (st & Hloop & Hst);
    [split; constructor | exact Hcase |].
  rewrite Hloop. simpl. apply flush_bounded. exact Hst.
Qed.

(** Splitting on the empty separator gives single characters. *)
Lemma characters_small t : Forall small (_split_text_with_regex t []).
Proof.
  unfold _split_text_with_regex. apply Forall_forall. intros s Hin.
  apply list_elem_of_filter in Hin.
  destruct Hin as [_ Hin].
  apply list_elem_of_fmap in Hin. destruct Hin as (c & -> & _).
  unfold small, len. simpl. lia.
Qed.

(** With the empty separator last in the list, [_split_text] returns, and
    every chunk is within the chunk size. *)
Lemma _split_text_bounded separators t :
  last separators = Some [] ->
  exists chunks,
    _split_text chunk_size chunk_overlap separators t = Returned chunks
    /\ Forall bounded chunks.
Proof.
  revert t. induction separators as [| _s rest IH]; intros t Hlast; [discriminate |].
  cbn [_split_text]. unfold text_eqb. case_bool_decide as Hs.
  - apply split_on_ok. left. apply characters_small.
  - assert (Hrest : rest <> [] /\ last rest = Some []).
    { destruct rest as [| r rest']; [simpl in Hlast; congruence |].
      split; [discriminate | exact Hlast]. }
    destruct Hrest as [Hne Hlast'].
    destruct (contains _s t).
    + apply split_on_ok. right. split; [exact Hne |].
      intros s. apply IH. exact Hlast'.
    + destruct rest as [| r rest']; [congruence |]. apply IH. exact Hlast'.
Qed.

Lemma split_text_bounded t :
  exists chunks,
    split_text chunk_size chunk_overlap t = Returned chunks /\ Forall bounded chunks.
Proof. apply _split_text_bounded. reflexivity. Qed.

Lemma string_of_list_ascii_length l :
  String.length (string_of_list_ascii l) = length l.
Proof. induction l as [| c l IH]; simpl; [reflexivity | now rewrite IH]. Qed.

(** A chunk within the chunk size. *)
Definition chunk_bounded (c : Document) : Prop :=
  Z.of_nat (String.length (page_content c)) <= chunk_size.

Lemma chunks_of_bounded d :
  exists chunks,
    chunks_of chunk_size chunk_overlap d = Returned chunks
    /\ Forall chunk_bounded chunks.
Proof.
  unfold chunks_of.
  destruct (split_text_bounded (list_ascii_of_string (page_content d)))
    as (pieces & Hsplit & Hbounded).
  rewrite Hsplit. simpl. eexists. split; [reflexivity |].
  apply Forall_fmap. eapply Forall_impl; [exact Hbounded |].
  intros c Hc. unfold chunk_bounded. simpl.
  rewrite string_of_list_ascii_length. exact Hc.
Qed.

Lemma split_documents_bounded docs :
  exists chunks,
    split_documents chunk_size chunk_overlap docs = Returned chunks
    /\ Forall chunk_bounded chunks.
Proof.
  induction docs as [| d rest (more & Hmore & Hb)]; simpl.
  - eexists. split; [reflexivity | constructor].
  - destruct (chunks_of_bounded d) as (cs & Hcs & Hcb).
    rewrite Hcs, Hmore. simpl. eexists. split; [reflexivity |].
    apply Forall_app. split; assumption.
Qed.

End Bounds.

End SplitterFacts.


Module ChunkFacts.

Import Constants Ingest.
Local Open Scope list_scope.

(** [_chunk] returns what the splitter returns. *)
Lemma _chunk_outcome (docs : list Document) (w : World) :
  fst (_chunk docs w)
  = TextSplitter.split_documents CHUNK_SIZE CHUNK_OVERLAP docs.
Proof.
  unfold _chunk, seq, print. simpl.
  destruct (TextSplitter.split_documents CHUNK_SIZE CHUNK_OVERLAP docs); reflexivity.
Qed.

(** The length of the longest text that both ends [a] and starts [b],
    among those of length at most [k]. *)
Fixpoint overlap_upto (a b : string) (k : nat) : nat :=
  match k with
  | O => O
  | S k' =>
      if String.eqb (substring (String.length a - k) k a) (substring 0 k b)
      then k else overlap_upto a b k'
  end.

(** The overlap of two consecutive chunks. *)
Definition overlap (a b : string) : nat :=
  overlap_upto a b (Nat.min (String.length a) (String.length b)).

(** No chunk is longer than the chunk size. *)
Definition chunks_within_size : Prop :=
  forall docs w chunks w',
    _chunk docs w = (Returned chunks, w') ->
    Forall (fun c => (Z.of_nat (String.length (page_content c)) <= CHUNK_SIZE)%Z) chunks.

(** Two consecutive chunks of one document, neither the first nor the last
    one, overlap by the configured overlap at least. *)
Definition inner_chunks_overlap : Prop :=
  forall d w chunks w' i c1 c2,
    _chunk [d] w = (Returned chunks, w') ->
    (0 < i)%nat -> (S (S i) < length chunks)%nat ->
    chunks !! i = Some c1 -> chunks !! (S i) = Some c2 ->
    (CHUNK_OVERLAP <= Z.of_nat (overlap (page_content c1) (page_content c2)))%Z.

(** The chunker property as the specification states it. *)
Definition chunker_contract : Prop := chunks_within_size /\ inner_chunks_overlap.

(** Four words of 300 letters each, separated by single spaces. *)
Definition word (c : ascii) : list ascii := repeat c 300.

Definition four_words : Document :=
  mkDocument
    (string_of_list_ascii
       (word "a" ++ " "%char :: word "b" ++ " "%char :: word "c" ++ " "%char :: word "d"))
    (<["source" := "data/words.txt"]> ∅).

(** Every word becomes a chunk of its own, and no two of them share any
    text. *)
Lemma four_words_chunks :
  TextSplitter.split_documents CHUNK_SIZE CHUNK_OVERLAP [four_words]
  = Returned
      (map (fun c => mkDocument (string_of_list_ascii (word c)) (metadata four_words))
           ["a"%char; "b"%char; "c"%char; "d"%char]).
Proof. vm_compute. reflexivity. Qed.

(** C2, as stated, fails: the second and third chunk of [four_words] are
    neither first nor last and share no text. *)
Lemma chunker_contract_fails : ~ chunker_contract.
Proof.
  intros [_ Hoverlap].
  pose (w := mkWorld (mkStore [] ∅ []) []).
  pose proof (_chunk_outcome [four_words] w) as Hout.
  rewrite four_words_chunks in Hout.
  destruct (_chunk [four_words] w) as [r w'] eqn:Hchunk. simpl in Hout. subst r.
  specialize (Hoverlap four_words w _ w' 1%nat
                (mkDocument (string_of_list_ascii (word "b")) (metadata four_words))
                (mkDocument (string_of_list_ascii (word "c")) (metadata four_words))
                Hchunk).
  assert (Hfalse : (CHUNK_OVERLAP <= 0)%Z).
  { apply Hoverlap; [lia | simpl; lia | reflexivity | reflexivity ]. }
  unfold CHUNK_OVERLAP in Hfalse. lia.
Qed.

(** C2, amended. [_chunk] returns for every list of documents, and no
    chunk it returns is longer than [CHUNK_SIZE] characters. *)
Theorem chunks_within_chunk_size (docs : list Document) (w : World) :
  exists chunks w',
    _chunk docs w = (Returned chunks, w')
    /\ Forall (fun c => (Z.of_nat (String.length (page_content c)) <= CHUNK_SIZE)%Z)
              chunks.
Proof.
  destruct (SplitterFacts.split_documents_bounded CHUNK_SIZE CHUNK_OVERLAP
              ltac:(unfold CHUNK_SIZE; lia) ltac:(unfold CHUNK_OVERLAP; lia) docs)
    as (chunks & Hsplit & Hbounded).
  exists chunks. unfold _chunk, seq, print. simpl. rewrite Hsplit.
  eexists. split; [reflexivity | exact Hbounded].
Qed.

(** The scenario of a text of 1200 characters without any separator (fifty
    times [a], fifty times [b], and so on): three
    chunks of 500, 500 and 400 characters, each sharing 100 characters with
    the next. *)
Definition alphabet_text (n : nat) : list ascii :=
  map (fun i => ascii_of_nat (97 + i / 50)) (List.seq 0 n).

Example unbroken_text_chunks :
  match TextSplitter.split_documents CHUNK_SIZE CHUNK_OVERLAP
          [mkDocument (string_of_list_ascii (alphabet_text 1200)) ∅] with
  | Returned [c1; c2; c3] =>
      map (fun c => String.length (page_content c)) [c1; c2; c3] = [500; 500; 400]%nat
      /\ overlap (page_content c1) (page_content c2) = 100%nat
      /\ overlap (page_content c2) (page_content c3) = 100%nat
  | _ => False
  end.
Proof. vm_compute. split; [reflexivity | split; reflexivity]. Qed.

End ChunkFacts.


(** * Properties of the source list *)

Module SourceFacts.

Import Rag.
Local Open Scope list_scope.



Lemma source_le_antisym (a b : option string) :
  source_le a b -> source_le b a -> a = b.
Proof.
  destruct a as [x |], b as [y |]; simpl; try tauto.
  intros Hxy Hyx. f_equal. now apply PyFacts.str_leb_antisym.
Qed.




(** [sorted] returns when every member is a string. *)
Lemma sorted_returns (keys : gset (option string)) :
  (forall s, s ∈ keys -> is_Some s) -> exists l, sorted keys = Returned l.
Proof.
  intros Hall. unfold sorted.
  replace (forallb _ (elements keys)) with true; [rewrite orb_true_r; eauto |].
  symmetry. apply forallb_forall. intros s Hs.
  apply bool_decide_eq_true_2, Hall, elem_of_elements, list_elem_of_In, Hs.
Qed.

(** [sorted] raises exactly on a set that holds [None] and a string. *)
Lemma sorted_raises (keys : gset (option string)) :
  (exists e, sorted keys = Raised e) <-> None ∈ keys /\ exists s, Some s ∈ keys.
Proof.
  unfold sorted.
  pose proof (NoDup_elements keys) as Hnodup.
  assert (Hmem : forall k, k ∈ elements keys <-> k ∈ keys) by (intros; apply elem_of_elements).
  destruct (_ || _) eqn:Hcase.
  - split; [intros [e He]; discriminate |].
    intros (Hnone & s & Hsome). exfalso.
    apply Hmem in Hnone, Hsome. apply orb_true_iff in Hcase.
    destruct Hcase as [Hshort | Hall].
    + apply Nat.leb_le in Hshort.
      destruct (elements keys) as [| a [| b l]]; cbn in Hshort; [inversion Hnone | | lia].
      apply list_elem_of_singleton in Hnone, Hsome. congruence.
    + rewrite forallb_forall in Hall. apply list_elem_of_In, Hall in Hnone.
      apply bool_decide_eq_true in Hnone. now destruct Hnone.
  - split; [intros _ | eauto].
    apply orb_false_iff in Hcase. destruct Hcase as [Hlong Hnot].
    apply Nat.leb_gt in Hlong.
    assert (Hnone : None ∈ elements keys).
    { destruct (forallb (fun k => bool_decide (is_Some k)) (elements keys)) eqn:Hall;
        [discriminate |].
      clear -Hall. induction (elements keys) as [| a l IH]; [discriminate |].
      cbn in Hall. apply andb_false_iff in Hall. destruct Hall as [Ha | Hl].
      - apply bool_decide_eq_false in Ha. destruct a as [s |].
        + exfalso. apply Ha. eauto.
        + apply list_elem_of_here.
      - apply list_elem_of_further, IH, Hl. }
    split; [now apply Hmem |].
    destruct (elements keys) as [| a [| b l]]; cbn in Hlong; [lia.. |].
    destruct a as [s |]; [exists s; apply Hmem, list_elem_of_here |].
    destruct b as [s |]; [exists s; apply Hmem, list_elem_of_further, list_elem_of_here |].
    exfalso. inversion Hnodup as [| ? ? Hnotin _]; subst. apply Hnotin, list_elem_of_here.
Qed.

(** A context in which one document has no source and another has one:
    the comparison of [None] with a string raises, with one operand order
    or the other. *)
Example sorted_mixed_raises :
  exists e,
    sorted (list_to_set [None; Some "data/about.txt"]) = Raised e
    /\ (e = "'<' not supported between instances of 'str' and 'NoneType'"
        \/ e = "'<' not supported between instances of 'NoneType' and 'str'").
Proof. eexists. split; [vm_compute; reflexivity | auto]. Qed.

(** A set with [None] alone is returned as it is. *)
Example sorted_none_alone : sorted (list_to_set [None; None]) = Returned [None].
Proof. vm_compute. reflexivity. Qed.

Section WithServices.

Variable get_vector_store : result unit.
Variable similarity_search : string -> result (list Document).
Variable multi_query_from_llm : result unit.
Variable generate_queries : string -> result (list string).
Variable COHERE_API_KEY : option string.
Variable CohereRerank : result unit.
Variable compress_documents : list Document -> string -> result (list Document).
Variable OPENAI_MODEL : option string.
Variable chat : string -> list message -> result string.

(** The context mixes documents without a source and documents with
    one. *)
Definition mixed (context : list Document) : Prop :=
  exists d1 d2,
    d1 ∈ context /\ d2 ∈ context /\ source d1 = None /\ is_Some (source d2).


End WithServices.


End SourceFacts.


(** * Properties of the prompt and of the response cache *)

Module PromptFacts.

Import Constants Rag.
Local Open Scope list_scope.

Definition newline : string := String (ascii_of_nat 10) EmptyString.

(** The text of [USER_PROMPT_TEMPLATE] after its [{context}] field. *)
Definition instructions : string := substring 52 852 USER_PROMPT_TEMPLATE.

(** The user message for a question and a context string. *)
Definition user_message (question context : string) : string :=
  ("Question: " ++ question ++ newline ++ newline ++ "Context from documents:"
   ++ newline ++ context ++ instructions)%string.

(** The messages of the synthesis call for a question and its context
    documents. *)
Definition prompt (question : string) (context : list Document) : list message :=
  [("system", SYSTEM_PROMPT);
   ("user", user_message question (join_paragraphs (map page_content context)))].

(** Formatting [PROMPT] never fails and gives [prompt]. *)
Lemma format_messages_PROMPT (question context : string) :
  format_messages PROMPT (<["input" := question]> (<["context" := context]> ∅))
  = Returned [("system", SYSTEM_PROMPT); ("user", user_message question context)].
Proof. vm_compute. reflexivity. Qed.

Lemma doc_chain_generate OPENAI_MODEL chat question context st :
  doc_chain OPENAI_MODEL chat question context st
  = generate OPENAI_MODEL chat (prompt question context) st.
Proof.
  unfold doc_chain, seq, lift. rewrite format_messages_PROMPT. reflexivity.
Qed.

Lemma append_cons c s t : (String c s ++ t)%string = String c (s ++ t)%string.
Proof. reflexivity. Qed.

Lemma append_cancel_l s a b : (s ++ a)%string = (s ++ b)%string -> a = b.
Proof.
  induction s as [| c s IH]; [exact (fun H => H) |].
  rewrite !append_cons. intros [= H]. now apply IH.
Qed.

Lemma list_ascii_of_string_app a b :
  list_ascii_of_string (a ++ b)%string
  = list_ascii_of_string a ++ list_ascii_of_string b.
Proof.
  induction a as [| c a IH]; [reflexivity |].
  rewrite append_cons. simpl. now rewrite IH.
Qed.

Lemma append_cancel_r s a b : (a ++ s)%string = (b ++ s)%string -> a = b.
Proof.
  intros H. apply (f_equal list_ascii_of_string) in H.
  rewrite !list_ascii_of_string_app in H. apply app_inv_tail in H.
  rewrite <- (string_of_list_ascii_of_string a), <- (string_of_list_ascii_of_string b).
  now rewrite H.
Qed.

(** For one context, different questions give different prompts. *)
Lemma prompt_injective question1 question2 context :
  prompt question1 context = prompt question2 context -> question1 = question2.
Proof.
  unfold prompt, user_message. intros [= H].
  apply append_cancel_l in H. now apply append_cancel_r in H.
Qed.

Section WithModel.

Variable OPENAI_MODEL : option string.
Variable chat : string -> list message -> result string.

Local Abbreviation model := (model_name OPENAI_MODEL).
Local Abbreviation generate := (generate OPENAI_MODEL chat).
Local Abbreviation doc_chain := (doc_chain OPENAI_MODEL chat).

Lemma generate_hit st cache messages stored :
  llm_cache st = Some cache -> cache !! (messages, model) = Some stored ->
  generate messages st = (Returned stored, st).
Proof. intros Hc Hl. unfold Rag.generate. now rewrite Hc, Hl. Qed.

Lemma generate_miss st cache messages :
  llm_cache st = Some cache -> cache !! (messages, model) = None ->
  generate messages st
  = match chat model messages with
    | Returned out =>
        (Returned out,
         mkState (Some (<[(messages, model) := out]> cache))
                 (model_calls st ++ [(model, messages)]) (stdout st))
    | Raised e =>
        (Raised e,
         mkState (Some cache) (model_calls st ++ [(model, messages)]) (stdout st))
    end.
Proof.
  intros Hc Hl. unfold Rag.generate. rewrite Hc, Hl.
  destruct (chat _ _); reflexivity.
Qed.

Lemma generate_uncached st messages :
  llm_cache st = None ->
  generate messages st
  = (chat model messages,
     mkState None (model_calls st ++ [(model, messages)]) (stdout st)).
Proof. intros Hc. unfold Rag.generate. now rewrite Hc. Qed.

(** After a call that returned under the cache, the cache holds the
    response for that prompt and is otherwise as before. *)
Lemma generate_stores st cache messages out st1 :
  llm_cache st = Some cache ->
  generate messages st = (Returned out, st1) ->
  exists cache1,
    llm_cache st1 = Some cache1
    /\ cache1 !! (messages, model) = Some out
    /\ forall key, key <> (messages, model) -> cache1 !! key = cache !! key.
Proof.
  intros Hc Hgen.
  destruct (cache !! (messages, model)) as [stored |] eqn:Hl.
  - rewrite (generate_hit st cache messages stored Hc Hl) in Hgen.
    injection Hgen as <- <-. exists cache. auto.
  - rewrite (generate_miss st cache messages Hc Hl) in Hgen.
    destruct (chat model messages) as [out' | e]; [| discriminate].
    injection Hgen as <- <-. eexists. split; [reflexivity |].
    split; [apply lookup_insert_eq |].
    intros key Hkey. apply lookup_insert_ne. congruence.
Qed.

(** C1, amended. The cache is an exact-match cache of model calls: once a
    synthesis call for a question and a context has returned, the same
    question with the same context gets the stored response without a call
    of the model; a different question with that context, if its own prompt
    was not stored before, is sent to the model, whatever its similarity to
    the first. *)
Theorem cache_is_exact_match
    (question1 question2 : string) (context : list Document)
    (st st1 : State) (cache : gmap (list message * string) string) (answer1 : string) :
  llm_cache st = Some cache ->
  doc_chain question1 context st = (Returned answer1, st1) ->
  doc_chain question1 context st1 = (Returned answer1, st1)
  /\ (question2 <> question1 ->
      cache !! (prompt question2 context, model) = None ->
      fst (doc_chain question2 context st1) = chat model (prompt question2 context)
      /\ model_calls (snd (doc_chain question2 context st1))
         = model_calls st1 ++ [(model, prompt question2 context)]).
Proof.
  rewrite !doc_chain_generate. intros Hc Hgen.
  destruct (generate_stores st cache _ answer1 st1 Hc Hgen) as (cache1 & Hc1 & Hstored & Hother).
  split.
  - exact (generate_hit st1 cache1 _ answer1 Hc1 Hstored).
  - intros Hne Hfresh.
    assert (Hmiss : cache1 !! (prompt question2 context, model) = None).
    { rewrite Hother; [exact Hfresh |].
      intros Heq. apply Hne. apply prompt_injective with context. congruence. }
    rewrite (generate_miss st1 cache1 _ Hc1 Hmiss).
    destruct (chat model (prompt question2 context)); split; reflexivity.
Qed.

End WithModel.

(** The share of positions at which two questions differ. *)
Fixpoint mismatches (a b : string) : nat :=
  match a, b with
  | EmptyString, _ => String.length b
  | _, EmptyString => String.length a
  | String x a', String y b' =>
      ((if Ascii.eqb x y then 0 else 1) + mismatches a' b')%nat
  end.

Definition mismatch_ratio (a b : string) : Q :=
  Z.of_nat (mismatches a b)
  # Pos.of_nat (Nat.max (String.length a) (String.length b)).

(** The cache contract of the specification, for a distance between
    questions: a later question within the threshold of an earlier one gets
    the stored answer of the earlier one, and nothing is computed again. *)
Definition similarity_cache_contract (distance : string -> string -> Q) : Prop :=
  forall OPENAI_MODEL chat question1 question2 context st answer1 st1,
    is_Some (llm_cache st) ->
    question1 <> question2 ->
    (distance question1 question2 <= REDIS_CACHE_DISTANCE_THRESHOLD)%Q ->
    doc_chain OPENAI_MODEL chat question1 context st = (Returned answer1, st1) ->
    doc_chain OPENAI_MODEL chat question2 context st1 = (Returned answer1, st1).

(** A model that tells the two spellings of one question apart. *)
Definition sample_chat (_ : string) (messages : list message) : result string :=
  if bool_decide (messages = prompt "What is an executive order?" [])
  then Returned "An order of the President."
  else Returned "I cannot tell.".

(** C1, as stated, fails: the two questions differ in one letter out of 27,
    yet the second one is sent to the model and gets the model's answer. *)
Lemma similarity_cache_contract_fails : ~ similarity_cache_contract mismatch_ratio.
Proof.
  intros Hcontract.
  pose (st := mkState (Some ∅) [] []).
  destruct (doc_chain None sample_chat "What is an executive order?" [] st)
    as [r st1] eqn:Hfirst.
  assert (Hr : r = Returned "An order of the President.").
  { apply (f_equal fst) in Hfirst. cbn [fst] in Hfirst. rewrite <- Hfirst.
    vm_compute. reflexivity. }
  subst r.
  specialize (Hcontract None sample_chat "What is an executive order?"
                "what is an executive order?" [] st
                "An order of the President." st1).
  assert (Hsecond : fst (doc_chain None sample_chat "what is an executive order?" [] st1)
                    = Returned "I cannot tell.").
  { apply (f_equal snd) in Hfirst. cbn [snd] in Hfirst. rewrite <- Hfirst.
    vm_compute. reflexivity. }
  rewrite Hcontract in Hsecond.
  - discriminate.
  - simpl. eauto.
  - discriminate.
  - vm_compute. discriminate.
  - exact Hfirst.
Qed.

End PromptFacts.


(** * Properties of the chain: the reranking stage and the answer *)

Module ChainFacts.

Import Constants Rag PromptFacts.
Local Open Scope list_scope.

(** A state with another standard output. *)
Definition with_stdout (out : list string) (st : State) : State :=
  mkState (llm_cache st) (model_calls st) out.

(** What [answer_with_docs_async] does once the retriever is built. *)
Definition synthesis (OPENAI_MODEL : option string)
    (chat : string -> list message -> result string)
    (retrieve : retriever) (question : string)
  : io (string * list (option string) * list string) :=
  result <- ainvoke OPENAI_MODEL chat retrieve question ;;
  let unique_sources : gset (option string) :=
    list_to_set (map source (r_context result)) in
  sources <- lift (sorted unique_sources) ;;
  ret (r_answer result, sources, map page_content (r_context result)).

Lemma generate_with_stdout OPENAI_MODEL chat messages out st :
  generate OPENAI_MODEL chat messages (with_stdout out st)
  = (fst (generate OPENAI_MODEL chat messages st),
     with_stdout out (snd (generate OPENAI_MODEL chat messages st))).
Proof.
  destruct st as [[cache |] calls printed]; unfold generate, with_stdout; simpl;
    [| reflexivity].
  destruct (cache !! _); [reflexivity |].
  destruct (chat _ _); reflexivity.
Qed.

(** The standard output plays no part in the synthesis. *)
Lemma synthesis_with_stdout OPENAI_MODEL chat retrieve question out st :
  synthesis OPENAI_MODEL chat retrieve question (with_stdout out st)
  = (fst (synthesis OPENAI_MODEL chat retrieve question st),
     with_stdout out (snd (synthesis OPENAI_MODEL chat retrieve question st))).
Proof.
  unfold synthesis, ainvoke, seq, lift, ret.
  destruct (retrieve question) as [context | e]; [| reflexivity].
  rewrite !doc_chain_generate, generate_with_stdout.
  destruct (generate OPENAI_MODEL chat (prompt question context) st) as [[answer | e] st'];
    simpl; [| reflexivity].
  destruct (sorted _); reflexivity.
Qed.

Section WithServices.

Variable get_vector_store : result unit.
Variable similarity_search : string -> result (list Document).
Variable multi_query_from_llm : result unit.
Variable generate_queries : string -> result (list string).
Variable CohereRerank : result unit.
Variable compress_documents : list Document -> string -> result (list Document).
Variable OPENAI_MODEL : option string.
Variable chat : string -> list message -> result string.

Local Abbreviation build := (fun key =>
  _build_chain get_vector_store similarity_search multi_query_from_llm
    generate_queries key CohereRerank compress_documents).

Local Abbreviation answer := (fun key =>
  answer_with_docs_async get_vector_store similarity_search multi_query_from_llm
    generate_queries key CohereRerank compress_documents OPENAI_MODEL chat).

Lemma answer_with_docs_async_synthesis key question st :
  answer key question st
  = match build key st with
    | (Returned retrieve, st') => synthesis OPENAI_MODEL chat retrieve question st'
    | (Raised e, st') => (Raised e, st')
    end.
Proof. reflexivity. Qed.

(** Without the credential, or when the constructor of the reranker
    raises, the retriever built is the one built with no credential at
    all; only the standard output can differ. *)
Lemma build_chain_without_reranker key st :
  truthy key = false \/ (exists e, CohereRerank = Raised e) ->
  exists out,
    build key st = (fst (build None st), with_stdout out (snd (build None st))).
Proof.
  intros Hoff. unfold _build_chain, seq, try_except, lift, ret.
  destruct get_vector_store as [[] | e0]; [| exists (stdout st); now destruct st].
  simpl.
  destruct multi_query_from_llm as [[] | e1]; simpl.
  - destruct (truthy key) eqn:Hkey.
    + destruct Hoff as [Hoff | [e ->]]; [discriminate |]. simpl.
      eexists. reflexivity.
    + eexists. unfold with_stdout. simpl. reflexivity.
  - destruct (truthy key) eqn:Hkey.
    + destruct Hoff as [Hoff | [e ->]]; [discriminate |]. simpl.
      eexists. reflexivity.
    + eexists. unfold with_stdout. simpl. reflexivity.
Qed.

(** The retriever before the reranking stage: the multi-query retriever
    when it could be built, the search of the store otherwise.  The
    reranking service has no part in it. *)
Definition unranked : retriever :=
  if USE_MULTI_QUERY then
    match multi_query_from_llm with
    | Returned _ => multi_query_retriever generate_queries similarity_search
    | Raised _ => similarity_search
    end
  else similarity_search.

(** Without the credential, or when the constructor of the reranker
    raises, [_build_chain] returns the retriever before the reranking
    stage. *)
Lemma build_chain_unranked key st :
  truthy key = false \/ (exists e, CohereRerank = Raised e) ->
  exists out,
    build key st
    = (match get_vector_store with
       | Returned _ => Returned unranked
       | Raised e => Raised e
       end,
       with_stdout out st).
Proof.
  intros Hoff. unfold _build_chain, unranked, seq, try_except, lift, ret.
  destruct get_vector_store as [[] | e0]; [| exists (stdout st); now destruct st].
  simpl.
  destruct multi_query_from_llm as [[] | e1]; simpl.
  - destruct (truthy key) eqn:Hkey.
    + destruct Hoff as [Hoff | [e ->]]; [discriminate |]. simpl.
      eexists. reflexivity.
    + eexists. unfold with_stdout. simpl. reflexivity.
  - destruct (truthy key) eqn:Hkey.
    + destruct Hoff as [Hoff | [e ->]]; [discriminate |]. simpl.
      eexists. reflexivity.
    + eexists. unfold with_stdout. simpl. reflexivity.
Qed.

(** C7, amended. When the credential is absent or empty, or when the
    constructor of the reranker raises, the reranking stage is left out:
    the retriever [_build_chain] returns is the one before the reranking
    stage, in which [compress_documents] has no part, and the call is the
    synthesis over that retriever, with its outcome, its cache and its
    calls of the model: the texts it returns are those of the documents
    that retriever found, all of them and in that order; when the store
    cannot be reached the call raises as it does with a reranker. *)
Theorem reranker_skipped_when_not_configured
    (COHERE_API_KEY : option string) (question : string) (st : State) :
  truthy COHERE_API_KEY = false \/ (exists e, CohereRerank = Raised e) ->
  (exists out,
     build COHERE_API_KEY st
     = (match get_vector_store with
        | Returned _ => Returned unranked
        | Raised e => Raised e
        end,
        with_stdout out st))
  /\ match get_vector_store with
     | Returned _ =>
         fst (answer COHERE_API_KEY question st)
         = fst (synthesis OPENAI_MODEL chat unranked question st)
         /\ llm_cache (snd (answer COHERE_API_KEY question st))
            = llm_cache (snd (synthesis OPENAI_MODEL chat unranked question st))
         /\ model_calls (snd (answer COHERE_API_KEY question st))
            = model_calls (snd (synthesis OPENAI_MODEL chat unranked question st))
         /\ forall reply sources texts,
              fst (answer COHERE_API_KEY question st)
              = Returned (reply, sources, texts) ->
              exists context,
                unranked question = Returned context
                /\ texts = map page_content context
     | Raised e =>
         fst (answer COHERE_API_KEY question st) = Raised e
         /\ llm_cache (snd (answer COHERE_API_KEY question st)) = llm_cache st
         /\ model_calls (snd (answer COHERE_API_KEY question st)) = model_calls st
     end.
Proof.
  intros Hoff.
  destruct (build_chain_unranked COHERE_API_KEY st Hoff) as [out Hbuild].
  split; [exists out; exact Hbuild |].
  rewrite !answer_with_docs_async_synthesis, Hbuild.
  destruct get_vector_store as [[] | e].
  - rewrite synthesis_with_stdout. cbn [fst snd with_stdout llm_cache model_calls].
    split; [reflexivity |]. split; [reflexivity |]. split; [reflexivity |].
    intros reply sources texts. unfold synthesis, ainvoke, seq, lift, ret.
    destruct (unranked question) as [context | e]; [| discriminate].
    destruct (doc_chain OPENAI_MODEL chat question context st) as [[response | e] st'];
      [| discriminate].
    cbn [r_context r_answer].
    destruct (sorted _); [| discriminate].
    intros [= _ _ <-]. eauto.
  - simpl. auto.
Qed.

End WithServices.

(** The reranking contract of the specification: when the credential is
    absent, the constructor raises, or the service raises on every call,
    the call ends as it ends with no reranking stage. *)
Definition reranker_contract : Prop :=
  forall get_vector_store similarity_search multi_query_from_llm generate_queries
         COHERE_API_KEY CohereRerank compress_documents OPENAI_MODEL chat question st,
    truthy COHERE_API_KEY = false
    \/ (exists e, CohereRerank = Raised e)
    \/ (exists e, forall found q, compress_documents found q = Raised e) ->
    fst (answer_with_docs_async get_vector_store similarity_search
           multi_query_from_llm generate_queries COHERE_API_KEY CohereRerank
           compress_documents OPENAI_MODEL chat question st)
    = fst (answer_with_docs_async get_vector_store similarity_search
             multi_query_from_llm generate_queries None CohereRerank
             compress_documents OPENAI_MODEL chat question st).

(** One stored chunk, found for every query. *)
Definition sample_chunk : Document :=
  mkDocument "Executive Order 14110 was signed on October 30, 2023."
             (<["source" := "data/eo-14110.pdf"]> ∅).

Definition sample_search (_ : string) : result (list Document) :=
  Returned [sample_chunk].

Definition sample_rewrites (question : string) : result (list string) :=
  Returned [("In other words: " ++ question)%string].

Definition constant_chat (reply : string) (_ : string) (_ : list message)
  : result string := Returned reply.

Definition unavailable (_ : list Document) (_ : string) : result (list Document) :=
  Raised "cohere: service unavailable".

Definition fresh : State := mkState None [] [].

(** C7, as stated, fails: with the credential set and the reranker built,
    a reranking call that raises ends the whole call with that exception. *)
Lemma reranker_contract_fails : ~ reranker_contract.
Proof.
  intros Hcontract.
  specialize (Hcontract (Returned tt) sample_search (Returned tt) sample_rewrites
                (Some "key") (Returned tt) unavailable None
                (constant_chat "It was signed in 2023.")
                "When was the order signed?" fresh).
  assert (Hwith :
    fst (answer_with_docs_async (Returned tt) sample_search (Returned tt)
           sample_rewrites (Some "key") (Returned tt) unavailable None
           (constant_chat "It was signed in 2023.")
           "When was the order signed?" fresh)
    = Raised "cohere: service unavailable") by (lazy; reflexivity).
  assert (Hwithout :
    fst (answer_with_docs_async (Returned tt) sample_search (Returned tt)
           sample_rewrites None (Returned tt) unavailable None
           (constant_chat "It was signed in 2023.")
           "When was the order signed?" fresh)
    = Returned ("It was signed in 2023.", [Some "data/eo-14110.pdf"],
                ["Executive Order 14110 was signed on October 30, 2023."]))
    by (vm_compute; reflexivity).
  rewrite Hwith, Hwithout in Hcontract.
  assert (Hfalse : Raised (A := string * list (option string) * list string)
                     "cohere: service unavailable"
                   = Returned ("It was signed in 2023.", [Some "data/eo-14110.pdf"],
                       ["Executive Order 14110 was signed on October 30, 2023."])).
  { apply Hcontract. right. right. exists "cohere: service unavailable". reflexivity. }
  discriminate.
Qed.

End ChainFacts.


(** * Properties of the answer for an empty context *)

Module AnswerFacts.

Import Constants Rag PromptFacts ChainFacts.
Local Open Scope list_scope.

(** The sentence the two templates ask the model for when the context does
    not hold the answer; its apostrophe is the typographic one. *)
Definition FALLBACK_PHRASE : string :=
  "I don’t know based on the available documents.".

(** The rule of [SYSTEM_PROMPT] that asks for it. *)
Definition FALLBACK_RULE : string :=
  "- If the answer is not present in the context, respond exactly:
  “I don’t know based on the available documents.”".

(** The fallback contract of the specification, for a phrase: the system
    prompt holds the phrase, and synthesis over an empty context returns
    exactly it. *)
Definition fallback_contract (phrase : string) : Prop :=
  contains phrase SYSTEM_PROMPT = true
  /\ forall OPENAI_MODEL chat question st answer st',
       doc_chain OPENAI_MODEL chat question [] st = (Returned answer, st') ->
       answer = phrase.

Lemma append_not_self (s : string) : (s ++ "!")%string <> s.
Proof.
  intros H. apply (f_equal String.length) in H.
  assert (Hlen : forall a b, String.length (a ++ b)%string
                             = (String.length a + String.length b)%nat).
  { induction a as [| c a IH]; intros b; [reflexivity |].
    rewrite append_cons. simpl. now rewrite IH. }
  rewrite Hlen in H. simpl in H. lia.
Qed.

(** C9, as stated, fails for every phrase: what synthesis returns over an
    empty context is the reply of the model, whatever that is. *)
Lemma fallback_contract_fails : ~ exists phrase, fallback_contract phrase.
Proof.
  intros (phrase & _ & Hreturns).
  specialize (Hreturns None (constant_chat (phrase ++ "!")%string)
                "Who signed the order?" fresh (phrase ++ "!")%string
                (mkState None
                   [(model_name None, prompt "Who signed the order?" [])] [])).
  apply (append_not_self phrase), Hreturns.
  rewrite doc_chain_generate. reflexivity.
Qed.

Section WithServices.

Variable get_vector_store : result unit.
Variable similarity_search : string -> result (list Document).
Variable multi_query_from_llm : result unit.
Variable generate_queries : string -> result (list string).
Variable COHERE_API_KEY : option string.
Variable CohereRerank : result unit.
Variable compress_documents : list Document -> string -> result (list Document).
Variable OPENAI_MODEL : option string.
Variable chat : string -> list message -> result string.

(** C9, amended. Both templates hold the fallback sentence, and the system
    prompt the rule that asks for it; when the retriever finds nothing, the
    answer of [answer_with_docs_async] is the response to the prompt with
    an empty context, as the model (or the cache) gives it, with an empty
    source list and an empty context list. *)
Theorem empty_context_answer_is_the_model_response
    (question : string) (st st0 : State) (retrieve : retriever) :
  _build_chain get_vector_store similarity_search multi_query_from_llm
    generate_queries COHERE_API_KEY CohereRerank compress_documents st
  = (Returned retrieve, st0) ->
  retrieve question = Returned [] ->
  contains FALLBACK_RULE SYSTEM_PROMPT = true
  /\ contains FALLBACK_PHRASE USER_PROMPT_TEMPLATE = true
  /\ answer_with_docs_async get_vector_store similarity_search multi_query_from_llm
       generate_queries COHERE_API_KEY CohereRerank compress_documents
       OPENAI_MODEL chat question st
     = match generate OPENAI_MODEL chat (prompt question []) st0 with
       | (Returned response, st1) => (Returned (response, [], []), st1)
       | (Raised e, st1) => (Raised e, st1)
       end.
Proof.
  intros Hbuild Hnothing.
  split; [vm_compute; reflexivity |].
  split; [vm_compute; reflexivity |].
  rewrite (answer_with_docs_async_synthesis get_vector_store similarity_search
             multi_query_from_llm generate_queries CohereRerank compress_documents
             OPENAI_MODEL chat COHERE_API_KEY question st).
  rewrite Hbuild. unfold synthesis, ainvoke, seq, lift, ret. rewrite Hnothing.
  rewrite doc_chain_generate.
  destruct (generate OPENAI_MODEL chat (prompt question []) st0) as [[response | e] st1];
    reflexivity.
Qed.

End WithServices.

(** The sentence with a plain apostrophe is in neither template. *)
Example plain_apostrophe_absent :
  contains "I don't know based on the available documents." SYSTEM_PROMPT = false
  /\ contains "I don't know based on the available documents." USER_PROMPT_TEMPLATE
     = false.
Proof. vm_compute. split; reflexivity. Qed.

End AnswerFacts.


(** * Properties of the ingestion job *)

Module JobFacts.

Import ChainlitApp.
Local Open Scope list_scope.

#[local] Arguments _ingest_job_begin : simpl never.
#[local] Arguments _ingest_job_end : simpl never.

(** [_ingest_last] with its five keys. *)
Definition record (status : string) (started_at finished_at stats error : value)
  : gmap string value :=
  <["status" := VStr status]>
    (<["started_at" := started_at]>
       (<["finished_at" := finished_at]>
          (<["stats" := stats]>
             (<["error" := error]> ∅)))).

Lemma status_record s a b c d g :
  _ingest_last g = record s a b c d -> status g = Some (VStr s).
Proof. unfold status. intros ->. reflexivity. Qed.

Lemma begin_record now s a b c d :
  _ingest_job_begin now (record s a b c d)
  = record "running" (VTime now) VNone VNone VNone.
Proof. vm_compute. reflexivity. Qed.

Lemma end_record_succeeded now started stats :
  _ingest_job_end now (Returned stats) (record "running" (VTime started) VNone VNone VNone)
  = record "succeeded" (VTime started) (VTime now) (VStats stats) VNone.
Proof. vm_compute. reflexivity. Qed.

Lemma end_record_failed now started e :
  _ingest_job_end now (Raised e) (record "running" (VTime started) VNone VNone VNone)
  = record "failed" (VTime started) (VTime now) VNone (VStr e).
Proof. vm_compute. reflexivity. Qed.

(** A task is in flight from its creation until it finishes or is
    cancelled. *)
Definition in_flight (t : option task) : Prop :=
  t = Some Created \/ t = Some Started.

(** The shapes of the module state: the status, the other four values that
    go with it, and the tasks that can go with it.  A task that was
    cancelled leaves the status that was there, [running] when it had
    begun, and so does the task created after it. *)
Inductive shape (g : Globals) : Prop :=
| shape_idle :
    _ingest_last g = record "idle" VNone VNone VNone VNone ->
    _ingest_task g = None \/ _ingest_task g = Some Created
    \/ _ingest_task g = Some Cancelled ->
    shape g
| shape_running started :
    _ingest_last g = record "running" (VTime started) VNone VNone VNone ->
    _ingest_task g = Some Started \/ _ingest_task g = Some Created
    \/ _ingest_task g = Some Cancelled ->
    shape g
| shape_succeeded started finished stats :
    _ingest_last g
    = record "succeeded" (VTime started) (VTime finished) (VStats stats) VNone ->
    _ingest_task g = Some Done \/ _ingest_task g = Some Created
    \/ _ingest_task g = Some Cancelled ->
    shape g
| shape_failed started finished e :
    _ingest_last g
    = record "failed" (VTime started) (VTime finished) VNone (VStr e) ->
    _ingest_task g = Some Done \/ _ingest_task g = Some Created
    \/ _ingest_task g = Some Cancelled ->
    shape g.

(** The status changes of the code: a job starts from any status but
    [running], and ends in [succeeded] or [failed]. *)
Inductive transition : string -> string -> Prop :=
| idle_running : transition "idle" "running"
| succeeded_running : transition "succeeded" "running"
| failed_running : transition "failed" "running"
| running_succeeded : transition "running" "succeeded"
| running_failed : transition "running" "failed".

(** The status changes along idle, running, then succeeded or failed. *)
Inductive documented_transition : string -> string -> Prop :=
| documented_idle_running : documented_transition "idle" "running"
| documented_running_succeeded : documented_transition "running" "succeeded"
| documented_running_failed : documented_transition "running" "failed".

(** The statistics of a run that returns: the number of documents loaded,
    the number of chunks the splitter made of them, and the paths of the
    files loaded. *)
Definition loaded_by (env : Environment) : Loading.loaded :=
  Loading._load_docs (isdir env) (load env) (paths env).

(** X1. The statistics of a run that returned count that run: the number
    of documents loaded, the paths of the files loaded, and the number of
    chunks the splitter made of the documents. *)
Lemma run_ingest_async_stats env w stats w' :
  run_ingest_async env w = (Returned stats, w') ->
  Ingest.documents stats = length (Loading.docs (loaded_by env))
  /\ Ingest.files stats = Loading.file_paths (loaded_by env)
  /\ exists chunks,
       TextSplitter.split_documents Constants.CHUNK_SIZE Constants.CHUNK_OVERLAP
         (Loading.docs (loaded_by env)) = Returned chunks
       /\ Ingest.chunks stats = length chunks.
Proof.
  unfold run_ingest_async, Ingest.run_ingest_async, seq. fold (loaded_by env).
  intros Hrun.
  match type of Hrun with
  | (let (_, _) := ?c in _) = _ => destruct c as [[[] | e0] w0]; [| discriminate Hrun]
  end.
  destruct (Ingest._chunk (Loading.docs (loaded_by env)) w0) as [[chunks | e1] w1] eqn:Hchunk;
    [| discriminate Hrun].
  pose proof (ChunkFacts._chunk_outcome (Loading.docs (loaded_by env)) w0) as Hsplit.
  rewrite Hchunk in Hsplit. cbn [fst] in Hsplit.
  unfold lift in Hrun.
  destruct (get_vector_store env) as [[] | e2]; [| discriminate Hrun].
  match type of Hrun with
  | (let (_, _) := ?c in _) = _ => destruct c as [[[] | e3] w3]; [| discriminate Hrun]
  end.
  unfold Ingest.print in Hrun.
  match type of Hrun with
  | (let (_, _) := ?c in _) = _ => destruct c as [[[] | e4] w4]; [| discriminate Hrun]
  end.
  injection Hrun as <- _. cbn. eauto.
Qed.

Section WithOtherCommands.

Variable other_commands : string -> Globals -> list string.

Local Abbreviation handle_command := (handle_command other_commands).
Local Abbreviation step := (step other_commands).
Local Abbreviation run := (run other_commands).
Local Abbreviation reachable := (reachable other_commands).

Lemma shape_same g g' :
  _ingest_task g' = _ingest_task g -> _ingest_last g' = _ingest_last g ->
  shape g -> shape g'.
Proof.
  intros Ht Hl Hshape.
  destruct Hshape as [Hlast Htask | started Hlast Htask
                     | started finished stats Hlast Htask
                     | started finished e Hlast Htask];
    rewrite <- Hl in Hlast; rewrite <- Ht in Htask.
  - now apply shape_idle.
  - now apply shape_running with started.
  - now apply shape_succeeded with started finished stats.
  - now apply shape_failed with started finished e.
Qed.

(** The status stays when a task is created or cancelled. *)
Lemma shape_rest g t w messages :
  shape g -> t = Created \/ t = Cancelled ->
  shape (mkGlobals (Some t) (_ingest_last g) w messages).
Proof.
  intros Hshape Ht.
  assert (Htask : forall first : Prop,
             first \/ Some t = Some Created \/ Some t = Some Cancelled).
  { intros first. destruct Ht as [-> | ->]; auto. }
  destruct Hshape as [Hlast _ | started Hlast _
                     | started finished stats Hlast _
                     | started finished e Hlast _].
  - apply shape_idle; [exact Hlast | apply Htask].
  - apply shape_running with started; [exact Hlast | apply Htask].
  - apply shape_succeeded with started finished stats; [exact Hlast | apply Htask].
  - apply shape_failed with started finished e; [exact Hlast | apply Htask].
Qed.

(** A task that has begun and not ended goes with the status [running]. *)
Lemma shape_started g :
  shape g -> _ingest_task g = Some Started ->
  exists started,
    _ingest_last g = record "running" (VTime started) VNone VNone VNone.
Proof.
  intros [Hlast Htask | started Hlast Htask
         | started finished stats Hlast Htask
         | started finished e Hlast Htask] Ht;
    rewrite Ht in Htask.
  - destruct Htask as [? | [? | ?]]; discriminate.
  - now exists started.
  - destruct Htask as [? | [? | ?]]; discriminate.
  - destruct Htask as [? | [? | ?]]; discriminate.
Qed.

(** A task that has finished goes with the status of its outcome. *)
Lemma shape_done g :
  shape g -> _ingest_task g = Some Done ->
  (exists started finished stats,
     _ingest_last g
     = record "succeeded" (VTime started) (VTime finished) (VStats stats) VNone)
  \/ (exists started finished e,
        _ingest_last g
        = record "failed" (VTime started) (VTime finished) VNone (VStr e)).
Proof.
  intros [Hlast Htask | started Hlast Htask
         | started finished stats Hlast Htask
         | started finished e Hlast Htask] Ht;
    rewrite Ht in Htask.
  - destruct Htask as [? | [? | ?]]; discriminate.
  - destruct Htask as [? | [? | ?]]; discriminate.
  - left. now exists started, finished, stats.
  - right. now exists started, finished, e.
Qed.

(** With the status [running], the task has begun, or was cancelled after
    it had, or was created after such a cancellation. *)
Lemma shape_status_running g :
  shape g -> status g = Some (VStr "running") ->
  _ingest_task g = Some Started \/ _ingest_task g = Some Created
  \/ _ingest_task g = Some Cancelled.
Proof.
  intros [Hlast Htask | started Hlast Htask
         | started finished stats Hlast Htask
         | started finished e Hlast Htask] Hstatus;
    rewrite (status_record _ _ _ _ _ g Hlast) in Hstatus;
    try discriminate Hstatus.
  exact Htask.
Qed.

Lemma handle_command_last command g :
  _ingest_last (handle_command command g) = _ingest_last g.
Proof.
  unfold ChainlitApp.handle_command.
  destruct (String.eqb _ _); [| reflexivity].
  destruct (_ingest_task g) as [t |]; [destruct (negb (done t)) |]; reflexivity.
Qed.

Lemma handle_command_shape command g : shape g -> shape (handle_command command g).
Proof.
  intros Hshape. unfold ChainlitApp.handle_command.
  destruct (String.eqb _ "/ingest").
  - destruct (_ingest_task g) as [[| | |] |] eqn:Ht; simpl.
    + now apply (shape_same g).
    + now apply (shape_same g).
    + apply shape_rest; [exact Hshape | now left].
    + apply shape_rest; [exact Hshape | now left].
    + apply shape_rest; [exact Hshape | now left].
  - now apply (shape_same g).
Qed.

Lemma step_shape e g g' : shape g -> step e g = Some g' -> shape g'.
Proof.
  intros Hshape Hstep. destruct e as [command | now | env now | env cut];
    simpl in Hstep.
  - injection Hstep as <-. now apply handle_command_shape.
  - destruct (_ingest_task g) as [[| | |] |] eqn:Ht; try discriminate.
    injection Hstep as <-.
    destruct Hshape as [Hlast _ | started Hlast _ | started finished stats Hlast _
                       | started finished e Hlast _];
      eapply shape_running; simpl; try (left; reflexivity);
      rewrite Hlast; apply begin_record.
  - destruct (_ingest_task g) as [[| | |] |] eqn:Ht; try discriminate.
    destruct (shape_started g Hshape Ht) as [started Hlast].
    destruct (run_ingest_async env (world g)) as [[stats | e] w'];
      cbv beta iota in Hstep; injection Hstep as <-.
    + eapply shape_succeeded; simpl; [| left; reflexivity].
      rewrite Hlast. apply end_record_succeeded.
    + eapply shape_failed; simpl; [| left; reflexivity].
      rewrite Hlast. apply end_record_failed.
  - destruct (_ingest_task g) as [[| | |] |] eqn:Ht; try discriminate.
    + injection Hstep as <-. apply shape_rest; [exact Hshape | now right].
    + destruct (cancelled_at env (world g) !! cut) as [w |]; [| discriminate].
      injection Hstep as <-. apply shape_rest; [exact Hshape | now right].
Qed.

Lemma run_shape events g g' : shape g -> run events g = Some g' -> shape g'.
Proof.
  revert g. induction events as [| e rest IH]; intros g Hshape Hrun; simpl in Hrun.
  - now injection Hrun as <-.
  - destruct (step e g) as [g1 |] eqn:Hstep; [| discriminate].
    eapply IH; [| exact Hrun]. eapply step_shape; eassumption.
Qed.

(** Every state the process can be in has one of the four shapes. *)
Lemma reachable_shape g : reachable g -> shape g.
Proof.
  intros (w & events & Hrun). eapply run_shape; [| exact Hrun].
  apply shape_idle; [reflexivity | now left].
Qed.

(** The state after one more event. *)
Lemma run_app events e g :
  run (events ++ [e]) g
  = match run events g with
    | Some g' => step e g'
    | None => None
    end.
Proof.
  revert g. induction events as [| e0 rest IH]; intros g; simpl.
  - now destruct (step e g).
  - destruct (step e0 g) as [g1 |]; [apply IH | reflexivity].
Qed.

Lemma reachable_step e g g' : reachable g -> step e g = Some g' -> reachable g'.
Proof.
  intros (w & events & Hrun) Hstep. exists w, (events ++ [e]).
  now rewrite run_app, Hrun.
Qed.

(** C4, amended. In every state the process can be in, a task that has
    begun and not ended goes with the status [running]; with the status
    [running] a task is in flight, created or begun and neither ended nor
    cancelled, unless the task was cancelled; and while a task is in
    flight an [/ingest] command is answered at once with the notice that
    ingestion is already running: no task is created, and the task,
    [_ingest_last] (status, times, statistics, error) and the table are
    left as they are. *)
Theorem second_start_is_rejected (command : string) (g : Globals) :
  reachable g ->
  first_word (lower command) EmptyString = "/ingest" ->
  (_ingest_task g = Some Started -> status g = Some (VStr "running"))
  /\ (status g = Some (VStr "running") -> _ingest_task g <> Some Cancelled ->
      in_flight (_ingest_task g))
  /\ (in_flight (_ingest_task g) ->
      handle_command command g
      = mkGlobals (_ingest_task g) (_ingest_last g) (world g)
                  (sent g ++ [ALREADY_RUNNING])).
Proof.
  intros Hreach Hcmd. pose proof (reachable_shape g Hreach) as Hshape.
  split; [| split].
  - intros Ht. destruct (shape_started g Hshape Ht) as [started Hlast].
    exact (status_record _ _ _ _ _ g Hlast).
  - intros Hstatus Hnot.
    destruct (shape_status_running g Hshape Hstatus) as [Ht | [Ht | Ht]].
    + now right.
    + now left.
    + contradiction.
  - intros Hflight. unfold ChainlitApp.handle_command. rewrite Hcmd.
    destruct Hflight as [-> | ->]; reflexivity.
Qed.

(** C5, amended. In every state the process can be in the status is one of
    [idle], [running], [succeeded] and [failed], and every event leaves it
    as it is or changes it from a status other than [running] to
    [running], or from [running] to [succeeded] or [failed]; the first turn
    of a job sets [running] with the start time and clears the finish time,
    the statistics and the error; the end of its run keeps the start time,
    sets the finish time, and records [succeeded] with the statistics
    (documents, chunks, files) of the run or [failed] with the message of
    the exception; a command and a cancellation leave [_ingest_last] as it
    is. *)
Theorem ingestion_job_transitions (e : event) (g g' : Globals) :
  reachable g ->
  step e g = Some g' ->
  (exists s s',
     status g = Some (VStr s) /\ status g' = Some (VStr s')
     /\ In s ["idle"; "running"; "succeeded"; "failed"]
     /\ (s' = s \/ transition s s'))
  /\ match e with
     | Command _ => _ingest_last g' = _ingest_last g
     | JobBegins now =>
         _ingest_last g' = record "running" (VTime now) VNone VNone VNone
     | JobEnds env now =>
         exists started,
           _ingest_last g = record "running" (VTime started) VNone VNone VNone
           /\ match fst (run_ingest_async env (world g)) with
              | Returned stats =>
                  _ingest_last g'
                  = record "succeeded" (VTime started) (VTime now) (VStats stats) VNone
              | Raised message =>
                  _ingest_last g'
                  = record "failed" (VTime started) (VTime now) VNone (VStr message)
              end
     | JobCancelled _ _ => _ingest_last g' = _ingest_last g
     end.
Proof.
  intros Hreach Hstep. pose proof (reachable_shape g Hreach) as Hshape.
  assert (Hstays : _ingest_last g' = _ingest_last g ->
            exists s s',
              status g = Some (VStr s) /\ status g' = Some (VStr s')
              /\ In s ["idle"; "running"; "succeeded"; "failed"]
              /\ (s' = s \/ transition s s')).
  { intros Hsame. unfold status. rewrite Hsame.
    destruct Hshape as [Hlast _ | started Hlast _ | started finished stats Hlast _
                       | started finished e' Hlast _];
      rewrite Hlast; eexists _, _; (split; [reflexivity |]);
      (split; [reflexivity |]); (split; [simpl; tauto | now left]). }
  destruct e as [command | now | env now | env cut]; unfold ChainlitApp.step in Hstep.
  - injection Hstep as <-.
    split; [apply Hstays |]; apply handle_command_last.
  - destruct (_ingest_task g) as [[| | |] |] eqn:Ht; try discriminate.
    injection Hstep as <-. clear Hstays. unfold status. cbn [_ingest_last].
    assert (Hfrom : exists s a b c d,
               _ingest_last g = record s a b c d
               /\ ("running" = s \/ transition s "running")
               /\ In s ["idle"; "running"; "succeeded"; "failed"]).
    { destruct Hshape as [Hlast _ | started Hlast _ | started finished stats Hlast _
                         | started finished e Hlast _];
        eexists _, _, _, _, _;
        (split; [exact Hlast | split; [| simpl; tauto]]);
        first [left; reflexivity | right; constructor]. }
    destruct Hfrom as (s & a & b & c & d & Hlast & Htrans & Hvalue).
    rewrite Hlast, begin_record. split; [| reflexivity].
    exists s, "running". split; [reflexivity |]. split; [reflexivity |].
    split; [exact Hvalue | exact Htrans].
  - destruct (_ingest_task g) as [[| | |] |] eqn:Ht; try discriminate.
    clear Hstays. destruct (shape_started g Hshape Ht) as [started Hlast].
    destruct (run_ingest_async env (world g)) as [[stats | message] w'];
      cbv beta iota in Hstep; injection Hstep as <-;
      unfold status; cbn [_ingest_last fst]; rewrite Hlast.
    + rewrite end_record_succeeded. split.
      * exists "running", "succeeded".
        split; [reflexivity |]. split; [reflexivity |].
        split; [simpl; tauto | right; constructor].
      * exists started. split; reflexivity.
    + rewrite end_record_failed. split.
      * exists "running", "failed".
        split; [reflexivity |]. split; [reflexivity |].
        split; [simpl; tauto | right; constructor].
      * exists started. split; reflexivity.
  - assert (Hsame : _ingest_last g' = _ingest_last g).
    { destruct (_ingest_task g) as [[| | |] |]; try discriminate.
      - now injection Hstep as <-.
      - destruct (cancelled_at env (world g) !! cut); [| discriminate].
        now injection Hstep as <-. }
    split; [apply Hstays |]; exact Hsame.
Qed.

End WithOtherCommands.

End JobFacts.


(** * More on strings *)

Module StringFacts.

Lemma append_empty (s : string) : (s ++ EmptyString)%string = s.
Proof.
  induction s as [| a s IH]; [reflexivity |].
  rewrite !PromptFacts.append_cons. now rewrite IH.
Qed.

Lemma append_assoc (a b c : string) : ((a ++ b) ++ c)%string = (a ++ b ++ c)%string.
Proof.
  induction a as [| x a IH]; [reflexivity |].
  rewrite !PromptFacts.append_cons. now rewrite IH.
Qed.

Lemma length_append (a b : string) :
  String.length (a ++ b)%string = (String.length a + String.length b)%nat.
Proof.
  induction a as [| x a IH]; [reflexivity |].
  rewrite PromptFacts.append_cons. simpl. now rewrite IH.
Qed.

End StringFacts.


(** * More on the chunker: what the chunks are made of *)

Module SplitterContent.

Import TextSplitter SplitterFacts.
Local Open Scope list_scope.

(** [x] is a contiguous part of [t]. *)
Definition part_of (x t : text) : Prop := exists a b, t = a ++ x ++ b.

Lemma part_of_refl t : part_of t t.
Proof. exists [], []. simpl. now rewrite app_nil_r. Qed.

Lemma part_of_trans x y z : part_of x y -> part_of y z -> part_of x z.
Proof.
  intros (a & b & ->) (c & d & ->). exists (c ++ a), (b ++ d).
  now rewrite <- !app_assoc.
Qed.

Lemma part_of_middle a x b : part_of x (a ++ x ++ b).
Proof. now exists a, b. Qed.

(** [lstrip] removes a prefix, and what it leaves does not start with
    white space. *)
Lemma lstrip_suffix t : exists a, t = a ++ lstrip t.
Proof.
  induction t as [| c t [a IH]]; [now exists [] |].
  simpl. destruct (isspace c); [| now exists []].
  exists (c :: a). simpl. now rewrite <- IH.
Qed.

Lemma lstrip_head t c r : lstrip t = c :: r -> isspace c = false.
Proof.
  induction t as [| x t IH]; simpl; [discriminate |].
  destruct (isspace x) eqn:Hx; [exact IH |]. now intros [= <- _].
Qed.

Lemma lstrip_fixed t : (forall c r, t = c :: r -> isspace c = false) -> lstrip t = t.
Proof.
  destruct t as [| c r]; [reflexivity |]. intros H. simpl.
  now rewrite (H c r eq_refl).
Qed.

Lemma lstrip_idempotent t : lstrip (lstrip t) = lstrip t.
Proof. apply lstrip_fixed. intros c r. apply lstrip_head. Qed.

Lemma lstrip_front x y : lstrip (x ++ y) = x ++ y -> x <> [] -> lstrip x = x.
Proof.
  destruct x as [| c x]; [congruence |]. intros H _. simpl in *.
  destruct (isspace c); [| reflexivity].
  pose proof (lstrip_length (x ++ y)) as Hlen. rewrite H in Hlen. simpl in Hlen. lia.
Qed.

(** [strip] gives a contiguous part of the text. *)
Lemma strip_part_of t : part_of (strip t) t.
Proof.
  unfold strip.
  destruct (lstrip_suffix t) as [a Ha].
  destruct (lstrip_suffix (rev (lstrip t))) as [b Hb].
  exists a, (rev b).
  rewrite Ha at 1. f_equal.
  rewrite <- rev_app_distr, <- Hb. now rewrite rev_involutive.
Qed.

(** A text that neither starts nor ends with white space. *)
Definition clean (t : text) : Prop := lstrip t = t /\ lstrip (rev t) = rev t.

Lemma strip_clean t : clean (strip t).
Proof.
  unfold clean, strip. rewrite rev_involutive. split; [| apply lstrip_idempotent].
  destruct (lstrip (rev (lstrip t))) as [| c v] eqn:Hv; [reflexivity |].
  destruct (lstrip_suffix (rev (lstrip t))) as [b Hb]. rewrite Hv in Hb.
  apply (f_equal (@rev ascii)) in Hb. rewrite rev_involutive, rev_app_distr in Hb.
  apply (lstrip_front _ (rev b)).
  - rewrite <- Hb. apply lstrip_idempotent.
  - simpl. intros Hnil. apply app_eq_nil in Hnil. destruct Hnil as [_ Hnil]. discriminate.
Qed.

Lemma clean_strip t : clean t -> strip t = t.
Proof. intros [H1 H2]. unfold strip. now rewrite H1, H2, rev_involutive. Qed.

Lemma join_empty_concat docs : join [] docs = concat docs.
Proof.
  induction docs as [| d rest IH]; [reflexivity |].
  destruct rest as [| d' rest'].
  - simpl. now rewrite app_nil_r.
  - change (join [] (d :: d' :: rest')) with (d ++ [] ++ join [] (d' :: rest')).
    now rewrite IH.
Qed.

(** A chunk cut out of [t]: not empty, and the stripped form of a
    contiguous part of [t]. *)
Definition piece_of (t chunk : text) : Prop :=
  chunk <> [] /\ exists w, part_of w t /\ chunk = strip w.

Lemma piece_of_part s t chunk : part_of s t -> piece_of s chunk -> piece_of t chunk.
Proof.
  intros Hst (Hne & w & Hw & ->). split; [exact Hne |].
  exists w. split; [now apply part_of_trans with s | reflexivity].
Qed.

Lemma piece_of_spec t chunk :
  piece_of t chunk -> chunk <> [] /\ clean chunk /\ part_of chunk t.
Proof.
  intros (Hne & w & Hw & ->). split; [exact Hne |]. split; [apply strip_clean |].
  apply part_of_trans with w; [apply strip_part_of | exact Hw].
Qed.

Section Pieces.

Variables chunk_size chunk_overlap : Z.

Lemma emit_pieces S docs current :
  Forall (piece_of S) docs -> part_of (concat current) S ->
  Forall (piece_of S) (emit docs current []).
Proof.
  intros Hdocs Hcur. unfold emit, _join_docs, text_eqb.
  case_bool_decide as Hempty; [exact Hdocs |].
  apply Forall_app. split; [exact Hdocs |]. constructor; [| constructor].
  split; [exact Hempty |]. exists (concat current).
  split; [exact Hcur | now rewrite join_empty_concat].
Qed.

(** The loop that drops pieces from the front leaves a tail of the
    pieces. *)
Lemma drop_front_tail separator _len current tot current' tot' :
  drop_front chunk_size chunk_overlap separator _len current tot
  = Returned (current', tot') ->
  exists dropped, current = dropped ++ current'.
Proof.
  revert tot. induction current as [| d0 rest IH]; intros tot; cbn [drop_front].
  - destruct (_ || _); [discriminate |]. intros [= <- _]. now exists [].
  - destruct (_ || _).
    + intros H. destruct (IH _ H) as [dropped ->]. now exists (d0 :: dropped).
    + intros [= <- _]. now exists [].
Qed.

(** What [_merge_splits] keeps true of the text [S] its pieces make up:
    the pieces held and the pieces to come are a tail of [S], and every
    chunk made so far is cut out of [S]. *)
Definition merge_inv (S : text) (st : merging) (rest : list text) : Prop :=
  (exists before, S = before ++ concat (current_doc st) ++ concat rest)
  /\ Forall (piece_of S) (m_docs st).

Lemma merge_inv_current S st rest :
  merge_inv S st rest -> part_of (concat (current_doc st)) S.
Proof. intros [[before ->] _]. apply part_of_middle. Qed.

Lemma append_piece_inv S docs current tot d rest :
  (exists before, S = before ++ concat current ++ concat (d :: rest)) ->
  Forall (piece_of S) docs ->
  merge_inv S (append_piece [] docs current tot d) rest.
Proof.
  intros [before ->] Hdocs. split; [| exact Hdocs]. exists before. simpl.
  rewrite concat_app. simpl. now rewrite app_nil_r, <- !app_assoc.
Qed.

Lemma merge_step_pieces S st d rest st' :
  merge_step chunk_size chunk_overlap [] st d = Returned st' ->
  merge_inv S st (d :: rest) -> merge_inv S st' rest.
Proof.
  intros Hstep Hinv. pose proof (merge_inv_current _ _ _ Hinv) as Hpart.
  destruct Hinv as [Hbefore Hdocs]. unfold merge_step in Hstep.
  destruct (_ <? _)%Z.
  - destruct (current_doc st) as [| c0 cs] eqn:Hcur.
    + injection Hstep as <-. now apply append_piece_inv.
    + destruct (drop_front _ _ _ _ _ _) as [[current' tot'] | e] eqn:Hdrop;
        [| discriminate].
      simpl in Hstep. injection Hstep as <-.
      destruct (drop_front_tail _ _ _ _ _ _ Hdrop) as [dropped Hdropped].
      apply append_piece_inv.
      * destruct Hbefore as [before ->]. exists (before ++ concat dropped).
        rewrite Hdropped, concat_app. now rewrite <- !app_assoc.
      * now apply emit_pieces.
  - injection Hstep as <-. now apply append_piece_inv.
Qed.

Lemma merge_loop_pieces S splits st st' :
  merge_loop chunk_size chunk_overlap [] st splits = Returned st' ->
  merge_inv S st splits -> merge_inv S st' [].
Proof.
  revert st. induction splits as [| d rest IH]; intros st; simpl.
  - now intros [= <-].
  - destruct (merge_step _ _ _ st d) as [st1 | e] eqn:Hstep; [| discriminate].
    simpl. intros Hloop Hinv. apply (IH st1 Hloop).
    now apply (merge_step_pieces S st d rest).
Qed.

(** Every chunk [_merge_splits] makes is cut out of the text its pieces
    make up. *)
Lemma _merge_splits_pieces splits docs :
  _merge_splits chunk_size chunk_overlap splits [] = Returned docs ->
  Forall (piece_of (concat splits)) docs.
Proof.
  unfold _merge_splits.
  destruct (merge_loop _ _ _ _ splits) as [st | e] eqn:Hloop; [| discriminate].
  simpl. intros [= <-].
  assert (Hinv : merge_inv (concat splits) st []).
  { apply (merge_loop_pieces _ splits (mkMerging [] [] 0) st Hloop).
    split; [now exists [] | constructor]. }
  apply emit_pieces; [apply Hinv | now apply merge_inv_current with []].
Qed.

End Pieces.

Lemma starts_with_split sep t :
  starts_with sep t = true -> t = sep ++ drop (length sep) t.
Proof.
  revert t. induction sep as [| a sep IH]; intros [| b t]; simpl; try discriminate;
    [reflexivity.. |].
  intros H. apply andb_true_iff in H. destruct H as [Hab Hrest].
  apply Ascii.eqb_eq in Hab. subst b. f_equal. now apply IH.
Qed.

(** The items [re.split] returns make up the text again. *)
Lemma re_split_concat sep t skip piece :
  sep <> [] -> concat (re_split sep t skip piece) = piece ++ drop skip t.
Proof.
  intros Hsep. revert skip piece.
  induction t as [| c t IH]; intros skip piece.
  - simpl. rewrite drop_nil. now rewrite !app_nil_r.
  - destruct skip as [| k]; cbn [re_split].
    + destruct (starts_with sep (c :: t)) eqn:Hstart.
      * cbn [concat]. rewrite IH. cbn [app drop]. f_equal.
        destruct sep as [| a sep']; [congruence |].
        pose proof (starts_with_split (a :: sep') (c :: t) Hstart) as Hcut.
        cbn [length drop] in Hcut. cbn [length]. rewrite Nat.sub_succ, Nat.sub_0_r.
        symmetry. exact Hcut.
      * rewrite IH. simpl. now rewrite <- app_assoc.
    + rewrite IH. reflexivity.
Qed.

Lemma re_split_odd sep t skip piece :
  exists n, length (re_split sep t skip piece) = S (2 * n).
Proof.
  revert skip piece. induction t as [| c t IH]; intros skip piece.
  - now exists 0%nat.
  - destruct skip as [| k]; cbn [re_split]; [| apply IH].
    destruct (starts_with sep (c :: t)); [| apply IH].
    destruct (IH (length sep - 1)%nat []) as [n Hn].
    exists (S n). simpl. rewrite Hn. lia.
Qed.

Lemma glue_concat n : forall l, length l = (2 * n)%nat -> concat (glue l) = concat l.
Proof.
  induction n as [| n IH]; intros l Hl.
  - destruct l; [reflexivity | simpl in Hl; lia].
  - destruct l as [| s [| p rest]]; simpl in Hl; try lia.
    simpl. rewrite IH by lia. now rewrite <- app_assoc.
Qed.

Lemma concat_filter_nonempty (l : list text) :
  concat (filter (fun s => s <> []) l) = concat l.
Proof.
  induction l as [| s l IH]; [reflexivity |].
  rewrite filter_cons. case_decide as Hs.
  - cbn [concat]. f_equal. exact IH.
  - subst s. exact IH.
Qed.

(** The splits of a text make up the text again. *)
Lemma _split_text_with_regex_concat t separator :
  concat (_split_text_with_regex t separator) = t.
Proof.
  unfold _split_text_with_regex. rewrite concat_filter_nonempty.
  destruct separator as [| a sep'].
  - induction t as [| c t IH]; [reflexivity |]. simpl. now rewrite IH.
  - destruct (re_split_odd (a :: sep') t 0 []) as [n Hn].
    pose proof (re_split_concat (a :: sep') t 0 [] ltac:(discriminate)) as Hconcat.
    destruct (re_split (a :: sep') t 0 []) as [| first others]; [simpl in Hn; lia |].
    simpl in Hn. simpl in Hconcat. simpl.
    rewrite (glue_concat n) by lia. exact Hconcat.
Qed.

Section Splits.

Variables chunk_size chunk_overlap : Z.

(** What [_split_text] keeps true of the text [T] it splits: the splits
    held and the splits to come are a tail of [T], and every chunk made so
    far is cut out of [T]. *)
Definition split_inv (T : text) (st : splitting) (rest : list text) : Prop :=
  (exists before, T = before ++ concat (_good_splits st) ++ concat rest)
  /\ Forall (piece_of T) (final_chunks st).

(** The chunks of the recursive call are cut out of its text. *)
Definition recur_pieces (recur : text -> result (list text)) : Prop :=
  forall x chunks, recur x = Returned chunks -> Forall (piece_of x) chunks.

Lemma flush_pieces T st rest final :
  flush chunk_size chunk_overlap st = Returned final ->
  split_inv T st rest -> Forall (piece_of T) final.
Proof.
  intros Hflush [[before HT] Hfinal]. unfold flush in Hflush.
  destruct (_good_splits st) as [| g gs] eqn:Hg.
  - now injection Hflush as <-.
  - destruct (_merge_splits _ _ _ _) as [merged | e] eqn:Hm; [| discriminate].
    injection Hflush as <-. apply Forall_app. split; [exact Hfinal |].
    apply (_merge_splits_pieces _ _ _ _) in Hm.
    eapply Forall_impl; [exact Hm |]. intros chunk. apply piece_of_part.
    rewrite HT. apply part_of_middle.
Qed.

Lemma split_step_pieces T new_separators recur st s rest st' :
  split_step chunk_size chunk_overlap new_separators recur st s = Returned st' ->
  split_inv T st (s :: rest) ->
  small chunk_size s \/ (new_separators <> [] /\ recur_pieces recur) ->
  split_inv T st' rest.
Proof.
  intros Hstep Hinv Hcase. unfold split_step in Hstep.
  destruct (len s <? chunk_size)%Z eqn:Hs.
  - injection Hstep as <-. destruct Hinv as [[before ->] Hfinal].
    split; [| exact Hfinal]. exists before. simpl.
    rewrite concat_app. simpl. now rewrite app_nil_r, <- !app_assoc.
  - destruct Hcase as [Hsmall | [Hne Hrecur]];
      [unfold small in Hsmall; apply Z.ltb_ge in Hs; lia |].
    destruct (flush _ _ st) as [final | e] eqn:Hflush; [| discriminate].
    pose proof (flush_pieces T st (s :: rest) final Hflush Hinv) as Hfinal.
    destruct Hinv as [[before HT] _].
    simpl in Hstep. destruct new_separators as [| n ns]; [congruence |].
    destruct (recur s) as [other | e] eqn:Hother; [| discriminate].
    injection Hstep as <-. split; simpl.
    + exists (before ++ concat (_good_splits st) ++ s).
      rewrite HT. simpl. now rewrite <- !app_assoc.
    + apply Forall_app. split; [exact Hfinal |].
      eapply Forall_impl; [exact (Hrecur s other Hother) |].
      intros chunk. apply piece_of_part. rewrite HT. simpl.
      exists (before ++ concat (_good_splits st)), (concat rest).
      now rewrite <- !app_assoc.
Qed.

Lemma split_loop_pieces T new_separators recur splits st st' :
  split_loop chunk_size chunk_overlap new_separators recur st splits = Returned st' ->
  split_inv T st splits ->
  Forall (small chunk_size) splits \/ (new_separators <> [] /\ recur_pieces recur) ->
  split_inv T st' [].
Proof.
  revert st. induction splits as [| s rest IH]; intros st; simpl.
  - now intros [= <-].
  - destruct (split_step _ _ _ _ st s) as [st1 | e] eqn:Hstep; [| discriminate].
    simpl. intros Hloop Hinv Hcase. apply (IH st1 Hloop).
    + apply (split_step_pieces T new_separators recur st s rest st1 Hstep Hinv).
      destruct Hcase as [Hall | Hr]; [left; now inversion Hall | now right].
    + destruct Hcase as [Hall | Hr]; [left; now inversion Hall | now right].
Qed.

Lemma split_on_pieces separator new_separators recur t chunks :
  split_on chunk_size chunk_overlap separator new_separators recur t = Returned chunks ->
  Forall (small chunk_size) (_split_text_with_regex t separator)
  \/ (new_separators <> [] /\ recur_pieces recur) ->
  Forall (piece_of t) chunks.
Proof.
  unfold split_on. intros Hsplit Hcase.
  destruct (split_loop _ _ _ _ _ _) as [st | e] eqn:Hloop; [| discriminate].
  simpl in Hsplit. apply (flush_pieces t st [] chunks Hsplit).
  apply (split_loop_pieces t new_separators recur _ _ st Hloop); [| exact Hcase].
  split; [| constructor]. exists []. simpl.
  now rewrite _split_text_with_regex_concat.
Qed.

(** With the empty separator last in the list, every chunk of
    [_split_text] is cut out of the text. *)
Lemma _split_text_pieces separators t chunks :
  (1 < chunk_size)%Z ->
  last separators = Some [] ->
  _split_text chunk_size chunk_overlap separators t = Returned chunks ->
  Forall (piece_of t) chunks.
Proof.
  intros Hsize. revert t chunks.
  induction separators as [| _s rest IH]; intros t chunks Hlast; [discriminate |].
  cbn [_split_text]. unfold text_eqb. case_bool_decide as Hs.
  - intros Hsplit. apply (split_on_pieces _ _ _ _ _ Hsplit).
    left. now apply characters_small.
  - assert (Hrest : rest <> [] /\ last rest = Some []).
    { destruct rest as [| r rest']; [simpl in Hlast; congruence |].
      split; [discriminate | exact Hlast]. }
    destruct Hrest as [Hne Hlast'].
    destruct (contains _s t).
    + intros Hsplit. apply (split_on_pieces _ _ _ _ _ Hsplit).
      right. split; [exact Hne |]. intros x xs. now apply IH.
    + destruct rest as [| r rest']; [congruence |]. now apply IH.
Qed.

End Splits.

(** ** A text shorter than the chunk size *)

Lemma total_len_concat pieces : total_len pieces = len (concat pieces).
Proof.
  induction pieces as [| p rest IH]; [reflexivity |].
  simpl. now rewrite len_app, IH.
Qed.

Lemma len_le_total_len s pieces : s ∈ pieces -> (len s <= total_len pieces)%Z.
Proof.
  induction 1 as [s rest | s p rest _ IH]; simpl.
  - pose proof (total_len_nonneg rest). lia.
  - pose proof (len_nonneg p). lia.
Qed.

Section Short.

Variables chunk_size chunk_overlap : Z.

(** While everything fits, [_merge_splits] only collects the pieces. *)
Lemma merge_loop_fits splits st :
  total st = total_len (current_doc st) ->
  (total_len (current_doc st) + total_len splits <= chunk_size)%Z ->
  merge_loop chunk_size chunk_overlap [] st splits
  = Returned (mkMerging (m_docs st) (current_doc st ++ splits)
                        (total st + total_len splits)).
Proof.
  revert st. induction splits as [| d rest IH]; intros st Htot Hfit.
  - simpl. rewrite app_nil_r, Z.add_0_r. now destruct st.
  - simpl in Hfit. pose proof (total_len_nonneg rest) as Hrest.
    cbn [merge_loop]. unfold merge_step. rewrite sep_cost_empty, Htot.
    replace (chunk_size <? total_len (current_doc st) + len d + 0)%Z with false
      by (symmetry; apply Z.ltb_ge; lia).
    cbn [bind]. rewrite IH.
    + unfold append_piece. cbn [m_docs current_doc total].
      rewrite sep_cost_empty, <- app_assoc. simpl. f_equal. f_equal. lia.
    + unfold append_piece. cbn [current_doc total].
      rewrite sep_cost_empty, total_len_app. simpl. lia.
    + unfold append_piece. cbn [current_doc].
      rewrite total_len_app. simpl. lia.
Qed.

(** The one chunk of a text that fits: its stripped form, when that is not
    empty. *)
Definition whole (t : text) : list text :=
  if text_eqb (strip t) [] then [] else [strip t].

Lemma _merge_splits_fits splits :
  (total_len splits <= chunk_size)%Z ->
  _merge_splits chunk_size chunk_overlap splits [] = Returned (whole (concat splits)).
Proof.
  intros Hfit. unfold _merge_splits.
  rewrite (merge_loop_fits splits (mkMerging [] [] 0) eq_refl) by (simpl; lia).
  cbn [bind m_docs current_doc app]. unfold emit, _join_docs, whole.
  rewrite join_empty_concat. now destruct (text_eqb _ _).
Qed.

Lemma split_loop_small new_separators recur splits st :
  Forall (small chunk_size) splits ->
  split_loop chunk_size chunk_overlap new_separators recur st splits
  = Returned (mkSplitting (final_chunks st) (_good_splits st ++ splits)).
Proof.
  revert st. induction splits as [| s rest IH]; intros st Hsmall.
  - simpl. rewrite app_nil_r. now destruct st.
  - inversion Hsmall as [| ? ? Hs Hrest]; subst.
    cbn [split_loop]. unfold split_step.
    replace (len s <? chunk_size)%Z with true by (symmetry; now apply Z.ltb_lt).
    cbn [bind]. rewrite (IH _ Hrest). cbn [final_chunks _good_splits].
    now rewrite <- app_assoc.
Qed.

Lemma split_on_short separator new_separators recur t :
  (len t < chunk_size)%Z ->
  split_on chunk_size chunk_overlap separator new_separators recur t
  = Returned (whole t).
Proof.
  intros Hshort. unfold split_on.
  pose proof (_split_text_with_regex_concat t separator) as Hconcat.
  set (splits := _split_text_with_regex t separator) in *.
  assert (Htotal : total_len splits = len t) by now rewrite total_len_concat, Hconcat.
  rewrite split_loop_small.
  - cbn [bind]. unfold flush. cbn [_good_splits final_chunks app].
    destruct splits as [| s rest] eqn:Hsplits.
    + simpl in Hconcat. subst t. reflexivity.
    + rewrite _merge_splits_fits by lia. cbn [bind app]. now rewrite Hconcat.
  - apply Forall_forall. intros s Hs. unfold small.
    pose proof (len_le_total_len s splits Hs). lia.
Qed.

(** A text shorter than the chunk size is returned whole, stripped, as one
    chunk; as none when nothing but white space is in it. *)
Lemma _split_text_short separators t :
  separators <> [] ->
  (len t < chunk_size)%Z ->
  _split_text chunk_size chunk_overlap separators t = Returned (whole t).
Proof.
  intros Hne Hshort.
  induction separators as [| _s rest IH]; [congruence |].
  cbn [_split_text]. destruct (text_eqb _s []); [now apply split_on_short |].
  destruct (contains _s t); [now apply split_on_short |].
  destruct rest as [| r rest']; [now apply split_on_short |].
  apply IH. discriminate.
Qed.

End Short.

(** ** White space only *)

Lemma lstrip_blank t : forallb isspace t = true -> lstrip t = [].
Proof.
  induction t as [| c t IH]; [reflexivity |]. simpl.
  intros H. apply andb_true_iff in H. destruct H as [Hc Ht]. now rewrite Hc, IH.
Qed.

Lemma strip_blank t : forallb isspace t = true -> strip t = [].
Proof. intros H. unfold strip. now rewrite (lstrip_blank t H). Qed.

Lemma part_of_blank w t :
  part_of w t -> forallb isspace t = true -> forallb isspace w = true.
Proof.
  intros (a & b & ->) H. rewrite !forallb_app in H.
  apply andb_true_iff in H. destruct H as [_ H].
  apply andb_true_iff in H. now destruct H.
Qed.

Lemma piece_of_blank t chunk : forallb isspace t = true -> ~ piece_of t chunk.
Proof.
  intros Hblank (Hne & w & Hw & ->). apply Hne, strip_blank.
  now apply part_of_blank with t.
Qed.


(** ** Nothing but white space is left out *)

(** The characters of a text that are not white space, in order. *)
Definition ink (t : text) : text := List.filter (fun c => negb (isspace c)) t.

Lemma ink_app a b : ink (a ++ b) = ink a ++ ink b.
Proof. apply List.filter_app. Qed.

Lemma ink_lstrip t : ink (lstrip t) = ink t.
Proof.
  induction t as [| c t IH]; [reflexivity |]. simpl.
  destruct (isspace c) eqn:Hc; simpl; [exact IH | now rewrite Hc].
Qed.

Lemma ink_rev t : ink (rev t) = rev (ink t).
Proof.
  induction t as [| c t IH]; [reflexivity |]. simpl. rewrite ink_app, IH. simpl.
  destruct (isspace c); simpl; [now rewrite app_nil_r | reflexivity].
Qed.

Lemma ink_strip t : ink (strip t) = ink t.
Proof.
  unfold strip. now rewrite ink_rev, ink_lstrip, ink_rev, rev_involutive, ink_lstrip.
Qed.

Section Kept.

Variables chunk_size chunk_overlap : Z.

Lemma emit_ink docs current :
  ink (concat (emit docs current [])) = ink (concat docs) ++ ink (concat current).
Proof.
  unfold emit, _join_docs, text_eqb. rewrite join_empty_concat.
  case_bool_decide as Hempty.
  - rewrite <- (ink_strip (concat current)), Hempty. simpl. now rewrite app_nil_r.
  - rewrite concat_app, ink_app. simpl. now rewrite app_nil_r, ink_strip.
Qed.

(** What [_merge_splits] keeps true of the pieces [seen] so far: their
    ink is in the chunks made, followed by the pieces held that are in no
    chunk yet. *)
Definition merge_kept (seen : list text) (st : merging) : Prop :=
  exists old fresh,
    current_doc st = old ++ fresh
    /\ sublist (ink (concat seen)) (ink (concat (m_docs st)) ++ ink (concat fresh)).

Lemma append_piece_kept seen docs current old fresh tot d :
  current = old ++ fresh ->
  sublist (ink (concat seen)) (ink (concat docs) ++ ink (concat fresh)) ->
  merge_kept (seen ++ [d]) (append_piece [] docs current tot d).
Proof.
  intros -> Hkept. exists old, (fresh ++ [d]). split.
  - cbn [append_piece current_doc]. now rewrite <- app_assoc.
  - cbn [append_piece m_docs]. rewrite !concat_app, !ink_app, app_assoc.
    apply sublist_app; [exact Hkept | reflexivity].
Qed.

Lemma merge_step_kept seen st d st' :
  merge_step chunk_size chunk_overlap [] st d = Returned st' ->
  merge_kept seen st -> merge_kept (seen ++ [d]) st'.
Proof.
  intros Hstep (old & fresh & Hcur & Hkept). unfold merge_step in Hstep.
  destruct (_ <? _)%Z.
  - destruct (current_doc st) as [| c0 cs].
    + injection Hstep as <-. now apply (append_piece_kept seen _ _ old fresh).
    + destruct (drop_front _ _ _ _ _ _) as [[current' tot'] | e] eqn:Hdrop;
        [| discriminate].
      simpl in Hstep. injection Hstep as <-.
      apply (append_piece_kept seen _ _ current' []); [now rewrite app_nil_r |].
      rewrite emit_ink, Hcur, concat_app, ink_app. simpl. rewrite app_nil_r.
      etransitivity; [exact Hkept |].
      apply sublist_app; [reflexivity |]. apply sublist_inserts_l. reflexivity.
  - injection Hstep as <-. now apply (append_piece_kept seen _ _ old fresh).
Qed.

Lemma merge_loop_kept splits seen st st' :
  merge_loop chunk_size chunk_overlap [] st splits = Returned st' ->
  merge_kept seen st -> merge_kept (seen ++ splits) st'.
Proof.
  revert seen st. induction splits as [| d rest IH]; intros seen st; simpl.
  - intros [= <-]. now rewrite app_nil_r.
  - destruct (merge_step _ _ _ st d) as [st1 | e] eqn:Hstep; [| discriminate].
    simpl. intros Hloop Hkept.
    replace (seen ++ d :: rest) with ((seen ++ [d]) ++ rest)
      by now rewrite <- app_assoc.
    apply (IH _ st1 Hloop). now apply (merge_step_kept seen st d).
Qed.

(** The ink of the pieces is in the chunks [_merge_splits] makes. *)
Lemma _merge_splits_kept splits docs :
  _merge_splits chunk_size chunk_overlap splits [] = Returned docs ->
  sublist (ink (concat splits)) (ink (concat docs)).
Proof.
  unfold _merge_splits.
  destruct (merge_loop _ _ _ _ splits) as [st | e] eqn:Hloop; [| discriminate].
  simpl. intros [= <-].
  destruct (merge_loop_kept splits [] (mkMerging [] [] 0) st Hloop)
    as (old & fresh & Hcur & Hkept).
  { exists [], []. split; [reflexivity | constructor]. }
  rewrite emit_ink, Hcur, concat_app, ink_app. simpl in Hkept.
  etransitivity; [exact Hkept |].
  apply sublist_app; [reflexivity |]. apply sublist_inserts_l. reflexivity.
Qed.

(** What [_split_text] keeps true of the splits [seen] so far. *)
Definition split_kept (seen : list text) (st : splitting) : Prop :=
  sublist (ink (concat seen))
          (ink (concat (final_chunks st)) ++ ink (concat (_good_splits st))).

(** The recursive call keeps the ink of its text. *)
Definition recur_keeps (recur : text -> result (list text)) : Prop :=
  forall x chunks, recur x = Returned chunks -> sublist (ink x) (ink (concat chunks)).

Lemma flush_kept st final :
  flush chunk_size chunk_overlap st = Returned final ->
  sublist (ink (concat (final_chunks st)) ++ ink (concat (_good_splits st)))
          (ink (concat final)).
Proof.
  unfold flush. destruct (_good_splits st) as [| g gs] eqn:Hg.
  - intros [= <-]. simpl. now rewrite app_nil_r.
  - destruct (_merge_splits _ _ _ _) as [merged | e] eqn:Hm; [| discriminate].
    intros [= <-]. rewrite concat_app, ink_app.
    apply sublist_app; [reflexivity |]. now apply _merge_splits_kept.
Qed.

Lemma split_step_kept new_separators recur seen st s st' :
  split_step chunk_size chunk_overlap new_separators recur st s = Returned st' ->
  new_separators = [] \/ recur_keeps recur ->
  split_kept seen st -> split_kept (seen ++ [s]) st'.
Proof.
  unfold split_step, split_kept. intros Hstep Hcase Hkept.
  rewrite concat_app, ink_app. simpl. rewrite app_nil_r.
  destruct (len s <? chunk_size)%Z.
  - injection Hstep as <-. simpl. rewrite concat_app, ink_app, app_assoc. simpl.
    rewrite app_nil_r. apply sublist_app; [exact Hkept | reflexivity].
  - destruct (flush _ _ st) as [final | e] eqn:Hflush; [| discriminate].
    apply flush_kept in Hflush. simpl in Hstep.
    assert (Hfinal : sublist (ink (concat seen)) (ink (concat final)))
      by (etransitivity; eassumption).
    destruct new_separators as [| n ns].
    + injection Hstep as <-. simpl. rewrite app_nil_r, concat_app, ink_app. simpl.
      rewrite app_nil_r. apply sublist_app; [exact Hfinal | reflexivity].
    + destruct Hcase as [Hnil | Hrecur]; [discriminate |].
      destruct (recur s) as [other | e] eqn:Hother; [| discriminate].
      injection Hstep as <-. simpl. rewrite app_nil_r, concat_app, ink_app.
      apply sublist_app; [exact Hfinal | now apply Hrecur].
Qed.

Lemma split_loop_kept new_separators recur splits seen st st' :
  split_loop chunk_size chunk_overlap new_separators recur st splits = Returned st' ->
  new_separators = [] \/ recur_keeps recur ->
  split_kept seen st -> split_kept (seen ++ splits) st'.
Proof.
  revert seen st. induction splits as [| s rest IH]; intros seen st; simpl.
  - intros [= <-] _. now rewrite app_nil_r.
  - destruct (split_step _ _ _ _ st s) as [st1 | e] eqn:Hstep; [| discriminate].
    simpl. intros Hloop Hcase Hkept.
    replace (seen ++ s :: rest) with ((seen ++ [s]) ++ rest)
      by now rewrite <- app_assoc.
    apply (IH _ st1 Hloop Hcase).
    now apply (split_step_kept new_separators recur seen st s).
Qed.

Lemma split_on_kept separator new_separators recur t chunks :
  split_on chunk_size chunk_overlap separator new_separators recur t = Returned chunks ->
  new_separators = [] \/ recur_keeps recur ->
  sublist (ink t) (ink (concat chunks)).
Proof.
  unfold split_on. intros Hsplit Hcase.
  destruct (split_loop _ _ _ _ _ _) as [st | e] eqn:Hloop; [| discriminate].
  simpl in Hsplit. apply flush_kept in Hsplit.
  pose proof (split_loop_kept _ _ _ [] _ st Hloop Hcase) as Hkept.
  unfold split_kept in Hkept. simpl in Hkept.
  rewrite _split_text_with_regex_concat in Hkept.
  etransitivity; [apply Hkept; constructor | exact Hsplit].
Qed.

(** Read one after the other, the chunks of [_split_text] hold every
    character of the text that is not white space, in the order of the
    text. *)
Lemma _split_text_kept separators t chunks :
  _split_text chunk_size chunk_overlap separators t = Returned chunks ->
  sublist (ink t) (ink (concat chunks)).
Proof.
  revert t chunks. induction separators as [| _s rest IH]; intros t chunks;
    [discriminate |].
  cbn [_split_text]. destruct (text_eqb _s []).
  - intros Hsplit. apply (split_on_kept _ _ _ _ _ Hsplit). now left.
  - destruct (contains _s t).
    + intros Hsplit. apply (split_on_kept _ _ _ _ _ Hsplit). right. exact IH.
    + destruct rest as [| r rest'].
      * intros Hsplit. apply (split_on_kept _ _ _ _ _ Hsplit). now left.
      * apply IH.
Qed.

End Kept.

End SplitterContent.


Module ChunkContent.

Import Constants Ingest TextSplitter Str SplitterFacts SplitterContent.
Local Open Scope list_scope.

(** [x in t]: [x] is a contiguous part of [t]. *)
Definition substring_of (x t : string) : Prop :=
  exists a b, t = (a ++ x ++ b)%string.

(** Nothing but white space. *)
Definition blank (s : string) : bool := forallb isspace (list_ascii_of_string s).

Lemma string_of_list_ascii_app a b :
  string_of_list_ascii (a ++ b)
  = (string_of_list_ascii a ++ string_of_list_ascii b)%string.
Proof. induction a as [| c a IH]; [reflexivity |]. simpl. now rewrite IH. Qed.

Lemma part_of_substring piece s :
  part_of piece (list_ascii_of_string s) ->
  substring_of (string_of_list_ascii piece) s.
Proof.
  intros (a & b & H). exists (string_of_list_ascii a), (string_of_list_ascii b).
  rewrite <- !string_of_list_ascii_app, <- H.
  now rewrite string_of_list_ascii_of_string.
Qed.

Lemma string_of_list_ascii_empty l : string_of_list_ascii l = EmptyString -> l = [].
Proof. destruct l; [reflexivity | discriminate]. Qed.

(** [_chunk] returns what the splitter returns, after one printed line. *)
Lemma _chunk_returns docs w chunks :
  split_documents CHUNK_SIZE CHUNK_OVERLAP docs = Returned chunks ->
  _chunk docs w
  = (Returned chunks,
     mkWorld (store w)
             (stdout w ++ [("INGEST: chunking " ++ pretty (length docs)
                            ++ " documents")%string])).
Proof. intros H. unfold _chunk, seq, print, ret. cbn. now rewrite H. Qed.

(** Every chunk of [split_documents] is made from one piece of the text of
    one of the documents, and has the metadata of that document. *)
Lemma split_documents_origin chunk_size chunk_overlap docs chunks :
  split_documents chunk_size chunk_overlap docs = Returned chunks ->
  forall c, c ∈ chunks ->
  exists d pieces piece,
    d ∈ docs
    /\ split_text chunk_size chunk_overlap (list_ascii_of_string (page_content d))
       = Returned pieces
    /\ piece ∈ pieces
    /\ c = mkDocument (string_of_list_ascii piece) (metadata d).
Proof.
  revert chunks. induction docs as [| d rest IH]; intros chunks; simpl.
  - intros [= <-] c Hc. inversion Hc.
  - unfold chunks_of.
    destruct (split_text _ _ _) as [pieces | e] eqn:Hsplit; [| discriminate].
    cbn [bind].
    destruct (split_documents _ _ rest) as [more | e] eqn:Hmore; [| discriminate].
    cbn [bind]. intros [= <-] c Hc. apply elem_of_app in Hc.
    destruct Hc as [Hc | Hc].
    + apply list_elem_of_fmap in Hc. destruct Hc as (piece & -> & Hpiece).
      exists d, pieces, piece. repeat split; [apply list_elem_of_here | assumption..].
    + destruct (IH more eq_refl c Hc) as (d' & pieces' & piece & Hd & Hs & Hp & ->).
      exists d', pieces', piece. repeat split; [now apply list_elem_of_further | assumption..].
Qed.

Lemma chunk_size_ok : (1 < CHUNK_SIZE)%Z.
Proof. unfold CHUNK_SIZE. lia. Qed.

Lemma chunk_overlap_ok : (0 <= CHUNK_OVERLAP)%Z.
Proof. unfold CHUNK_OVERLAP. lia. Qed.

(** The pieces behind the chunks of [_chunk] are cut out of the texts. *)
Lemma chunk_pieces docs chunks c :
  split_documents CHUNK_SIZE CHUNK_OVERLAP docs = Returned chunks ->
  c ∈ chunks ->
  exists d piece,
    d ∈ docs
    /\ piece_of (list_ascii_of_string (page_content d)) piece
    /\ c = mkDocument (string_of_list_ascii piece) (metadata d).
Proof.
  intros Hsplit Hc.
  destruct (split_documents_origin _ _ _ _ Hsplit c Hc)
    as (d & pieces & piece & Hd & Hpieces & Hpiece & ->).
  exists d, piece. split; [exact Hd |]. split; [| reflexivity].
  unfold split_text in Hpieces.
  pose proof (_split_text_pieces CHUNK_SIZE CHUNK_OVERLAP separators _ pieces
                chunk_size_ok eq_refl Hpieces) as Hall.
  rewrite Forall_forall in Hall. now apply Hall.
Qed.

(** X2. [_chunk] returns, and every chunk is a contiguous part of the text
    of one of the input documents and carries the metadata of that
    document. *)
Theorem chunks_are_parts_of_their_documents (docs : list Document) (w : World) :
  exists chunks w',
    _chunk docs w = (Returned chunks, w')
    /\ forall c, c ∈ chunks ->
       exists d, d ∈ docs
                 /\ metadata c = metadata d
                 /\ substring_of (page_content c) (page_content d).
Proof.
  destruct (split_documents_bounded CHUNK_SIZE CHUNK_OVERLAP chunk_size_ok
              chunk_overlap_ok docs) as (chunks & Hsplit & _).
  exists chunks. eexists. split; [now apply _chunk_returns |].
  intros c Hc.
  destruct (chunk_pieces docs chunks c Hsplit Hc) as (d & piece & Hd & Hpiece & ->).
  exists d. split; [exact Hd |]. split; [reflexivity |].
  apply part_of_substring. now apply piece_of_spec.
Qed.

(** X3. [_chunk] returns, and no chunk is empty or starts or ends with
    white space: stripping a chunk gives the chunk. *)
Theorem chunks_are_stripped (docs : list Document) (w : World) :
  exists chunks w',
    _chunk docs w = (Returned chunks, w')
    /\ forall c, c ∈ chunks ->
       page_content c <> EmptyString /\ strip_str (page_content c) = page_content c.
Proof.
  destruct (split_documents_bounded CHUNK_SIZE CHUNK_OVERLAP chunk_size_ok
              chunk_overlap_ok docs) as (chunks & Hsplit & _).
  exists chunks. eexists. split; [now apply _chunk_returns |].
  intros c Hc.
  destruct (chunk_pieces docs chunks c Hsplit Hc) as (d & piece & Hd & Hpiece & ->).
  apply piece_of_spec in Hpiece. destruct Hpiece as (Hne & Hclean & _).
  cbn [page_content]. split.
  - intros Hempty. now apply Hne, string_of_list_ascii_empty.
  - unfold strip_str. rewrite list_ascii_of_string_of_list_ascii.
    now rewrite clean_strip.
Qed.

(** X4. Documents that hold nothing but white space (empty ones among them)
    give no chunk at all. *)
Theorem blank_documents_give_no_chunks (docs : list Document) (w : World) :
  Forall (fun d => blank (page_content d) = true) docs ->
  exists w', _chunk docs w = (Returned [], w').
Proof.
  intros Hblank.
  destruct (split_documents_bounded CHUNK_SIZE CHUNK_OVERLAP chunk_size_ok
              chunk_overlap_ok docs) as (chunks & Hsplit & _).
  eexists. rewrite (_chunk_returns docs w chunks Hsplit). f_equal. f_equal.
  destruct chunks as [| c rest]; [reflexivity |].
  destruct (chunk_pieces docs (c :: rest) c Hsplit (list_elem_of_here _ _))
    as (d & piece & Hd & Hpiece & _).
  rewrite Forall_forall in Hblank. specialize (Hblank d Hd).
  now apply piece_of_blank in Hpiece.
Qed.

(** The one chunk of a short document. *)
Definition whole_document (d : Document) : list Document :=
  if String.eqb (strip_str (page_content d)) EmptyString then []
  else [mkDocument (strip_str (page_content d)) (metadata d)].

Lemma chunks_of_short d :
  (String.length (page_content d) < 500)%nat ->
  chunks_of CHUNK_SIZE CHUNK_OVERLAP d = Returned (whole_document d).
Proof.
  intros Hshort. unfold chunks_of, split_text.
  rewrite _split_text_short.
  - cbn [bind]. unfold whole, whole_document, strip_str, text_eqb. f_equal.
    case_bool_decide as Hs.
    + rewrite Hs. reflexivity.
    + destruct (String.eqb_spec (string_of_list_ascii
                                   (strip (list_ascii_of_string (page_content d))))
                                EmptyString) as [Hempty | _]; [| reflexivity].
      now apply string_of_list_ascii_empty in Hempty.
  - discriminate.
  - unfold len, CHUNK_SIZE.
    assert (Hlen : length (list_ascii_of_string (page_content d))
                   = String.length (page_content d)).
    { rewrite <- (string_of_list_ascii_of_string (page_content d)) at 2.
      now rewrite string_of_list_ascii_length. }
    rewrite Hlen. lia.
Qed.

(** X5. Documents shorter than the chunk size are not cut: each gives one
    chunk, its stripped text with its metadata, or none when it is blank,
    in the order of the documents. *)
Theorem short_documents_stay_whole (docs : list Document) (w : World) :
  Forall (fun d => (String.length (page_content d) < 500)%nat) docs ->
  exists w', _chunk docs w = (Returned (flat_map whole_document docs), w').
Proof.
  intros Hshort. eexists. apply _chunk_returns.
  induction Hshort as [| d rest Hd _ IH]; [reflexivity |].
  cbn [split_documents flat_map]. rewrite (chunks_of_short d Hd), IH. reflexivity.
Qed.

(** The texts of a list of documents, one after the other. *)
Definition text_of (docs : list Document) : text :=
  concat (map (fun d => list_ascii_of_string (page_content d)) docs).

Lemma text_of_app a b : text_of (a ++ b) = text_of a ++ text_of b.
Proof. unfold text_of. now rewrite map_app, concat_app. Qed.

Lemma chunks_of_kept d cs :
  chunks_of CHUNK_SIZE CHUNK_OVERLAP d = Returned cs ->
  sublist (ink (list_ascii_of_string (page_content d))) (ink (text_of cs)).
Proof.
  unfold chunks_of, split_text.
  destruct (_split_text _ _ _ _) as [pieces | e] eqn:Hsplit; [| discriminate].
  cbn [bind]. intros [= <-].
  apply _split_text_kept in Hsplit.
  replace (text_of (map _ pieces)) with (concat pieces); [exact Hsplit |].
  unfold text_of. rewrite map_map. f_equal. clear Hsplit.
  induction pieces as [| p rest IH]; [reflexivity |].
  cbn [map page_content]. rewrite list_ascii_of_string_of_list_ascii.
  f_equal. exact IH.
Qed.

Lemma split_documents_kept docs chunks :
  split_documents CHUNK_SIZE CHUNK_OVERLAP docs = Returned chunks ->
  sublist (ink (text_of docs)) (ink (text_of chunks)).
Proof.
  revert chunks. induction docs as [| d rest IH]; intros chunks;
    cbn [split_documents].
  - now intros [= <-].
  - destruct (chunks_of _ _ d) as [cs | e] eqn:Hcs; [| discriminate]. cbn [bind].
    destruct (split_documents _ _ rest) as [more | e]; [| discriminate].
    cbn [bind]. intros [= <-].
    rewrite text_of_app, ink_app. unfold text_of at 1. cbn [map concat].
    rewrite ink_app. apply sublist_app; [now apply chunks_of_kept | now apply IH].
Qed.

(** X6. [_chunk] leaves out nothing but white space: read one after the
    other, the chunks hold every character of the documents that is not
    white space, in the order of the documents (the overlaps of the chunks
    hold some of them again). *)
Theorem nothing_but_white_space_is_left_out (docs : list Document) (w : World) :
  exists chunks w',
    _chunk docs w = (Returned chunks, w')
    /\ sublist (ink (text_of docs)) (ink (text_of chunks)).
Proof.
  destruct (split_documents_bounded CHUNK_SIZE CHUNK_OVERLAP chunk_size_ok
              chunk_overlap_ok docs) as (chunks & Hsplit & _).
  exists chunks. eexists. split; [now apply _chunk_returns |].
  now apply split_documents_kept.
Qed.

End ChunkContent.


(** * More on the loader *)

Module LoadingMore.

Import Loading LoadingFacts.
Local Open Scope list_scope.

Section WithFiles.

Variable isdir : string -> bool.
Variable load : loader -> string -> result (list Document).

(** The line printed for a file whose loader raises. *)
Definition failure_line (path : string) : string :=
  ("INGEST ERROR: failed to load " ++ path)%string.

(** The files a loader is run on and raises. *)
Definition fails (path : string) : bool :=
  if isdir path || startswith_dot (basename path) then false
  else
    match select_loader (lower (snd (splitext path))) with
    | Some L =>
        match load L path with
        | Returned _ => false
        | Raised _ => true
        end
    | None => false
    end.

Lemma load_path_printed acc path :
  printed (load_path isdir load acc path)
  = printed acc ++ (if fails path then [failure_line path] else []).
Proof.
  unfold load_path, fails.
  destruct (isdir path || startswith_dot (basename path)); simpl;
    [now rewrite app_nil_r |].
  destruct (select_loader _); simpl; [| now rewrite app_nil_r].
  destruct (load _ _); simpl; [now rewrite app_nil_r | reflexivity].
Qed.

Lemma fold_printed paths acc :
  printed (fold_left (load_path isdir load) paths acc)
  = printed acc ++ map failure_line (List.filter fails paths).
Proof.
  revert acc. induction paths as [| p paths IH]; intros acc; simpl.
  - now rewrite app_nil_r.
  - rewrite IH, load_path_printed. destruct (fails p); simpl.
    + now rewrite <- app_assoc.
    + now rewrite app_nil_r.
Qed.

Lemma loads_spec path ds :
  loads isdir load path = Some ds <->
  isdir path = false
  /\ startswith_dot (basename path) = false
  /\ exists L, select_loader (lower (snd (splitext path))) = Some L
               /\ load L path = Returned ds.
Proof.
  unfold loads. destruct (isdir path); simpl; [split; [discriminate | intros [? _]; discriminate] |].
  destruct (startswith_dot (basename path)); simpl;
    [split; [discriminate | intros (_ & ? & _); discriminate] |].
  destruct (select_loader _) as [L |].
  - destruct (load L path) as [ds' | e] eqn:Hload.
    + split.
      * intros [= <-]. repeat split. now exists L.
      * intros (_ & _ & L' & [= <-] & Hl). congruence.
    + split; [discriminate |]. intros (_ & _ & L' & [= <-] & Hl). congruence.
  - split; [discriminate |]. intros (_ & _ & L' & HL & _). discriminate.
Qed.

(** X7. The file paths [_load_docs] returns are, in the order of the
    listing, the listed paths that are no directory, not hidden, have a
    supported extension and whose loader returned. *)
Theorem loaded_files_are_the_readable_supported_files (paths : list string) :
  sublist (file_paths (_load_docs isdir load paths)) paths
  /\ forall p,
       p ∈ file_paths (_load_docs isdir load paths) <->
       p ∈ paths
       /\ isdir p = false
       /\ startswith_dot (basename p) = false
       /\ exists L ds, select_loader (lower (snd (splitext p))) = Some L
                       /\ load L p = Returned ds.
Proof.
  rewrite _load_docs_file_paths. split.
  - induction paths as [| q paths IH]; simpl; [constructor |].
    destruct (bool_decide _); [now apply sublist_skip | now apply sublist_cons].
  - intros p. rewrite list_elem_of_In, List.filter_In, <- list_elem_of_In.
    rewrite bool_decide_eq_true. unfold is_Some.
    split.
    + intros (Hp & ds & Hds). apply loads_spec in Hds.
      destruct Hds as (Hd & Hh & L & HL & Hl). eauto 10.
    + intros (Hp & Hd & Hh & L & ds & HL & Hl). split; [exact Hp |].
      exists ds. apply loads_spec. eauto 10.
Qed.

(** X8. The documents [_load_docs] returns are those of the files whose
    paths it returns, file after file in that order. *)
Theorem loaded_documents_are_those_of_the_loaded_files (paths : list string) :
  docs (_load_docs isdir load paths)
  = concat (map (fun p => default [] (loads isdir load p))
                (file_paths (_load_docs isdir load paths))).
Proof.
  rewrite _load_docs_docs, _load_docs_file_paths.
  induction paths as [| p paths IH]; [reflexivity |]. simpl.
  destruct (loads isdir load p) as [ds |] eqn:Hp; simpl.
  - rewrite Hp. simpl. now rewrite IH.
  - exact IH.
Qed.

(** X9. [_load_docs] prints one line for every listed file whose loader
    raised, in the order of the listing, and nothing else: directories,
    hidden files and files with another extension are passed over in
    silence, and every listed path is returned, reported or passed over. *)
Theorem only_failures_are_printed (paths : list string) :
  printed (_load_docs isdir load paths) = map failure_line (List.filter fails paths)
  /\ (length (file_paths (_load_docs isdir load paths))
      + length (printed (_load_docs isdir load paths)) <= length paths)%nat.
Proof.
  unfold _load_docs at 1 3. rewrite fold_printed. simpl.
  split; [reflexivity |].
  rewrite _load_docs_file_paths, length_map.
  induction paths as [| p paths IH]; simpl; [lia |].
  assert (Hexcl : bool_decide (is_Some (loads isdir load p)) && fails p = false).
  { unfold loads, fails.
    destruct (isdir p || startswith_dot (basename p)); [reflexivity |].
    destruct (select_loader _); [| reflexivity].
    destruct (load _ _); reflexivity. }
  destruct (bool_decide _), (fails p); simpl in *; try discriminate; lia.
Qed.

End WithFiles.

End LoadingMore.


(** * More on the ingestion run *)

Module IngestMore.

Import Constants Loading Ingest TextSplitter Str IndexFacts.
Local Open Scope list_scope.

(** [_create_index] returns; afterwards the index is valid, the rows and
    the indexes of other names are as before, and a valid index is left as
    it is. *)
Lemma _create_index_after (w : World) :
  exists w',
    _create_index w = (Returned tt, w')
    /\ is_Some (indexes (store w') !! INDEX_NAME)
    /\ entries (store w') = entries (store w)
    /\ (forall n, n <> INDEX_NAME ->
                  indexes (store w') !! n = indexes (store w) !! n)
    /\ (is_Some (indexes (store w) !! INDEX_NAME) -> store w' = store w).
Proof.
  destruct (indexes (store w) !! INDEX_NAME) as [idx |] eqn:Hidx.
  - eexists. split; [apply _create_index_present; rewrite Hidx; eauto |].
    cbn [store]. rewrite Hidx. eauto 6.
  - eexists. split; [now apply _create_index_absent |].
    cbn [store indexes entries builds]. rewrite lookup_insert_eq.
    split; [eauto |]. split; [reflexivity |]. split.
    + intros n Hn. now rewrite lookup_insert_ne.
    + intros [idx Hsome]. discriminate.
Qed.

(** X10. [_create_index] returns, and afterwards an index of the configured
    name is valid; the rows of the table and the indexes of other names are
    as before; and when no index of that name was there, the one built is
    the HNSW index on cosine distance with the configured parameters. *)
Theorem create_index_leaves_the_rest_alone (w : World) :
  exists w',
    _create_index w = (Returned tt, w')
    /\ is_Some (indexes (store w') !! INDEX_NAME)
    /\ entries (store w') = entries (store w)
    /\ (forall n, n <> INDEX_NAME ->
                  indexes (store w') !! n = indexes (store w) !! n)
    /\ (indexes (store w) !! INDEX_NAME = None ->
        indexes (store w') !! INDEX_NAME
        = Some (mkHNSWIndex "hnsw_index" COSINE_DISTANCE 64 16)
        /\ builds (store w') = builds (store w) ++ [the_index]).
Proof.
  destruct (indexes (store w) !! INDEX_NAME) as [idx |] eqn:Hidx.
  - eexists. split; [apply _create_index_present; rewrite Hidx; eauto |].
    cbn [store]. rewrite Hidx.
    split; [eauto |]. split; [reflexivity |]. split; [reflexivity |]. discriminate.
  - eexists. split; [now apply _create_index_absent |].
    cbn [store indexes entries builds]. rewrite lookup_insert_eq.
    split; [eauto |]. split; [reflexivity |]. split.
    + intros n Hn. now rewrite lookup_insert_ne.
    + intros _. split; reflexivity.
Qed.

Section WithEnvironment.

Variable paths : list string.
Variable isdir : string -> bool.
Variable load : loader -> string -> result (list Document).
Variable get_vector_store : result unit.
Variable embed_documents : list string -> result (list (list Q)).

Local Abbreviation run := (run_ingest_async paths isdir load get_vector_store embed_documents).
Local Abbreviation loaded := (_load_docs isdir load paths).

Lemma print_lines lines w :
  fold_right (fun line k => print line ;;; k) (ret tt) lines w
  = (Returned tt, mkWorld (store w) (stdout w ++ lines)).
Proof.
  revert w. induction lines as [| line lines IH]; intros w.
  - destruct w. cbn. now rewrite app_nil_r.
  - cbn [fold_right]. unfold seq at 1. unfold print at 1.
    rewrite IH. cbn [store stdout]. now rewrite <- app_assoc.
Qed.

(** The chunks of the documents loaded. *)
Lemma loaded_chunks :
  exists chunks,
    split_documents CHUNK_SIZE CHUNK_OVERLAP (docs loaded) = Returned chunks
    /\ Forall (fun c => (String.length (page_content c) <= 500)%nat) chunks.
Proof.
  destruct (SplitterFacts.split_documents_bounded CHUNK_SIZE CHUNK_OVERLAP
              ltac:(unfold CHUNK_SIZE; lia) ltac:(unfold CHUNK_OVERLAP; lia)
              (docs loaded)) as (chunks & Hsplit & Hbound).
  exists chunks. split; [exact Hsplit |].
  eapply Forall_impl; [exact Hbound |]. intros c Hc. cbv beta in Hc.
  unfold SplitterFacts.chunk_bounded, CHUNK_SIZE in Hc. lia.
Qed.

(** The run, step by step. *)
Lemma run_ingest_async_steps w chunks :
  split_documents CHUNK_SIZE CHUNK_OVERLAP (docs loaded) = Returned chunks ->
  exists out,
    run w =
    match get_vector_store with
    | Raised e => (Raised e, mkWorld (store w) out)
    | Returned _ =>
        match embed_documents (map page_content chunks) with
        | Raised e => (Raised e, mkWorld (store w) out)
        | Returned vectors =>
            let (r, w') :=
              _create_index
                (mkWorld (mkStore (entries (store w) ++ zip chunks vectors)
                                  (indexes (store w)) (builds (store w)))
                         (out ++ [("INGEST: " ++ pretty (length (docs loaded))
                                   ++ " docs, " ++ pretty (length chunks)
                                   ++ " chunks")%string])) in
            (bind r (fun _ => Returned (mkStats (length (docs loaded)) (length chunks)
                                                (file_paths loaded))), w')
        end
    end.
Proof.
  intros Hsplit. eexists.
  unfold run_ingest_async. cbv zeta. unfold seq at 1. rewrite print_lines.
  unfold seq at 1. rewrite (ChunkContent._chunk_returns _ _ chunks Hsplit).
  unfold seq at 1. unfold lift at 1.
  destruct get_vector_store as [[] | e]; [| reflexivity].
  unfold seq at 1. unfold aadd_documents, seq at 1, lift.
  destruct (embed_documents (map page_content chunks)) as [vectors | e];
    [| reflexivity].
  cbn [store stdout]. unfold seq at 1. unfold print at 1. cbn [store stdout].
  unfold seq at 1.
  match goal with
  | |- (let (_, _) := ?c in _) = (let (_, _) := ?c' in _) =>
      change c' with c; destruct c as [[[] | e] w']
  end; reflexivity.
Qed.

(** X11. When [run_ingest_async] raises, the exception is the one of
    [get_vector_store] or the one of the embedding of the chunks, and the
    table is as before the run: loaders that fail and the chunking never
    end a run.  (The statements on the table, once the store is there, are
    taken to succeed.) *)
Theorem ingest_raises_only_for_store_or_embedding (w w' : World) (e : string) :
  run w = (Raised e, w') ->
  (get_vector_store = Raised e
   \/ exists chunks,
        split_documents CHUNK_SIZE CHUNK_OVERLAP (docs loaded) = Returned chunks
        /\ embed_documents (map page_content chunks) = Raised e)
  /\ store w' = store w.
Proof.
  destruct loaded_chunks as (chunks & Hsplit & _).
  destruct (run_ingest_async_steps w chunks Hsplit) as (out & ->).
  destruct get_vector_store as [[] | e0].
  - destruct (embed_documents (map page_content chunks)) as [vectors | e1] eqn:Hembed.
    + match goal with
      | |- (let (_, _) := _create_index ?w0 in _) = _ -> _ =>
          destruct (_create_index_after w0) as (w1 & -> & _)
      end.
      discriminate.
    + intros [= <- <-]. split; [| reflexivity]. right. eauto.
  - intros [= <- <-]. split; [| reflexivity]. now left.
Qed.

(** X12. When the vector store can be reached and the embedding service
    answers, [run_ingest_async] returns, whatever the files and their
    loaders do (the statements on the table are taken to succeed).  Afterwards the index is valid, the indexes of other names
    are as before, and the rows of the table are those of before followed
    by rows of the run: at most one for each chunk counted in the
    statistics, each with a text of at most 500 characters. *)
Theorem ingest_returns_when_store_and_embedding_answer (w : World) :
  get_vector_store = Returned tt ->
  (forall texts, exists vectors, embed_documents texts = Returned vectors) ->
  exists stats w' added,
    run w = (Returned stats, w')
    /\ is_Some (indexes (store w') !! INDEX_NAME)
    /\ (forall n, n <> INDEX_NAME ->
                  indexes (store w') !! n = indexes (store w) !! n)
    /\ entries (store w') = entries (store w) ++ added
    /\ (length added <= chunks stats)%nat
    /\ Forall (fun row => (String.length (page_content (fst row)) <= 500)%nat) added.
Proof.
  intros Hstore Hembed.
  destruct loaded_chunks as (chunks & Hsplit & Hbound).
  destruct (run_ingest_async_steps w chunks Hsplit) as (out & Hrun).
  destruct (Hembed (map page_content chunks)) as (vectors & Hvectors).
  rewrite Hstore, Hvectors in Hrun.
  match type of Hrun with
  | _ = (let (_, _) := _create_index ?w0 in _) =>
      destruct (_create_index_after w0)
        as (w1 & Hindex & Hvalid & Hentries & Hothers & _)
  end.
  rewrite Hindex in Hrun. cbn [bind] in Hrun.
  eexists. exists w1, (zip chunks vectors).
  split; [rewrite Hstore; exact Hrun |].
  cbn [store entries indexes Ingest.chunks] in *.
  split; [exact Hvalid |]. split; [exact Hothers |]. split; [exact Hentries |].
  split.
  - rewrite length_zip_with. lia.
  - apply Forall_forall. intros [c v] Hrow. cbn [fst].
    eapply Forall_forall in Hbound; [exact Hbound |].
    eapply elem_of_zip_l. exact Hrow.
Qed.

(** A run that returned: the chunks were made and embedded, the rows
    appended, and [_create_index] was the last step. *)
Lemma run_ingest_async_returned w stats w' :
  run w = (Returned stats, w') ->
  exists chunks vectors out,
    split_documents CHUNK_SIZE CHUNK_OVERLAP (docs loaded) = Returned chunks
    /\ get_vector_store = Returned tt
    /\ embed_documents (map page_content chunks) = Returned vectors
    /\ stats = mkStats (length (docs loaded)) (length chunks) (file_paths loaded)
    /\ _create_index
         (mkWorld (mkStore (entries (store w) ++ zip chunks vectors)
                           (indexes (store w)) (builds (store w))) out)
       = (Returned tt, w').
Proof.
  destruct loaded_chunks as (chunks & Hsplit & _).
  destruct (run_ingest_async_steps w chunks Hsplit) as (out & ->).
  destruct get_vector_store as [[] | e0]; [| discriminate].
  destruct (embed_documents (map page_content chunks)) as [vectors | e1] eqn:Hembed;
    [| discriminate].
  match goal with
  | |- (let (_, _) := _create_index ?w0 in _) = _ -> _ =>
      destruct (_create_index_after w0) as (w1 & Hindex & _); rewrite Hindex
  end.
  cbn [bind]. intros [= <- <-]. exists chunks, vectors. eauto 10.
Qed.

(** With the table reached and the chunks embedded, the run returns. *)
Lemma run_ingest_async_returns w chunks vectors :
  split_documents CHUNK_SIZE CHUNK_OVERLAP (docs loaded) = Returned chunks ->
  get_vector_store = Returned tt ->
  embed_documents (map page_content chunks) = Returned vectors ->
  exists out w',
    _create_index
      (mkWorld (mkStore (entries (store w) ++ zip chunks vectors)
                        (indexes (store w)) (builds (store w))) out)
    = (Returned tt, w')
    /\ run w = (Returned (mkStats (length (docs loaded)) (length chunks)
                                  (file_paths loaded)), w').
Proof.
  intros Hsplit Hstore Hembed.
  destruct (run_ingest_async_steps w chunks Hsplit) as (out & Hrun).
  rewrite Hstore, Hembed in Hrun.
  match type of Hrun with
  | _ = (let (_, _) := _create_index ?w0 in _) =>
      destruct (_create_index_after w0) as (w1 & Hindex & _)
  end.
  rewrite Hindex in Hrun. cbn [bind] in Hrun.
  eexists. exists w1. split; [exact Hindex |]. rewrite Hstore. exact Hrun.
Qed.

(** After a run that returned, the index is valid. *)
Lemma run_ingest_async_index w stats w' :
  run w = (Returned stats, w') -> is_Some (indexes (store w') !! INDEX_NAME).
Proof.
  intros Hrun.
  destruct (run_ingest_async_returned w stats w' Hrun)
    as (chunks & vectors & out & _ & _ & _ & _ & Hindex).
  match type of Hindex with
  | _create_index ?w0 = _ =>
      destruct (_create_index_after w0) as (w1 & Hindex' & Hvalid & _)
  end.
  rewrite Hindex in Hindex'. now injection Hindex' as ->.
Qed.

(** The documents loaded come from the files listed. *)
Lemma loaded_documents_origin d :
  d ∈ docs loaded ->
  exists path ds, path ∈ paths /\ LoadingFacts.loads isdir load path = Some ds /\ d ∈ ds.
Proof.
  rewrite LoadingFacts._load_docs_docs, list_elem_of_In, in_concat.
  intros (ds & Hds & Hd). apply in_map_iff in Hds.
  destruct Hds as (path & <- & Hpath).
  destruct (LoadingFacts.loads isdir load path) as [ds |] eqn:Hloads; [| inversion Hd].
  exists path, ds. simpl in Hd.
  split; [now apply list_elem_of_In |]. split; [exact Hloads | now apply list_elem_of_In].
Qed.

(** X13. The rows a run writes come from the files it loaded: after a run
    that returned, the table holds the rows of before followed by new
    ones, and the chunk of every new row has the metadata of a document
    that the loader returned for one of the listed paths, and a text that
    is a contiguous part of the text of that document. *)
Theorem rows_come_from_the_loaded_files (w w' : World) (stats : Ingest.stats) :
  run w = (Returned stats, w') ->
  exists added,
    entries (store w') = entries (store w) ++ added
    /\ forall row, row ∈ added ->
         exists path ds d,
           path ∈ paths
           /\ LoadingFacts.loads isdir load path = Some ds
           /\ d ∈ ds
           /\ metadata (fst row) = metadata d
           /\ ChunkContent.substring_of (page_content (fst row)) (page_content d).
Proof.
  intros Hrun.
  destruct (run_ingest_async_returned w stats w' Hrun)
    as (chunks & vectors & out & Hsplit & _ & _ & _ & Hindex).
  match type of Hindex with
  | _create_index ?w0 = _ =>
      destruct (_create_index_after w0) as (w1 & Hindex' & _ & Hentries & _)
  end.
  rewrite Hindex in Hindex'. injection Hindex' as <-.
  exists (zip chunks vectors). split; [exact Hentries |].
  intros [c v] Hrow. cbn [fst]. apply elem_of_zip_l in Hrow.
  destruct (ChunkContent.chunk_pieces _ chunks c Hsplit Hrow)
    as (d & piece & Hd & Hpiece & ->).
  destruct (loaded_documents_origin d Hd) as (path & ds & Hpath & Hloads & Hin).
  exists path, ds, d. repeat split; try assumption.
  apply ChunkContent.part_of_substring.
  now apply SplitterContent.piece_of_spec.
Qed.

(** X14. Ingestion does not look at what the table holds: a run that
    returned has appended one row for each pair of a chunk and its vector,
    the chunks being those the splitter made of the documents loaded and
    the vectors those the embedding service returned for their texts; a
    second run over the same files, right after it, returns the same
    statistics and appends the same rows once more, and leaves the index as
    the first run left it.  When the service returns one vector for each
    chunk, the chunks of the new rows are all the chunks, in order, and
    after the second run every chunk is stored twice. *)
Theorem second_run_stores_every_chunk_again (w w1 : World) (stats : Ingest.stats) :
  run w = (Returned stats, w1) ->
  exists chunks vectors w2,
    split_documents CHUNK_SIZE CHUNK_OVERLAP (docs loaded) = Returned chunks
    /\ embed_documents (map page_content chunks) = Returned vectors
    /\ Ingest.chunks stats = length chunks
    /\ entries (store w1) = entries (store w) ++ zip chunks vectors
    /\ run w1 = (Returned stats, w2)
    /\ entries (store w2)
       = (entries (store w) ++ zip chunks vectors) ++ zip chunks vectors
    /\ indexes (store w2) = indexes (store w1)
    /\ builds (store w2) = builds (store w1)
    /\ (length vectors = length chunks ->
        map fst (entries (store w1)) = map fst (entries (store w)) ++ chunks
        /\ map fst (entries (store w2))
           = (map fst (entries (store w)) ++ chunks) ++ chunks).
Proof.
  intros Hrun.
  destruct (run_ingest_async_returned w stats w1 Hrun)
    as (chunks & vectors & out & Hsplit & Hstore & Hembed & -> & Hindex).
  match type of Hindex with
  | _create_index ?w0 = _ =>
      destruct (_create_index_after w0) as (w1' & Hindex' & Hvalid & Hentries & _)
  end.
  rewrite Hindex in Hindex'. injection Hindex' as <-.
  cbn [store entries] in Hentries.
  destruct (run_ingest_async_returns w1 chunks vectors Hsplit Hstore Hembed)
    as (out2 & w2 & Hindex2 & Hrun2).
  match type of Hindex2 with
  | _create_index ?w0 = _ =>
      destruct (_create_index_after w0) as (w2' & Hindex2' & _ & _ & _ & Hsame)
  end.
  rewrite Hindex2 in Hindex2'. injection Hindex2' as <-.
  specialize (Hsame Hvalid). cbn [store] in Hsame.
  assert (Htwice : entries (store w2)
                   = (entries (store w) ++ zip chunks vectors) ++ zip chunks vectors).
  { rewrite Hsame. cbn [entries]. now rewrite Hentries. }
  exists chunks, vectors, w2.
  split; [exact Hsplit |]. split; [exact Hembed |]. split; [reflexivity |].
  split; [exact Hentries |]. split; [exact Hrun2 |]. split; [exact Htwice |].
  split; [rewrite Hsame; reflexivity |]. split; [rewrite Hsame; reflexivity |].
  intros Hlength.
  assert (Hfirst : map fst (zip chunks vectors) = chunks).
  { apply fst_zip. lia. }
  rewrite Htwice, Hentries, !map_app, Hfirst. auto.
Qed.

End WithEnvironment.

End IngestMore.


(** * More on the chain: retrieval, synthesis and sources *)

Module RagMore.

Import Constants Rag PromptFacts ChainFacts.
Local Open Scope list_scope.

(** [unique_documents] keeps the documents not seen before, each once. *)
Lemma unique_documents_spec (documents seen : list Document) :
  NoDup (unique_documents seen documents)
  /\ forall d, d ∈ unique_documents seen documents <-> d ∈ documents /\ d ∉ seen.
Proof.
  revert seen. induction documents as [| x rest IH]; intros seen; cbn [unique_documents].
  - split; [constructor |]. intros d. split; [inversion 1 | intros [H _]; inversion H].
  - case_bool_decide as Hseen.
    + destruct (IH seen) as [Hnodup Hmem]. split; [exact Hnodup |].
      intros d. rewrite Hmem, elem_of_cons. split; [tauto |].
      intros [[-> | Hd] Hnot]; [contradiction | tauto].
    + destruct (IH (seen ++ [x])) as [Hnodup Hmem]. split.
      * constructor; [| exact Hnodup]. rewrite Hmem, elem_of_app, list_elem_of_singleton.
        tauto.
      * intros d. rewrite !elem_of_cons, Hmem, elem_of_app, list_elem_of_singleton.
        destruct (decide (d = x)) as [-> | Hne]; tauto.
Qed.

(** What [retrieve_documents] returns is what the searches found. *)
Lemma retrieve_documents_spec (base : retriever) (queries : list string)
    (documents : list Document) :
  retrieve_documents base queries = Returned documents ->
  (forall query, query ∈ queries ->
     exists found, base query = Returned found /\ forall d, d ∈ found -> d ∈ documents)
  /\ (forall d, d ∈ documents ->
        exists query found, query ∈ queries /\ base query = Returned found /\ d ∈ found).
Proof.
  revert documents. induction queries as [| q rest IH]; intros documents;
    cbn [retrieve_documents].
  - intros [= <-]. split; [intros query H; inversion H | intros d H; inversion H].
  - destruct (base q) as [found | e] eqn:Hq; [| discriminate]. cbn [bind].
    destruct (retrieve_documents base rest) as [more | e]; [| discriminate].
    cbn [bind]. intros [= <-]. destruct (IH more eq_refl) as [Hall Hfrom]. split.
    + intros query Hquery. apply elem_of_cons in Hquery.
      destruct Hquery as [-> | Hquery].
      * exists found. split; [exact Hq |]. intros d Hd. apply elem_of_app. now left.
      * destruct (Hall query Hquery) as (hits & Hhits & Hsub).
        exists hits. split; [exact Hhits |]. intros d Hd. apply elem_of_app.
        right. now apply Hsub.
    + intros d Hd. apply elem_of_app in Hd. destruct Hd as [Hd | Hd].
      * exists q, found. split; [apply list_elem_of_here | now split].
      * destruct (Hfrom d Hd) as (query & hits & Hquery & Hhits & Hin).
        exists query, hits. split; [now apply list_elem_of_further | now split].
Qed.

(** A text of the list is a part of the joined paragraphs. *)
Lemma join_paragraphs_part (parts : list string) (p : string) :
  p ∈ parts -> exists a b, join_paragraphs parts = (a ++ p ++ b)%string.
Proof.
  induction parts as [| q rest IH]; [inversion 1 |].
  intros Hin. apply elem_of_cons in Hin. destruct Hin as [-> | Hin].
  - destruct rest as [| r rest'].
    + exists EmptyString, EmptyString. simpl. now rewrite StringFacts.append_empty.
    + exists EmptyString.
      exists (String (ascii_of_nat 10)
                (String (ascii_of_nat 10) (join_paragraphs (r :: rest')))).
      reflexivity.
  - destruct (IH Hin) as (a & b & Hjoin).
    destruct rest as [| r rest']; [inversion Hin |].
    exists (q ++ String (ascii_of_nat 10) (String (ascii_of_nat 10) a))%string, b.
    change (join_paragraphs (q :: r :: rest'))
      with (q ++ String (ascii_of_nat 10)
                   (String (ascii_of_nat 10) (join_paragraphs (r :: rest'))))%string.
    rewrite Hjoin, StringFacts.append_assoc. reflexivity.
Qed.

Section WithServices.

Variable get_vector_store : result unit.
Variable similarity_search : string -> result (list Document).
Variable multi_query_from_llm : result unit.
Variable generate_queries : string -> result (list string).
Variable CohereRerank : result unit.
Variable compress_documents : list Document -> string -> result (list Document).
Variable OPENAI_MODEL : option string.
Variable chat : string -> list message -> result string.

Local Abbreviation build := (fun key =>
  _build_chain get_vector_store similarity_search multi_query_from_llm
    generate_queries key CohereRerank compress_documents).

Local Abbreviation answer := (fun key =>
  answer_with_docs_async get_vector_store similarity_search multi_query_from_llm
    generate_queries key CohereRerank compress_documents OPENAI_MODEL chat).

Local Abbreviation model := (model_name OPENAI_MODEL).
Local Abbreviation doc_chain := (doc_chain OPENAI_MODEL chat).

(** X15. Without the reranking credential, the retriever that
    [_build_chain] assembles searches for the question itself, whether or
    not the multi-query retriever could be set up: what it returns for a
    question holds every document the vector store finds for that question,
    and nothing the vector store did not find for some query; with the
    multi-query retriever, no document is returned twice. *)
Theorem question_itself_is_searched
    (COHERE_API_KEY : option string) (st st' : State) (retrieve : retriever)
    (question : string) (documents : list Document) :
  truthy COHERE_API_KEY = false ->
  build COHERE_API_KEY st = (Returned retrieve, st') ->
  retrieve question = Returned documents ->
  (exists found,
     similarity_search question = Returned found
     /\ forall d, d ∈ found -> d ∈ documents)
  /\ (forall d, d ∈ documents ->
        exists query found, similarity_search query = Returned found /\ d ∈ found)
  /\ (multi_query_from_llm = Returned tt -> NoDup documents).
Proof.
  intros Hkey. unfold _build_chain, seq, try_except, lift, ret. rewrite Hkey.
  destruct get_vector_store as [[] | e0]; [| discriminate].
  change USE_MULTI_QUERY with true. cbv iota.
  destruct multi_query_from_llm as [[] | e1]; cbn [print]; intros [= <- _] Hdocs.
  - unfold multi_query_retriever in Hdocs.
    destruct (generate_queries question) as [queries | e]; [| discriminate].
    cbn [bind] in Hdocs.
    destruct (retrieve_documents similarity_search (queries ++ [question]))
      as [all | e] eqn:Hall; [| discriminate].
    cbn [bind] in Hdocs. injection Hdocs as <-.
    destruct (retrieve_documents_spec _ _ _ Hall) as [Hevery Hfrom].
    destruct (unique_documents_spec all []) as [Hnodup Hmem].
    split; [| split].
    + destruct (Hevery question) as (found & Hfound & Hsub).
      { apply elem_of_app. right. apply list_elem_of_here. }
      exists found. split; [exact Hfound |]. intros d Hd. apply Hmem.
      split; [now apply Hsub | apply not_elem_of_nil].
    + intros d Hd. apply Hmem in Hd. destruct Hd as [Hd _].
      destruct (Hfrom d Hd) as (query & found & _ & Hfound & Hin). eauto.
    + intros _. exact Hnodup.
  - split; [| split].
    + exists documents. split; [exact Hdocs | auto].
    + intros d Hd. eauto.
    + discriminate.
Qed.

(** X16. A synthesis call raises only the exception of the model call for
    its prompt: formatting the prompt never fails, whatever braces the
    question or the documents hold.  When the cache holds a response for
    the prompt, the call returns it and makes no model call. *)
Theorem synthesis_raises_only_with_the_model
    (question : string) (context : list Document) (st : State) :
  (forall e, fst (doc_chain question context st) = Raised e ->
             chat model (prompt question context) = Raised e)
  /\ (forall cache stored,
        llm_cache st = Some cache ->
        cache !! (prompt question context, model) = Some stored ->
        doc_chain question context st = (Returned stored, st)).
Proof.
  rewrite doc_chain_generate. split.
  - intros e. unfold generate.
    destruct (llm_cache st) as [cache |]; [| exact (fun H => H)].
    destruct (cache !! _); [discriminate |].
    destruct (chat _ _); [discriminate | exact (fun H => H)].
  - intros cache stored Hcache Hstored. now apply generate_hit with cache.
Qed.

(** X17. A synthesis call never removes or changes a stored response: with
    a cache, the cache afterwards holds everything it held; it is the same
    when the call raises, and without a cache none appears.  The call makes
    at most one model call, for its own prompt, and prints nothing. *)
Theorem synthesis_keeps_stored_responses
    (question : string) (context : list Document) (st : State) :
  match llm_cache st with
  | Some cache =>
      exists cache',
        llm_cache (snd (doc_chain question context st)) = Some cache'
        /\ cache ⊆ cache'
        /\ (forall e, fst (doc_chain question context st) = Raised e -> cache' = cache)
  | None => llm_cache (snd (doc_chain question context st)) = None
  end
  /\ (model_calls (snd (doc_chain question context st)) = model_calls st
      \/ model_calls (snd (doc_chain question context st))
         = model_calls st ++ [(model, prompt question context)])
  /\ stdout (snd (doc_chain question context st)) = stdout st.
Proof.
  rewrite doc_chain_generate. unfold generate.
  destruct (llm_cache st) as [cache |] eqn:Hcache.
  - destruct (cache !! (prompt question context, model)) as [stored |] eqn:Hlookup.
    + cbn [fst snd]. rewrite Hcache. split; [| auto].
      exists cache. split; [reflexivity |]. split; [reflexivity | discriminate].
    + destruct (chat _ _) as [out | e]; cbn [fst snd llm_cache model_calls stdout].
      * split; [| auto]. eexists. split; [reflexivity |].
        split; [now apply insert_subseteq | discriminate].
      * split; [| auto]. exists cache. split; [reflexivity |]. split; reflexivity.
  - cbn [fst snd llm_cache model_calls stdout]. auto.
Qed.

(** X18. Once the chain has returned its context and answer,
    [answer_with_docs_async] raises exactly when one context document has
    no source and another has one: sorting the sources compares [None]
    with a string. *)
Theorem answer_raises_on_mixed_sources
    (COHERE_API_KEY : option string) (question : string) (st st0 st1 : State)
    (retrieve : retriever) (result : chain_result) :
  build COHERE_API_KEY st = (Returned retrieve, st0) ->
  ainvoke OPENAI_MODEL chat retrieve question st0 = (Returned result, st1) ->
  (exists e, answer COHERE_API_KEY question st = (Raised e, st1))
  <-> (exists d1 d2,
         d1 ∈ r_context result /\ d2 ∈ r_context result
         /\ source d1 = None /\ is_Some (source d2)).
Proof.
  intros Hbuild Hinvoke.
  set (keys := list_to_set (map source (r_context result)) : gset (option string)).
  assert (Hkeys : forall s, s ∈ keys <-> exists d, d ∈ r_context result /\ source d = s).
  { intros s. unfold keys. rewrite elem_of_list_to_set, list_elem_of_fmap.
    split; intros (d & H1 & H2); exists d; auto. }
  assert (Hanswer : answer COHERE_API_KEY question st
                    = match sorted keys with
                      | Returned sources =>
                          (Returned (r_answer result, sources,
                                     map page_content (r_context result)), st1)
                      | Raised e => (Raised e, st1)
                      end).
  { unfold answer_with_docs_async, seq. rewrite Hbuild, Hinvoke.
    fold keys. unfold lift. destruct (sorted keys); reflexivity. }
  cbv beta in Hanswer |- *. rewrite Hanswer.
  assert (Hmixed : (None ∈ keys /\ exists s, Some s ∈ keys)
                   <-> exists d1 d2,
                         d1 ∈ r_context result /\ d2 ∈ r_context result
                         /\ source d1 = None /\ is_Some (source d2)).
  { split.
    - intros (Hnone & s & Hsome). apply Hkeys in Hnone, Hsome.
      destruct Hnone as (d1 & Hd1 & Hs1), Hsome as (d2 & Hd2 & Hs2).
      exists d1, d2. rewrite Hs2. eauto 6.
    - intros (d1 & d2 & Hd1 & Hd2 & Hs1 & s & Hs2). split.
      + apply Hkeys. eauto.
      + exists s. apply Hkeys. eauto. }
  rewrite <- Hmixed, <- SourceFacts.sorted_raises.
  destruct (sorted keys) as [sources | e].
  - split; intros [e He]; discriminate.
  - split; intros _; eauto.
Qed.

(** X19. Every call of the model that a synthesis call makes shows it the
    question and the whole text of every context document: the call has
    the system prompt and one user message, and the question and the text
    of each context document are contiguous parts of that message. *)
Theorem model_is_shown_every_context_document
    (question : string) (context : list Document) (st : State)
    (call : string * list message) :
  call ∈ model_calls (snd (doc_chain question context st)) ->
  call ∈ model_calls st
  \/ exists user,
       call = (model, [("system", SYSTEM_PROMPT); ("user", user)])
       /\ (exists a b, user = (a ++ question ++ b)%string)
       /\ forall d, d ∈ context ->
                    exists a b, user = (a ++ page_content d ++ b)%string.
Proof.
  rewrite doc_chain_generate.
  assert (Hshown :
            exists user,
              prompt question context = [("system", SYSTEM_PROMPT); ("user", user)]
              /\ (exists a b, user = (a ++ question ++ b)%string)
              /\ forall d, d ∈ context ->
                           exists a b, user = (a ++ page_content d ++ b)%string).
  { eexists. split; [reflexivity |]. split.
    - exists "Question: ". eexists. unfold user_message. reflexivity.
    - intros d Hd.
      destruct (join_paragraphs_part (map page_content context) (page_content d))
        as (a & b & Hjoin); [now apply list_elem_of_fmap_2 |].
      unfold user_message. rewrite Hjoin.
      exists ("Question: " ++ question ++ PromptFacts.newline ++ PromptFacts.newline
              ++ "Context from documents:" ++ PromptFacts.newline ++ a)%string,
             (b ++ instructions)%string.
      rewrite !StringFacts.append_assoc. reflexivity. }
  destruct Hshown as (user & Hprompt & Hparts). rewrite Hprompt.
  assert (Hnew : call ∈ model_calls st ++ [(model, [("system", SYSTEM_PROMPT); ("user", user)])] ->
                 call ∈ model_calls st
                 \/ exists user0,
                      call = (model, [("system", SYSTEM_PROMPT); ("user", user0)])
                      /\ (exists a b, user0 = (a ++ question ++ b)%string)
                      /\ forall d, d ∈ context ->
                                   exists a b, user0 = (a ++ page_content d ++ b)%string).
  { intros Hin. apply elem_of_app in Hin. destruct Hin as [Hin | Hin]; [now left |].
    apply list_elem_of_singleton in Hin. right. exists user. now split. }
  unfold generate. destruct (llm_cache st) as [cache |].
  - destruct (cache !! _); [now left |].
    destruct (chat _ _); exact Hnew.
  - exact Hnew.
Qed.

End WithServices.

End RagMore.


(** * The replies to commands *)

Module ReplyFacts.

Import ChainlitApp Str JobFacts Replies.
Local Open Scope list_scope.

Lemma record_status s a b c d : record s a b c d !! "status" = Some (VStr s).
Proof. reflexivity. Qed.



Lemma record_stats s a b c d : record s a b c d !! "stats" = Some c.
Proof. vm_compute. reflexivity. Qed.

Lemma record_error s a b c d : record s a b c d !! "error" = Some d.
Proof. vm_compute. reflexivity. Qed.




Section WithFormats.

Variable elapsed_text : Q -> Q -> string.
Variable repr : value -> string.

Local Abbreviation status_reply := (status_reply elapsed_text repr).
Local Abbreviation ingest_report := (ingest_report repr).
Local Abbreviation ingest_wait := (ingest_wait repr).
Local Abbreviation other_commands := (other_commands elapsed_text repr).



(** The report of a run that succeeded. *)
Definition completed_text (stats : Ingest.stats) : string :=
  (INGESTION_COMPLETED ++ pretty (Ingest.documents stats) ++ newline ++ "- Chunks: "
   ++ pretty (Ingest.chunks stats) ++ file_list (Ingest.files stats))%string.





Lemma ingest_report_succeeded started finished stats :
  ingest_report (record "succeeded" (VTime started) (VTime finished) (VStats stats) VNone)
  = completed_text stats.
Proof.
  unfold Replies.ingest_report, get_stats.
  rewrite record_status, record_stats. reflexivity.
Qed.

Lemma ingest_report_failed started finished e :
  ingest_report (record "failed" (VTime started) (VTime finished) VNone (VStr e))
  = (INGESTION_FAILED ++ e)%string.
Proof.
  unfold Replies.ingest_report, error_text.
  rewrite record_status, record_error. reflexivity.
Qed.



(** X21. When the task the [/ingest] branch waits for is done, the branch
    reports the outcome of that job or reports nothing: after a task that
    has finished, the report has the counts and file names of the
    statistics the run returned, or the message of the exception it
    raised, and the branch for an error while reporting is never taken;
    after a task that was cancelled the wait raises and no report is
    sent. *)
Theorem ingest_report_tells_the_outcome (other : string -> Globals -> list string)
    (g : Globals) (t : task) :
  reachable other g ->
  _ingest_task g = Some t ->
  done t = true ->
  (t = Done
   /\ ((exists stats,
          _ingest_last g !! "stats" = Some (VStats stats)
          /\ status g = Some (VStr "succeeded")
          /\ ingest_wait t (_ingest_last g) = Some (Returned (completed_text stats)))
       \/ (exists e,
             _ingest_last g !! "error" = Some (VStr e)
             /\ status g = Some (VStr "failed")
             /\ ingest_wait t (_ingest_last g)
                = Some (Returned (INGESTION_FAILED ++ e)%string))))
  \/ (t = Cancelled
      /\ exists e, ingest_wait t (_ingest_last g) = Some (Raised e)).
Proof.
  intros Hreach Htask Hdone. apply reachable_shape in Hreach.
  destruct t; try discriminate Hdone.
  - left. split; [reflexivity |]. unfold status. cbn [Replies.ingest_wait].
    destruct (shape_done g Hreach Htask)
      as [(started & finished & stats & Hlast) | (started & finished & e & Hlast)];
      rewrite Hlast.
    + left. exists stats.
      split; [apply record_stats |]. split; [apply record_status |].
      now rewrite ingest_report_succeeded.
    + right. exists e.
      split; [apply record_error |]. split; [apply record_status |].
      now rewrite ingest_report_failed.
  - right. split; [reflexivity |]. exists EmptyString. reflexivity.
Qed.


End WithFormats.

End ReplyFacts.


(** * The job and the table *)

Module JobTableFacts.

Import Constants ChainlitApp JobFacts.
Local Open Scope list_scope.

Section WithOtherCommands.

Variable other_commands : string -> Globals -> list string.

(** The status is [succeeded] only with a valid index in the table. *)
Definition indexed (g : Globals) : Prop :=
  status g = Some (VStr "succeeded") ->
  is_Some (Ingest.indexes (Ingest.store (world g)) !! INDEX_NAME).

Lemma step_indexed e g g' :
  shape g -> indexed g -> step other_commands e g = Some g' -> indexed g'.
Proof.
  intros Hshape Hindexed Hstep. unfold ChainlitApp.step in Hstep.
  destruct e as [command | now | env now | env cut].
  - injection Hstep as <-. unfold handle_command.
    destruct (String.eqb _ "/ingest"); [| exact Hindexed].
    destruct (_ingest_task g) as [t |]; [destruct (negb (done t)) |]; exact Hindexed.
  - destruct (_ingest_task g) as [[| | |] |]; try discriminate.
    injection Hstep as <-. unfold indexed, status, _ingest_job_begin, update.
    cbn [_ingest_last]. erewrite lookup_union_Some_l by reflexivity. discriminate.
  - destruct (_ingest_task g) as [[| | |] |]; try discriminate.
    destruct (run_ingest_async env (world g)) as [[stats | e] w'] eqn:Hrun;
      cbv beta iota in Hstep; injection Hstep as <-.
    + intros _. cbn [world].
      exact (IngestMore.run_ingest_async_index _ _ _ _ _ _ _ _ Hrun).
    + unfold indexed, status, _ingest_job_end, update.
      cbn [_ingest_last]. erewrite lookup_union_Some_l by reflexivity. discriminate.
  - destruct (_ingest_task g) as [[| | |] |] eqn:Ht; try discriminate.
    + injection Hstep as <-. exact Hindexed.
    + destruct (cancelled_at env (world g) !! cut) as [w |]; [| discriminate].
      injection Hstep as <-.
      destruct (shape_started g Hshape Ht) as [started Hlast].
      unfold indexed, status. cbn [_ingest_last]. rewrite Hlast. discriminate.
Qed.

Lemma run_indexed events g g' :
  shape g -> indexed g -> run other_commands events g = Some g' -> indexed g'.
Proof.
  revert g. induction events as [| e rest IH]; intros g Hshape Hindexed Hrun;
    simpl in Hrun.
  - now injection Hrun as <-.
  - destruct (step other_commands e g) as [g1 |] eqn:Hstep; [| discriminate].
    apply (IH g1); [| | exact Hrun].
    + now apply (step_shape other_commands e g).
    + now apply (step_indexed e g).
Qed.

(** X23. In every state the process can be in, a status of [succeeded]
    means that the table has its search index: the status is set only
    after [run_ingest_async] has returned, which it does after
    [_create_index], and nothing removes the index afterwards. *)
Theorem succeeded_means_indexed (g : Globals) :
  reachable other_commands g ->
  status g = Some (VStr "succeeded") ->
  is_Some (Ingest.indexes (Ingest.store (world g)) !! INDEX_NAME).
Proof.
  intros (w & events & Hrun).
  apply (run_indexed events (initial w) g); [| | exact Hrun].
  - apply shape_idle; [reflexivity | now left].
  - intros Hstatus. discriminate.
Qed.

(** An event that neither begins nor ends the run of a job. *)
Definition quiet (e : event) : Prop :=
  match e with
  | Command _ | JobCancelled _ _ => True
  | JobBegins _ | JobEnds _ _ => False
  end.

(** The statistics on record were returned by the run of the last job
    that ended, on the table that job found. *)
Definition from_the_last_run (w : Ingest.World) (events : list event)
    (stats : Ingest.stats) : Prop :=
  exists before env now after g1,
    events = before ++ JobEnds env now :: after
    /\ run other_commands before (initial w) = Some g1
    /\ _ingest_task g1 = Some Started
    /\ fst (run_ingest_async env (world g1)) = Returned stats
    /\ Forall quiet after.

Lemma quiet_last e g g' :
  quiet e -> step other_commands e g = Some g' -> _ingest_last g' = _ingest_last g.
Proof.
  destruct e as [command | now | env now | env cut]; try contradiction; intros _.
  - intros [= <-]. apply handle_command_last.
  - unfold ChainlitApp.step.
    destruct (_ingest_task g) as [[| | |] |]; try discriminate.
    + now intros [= <-].
    + destruct (cancelled_at env (world g) !! cut); [| discriminate].
      now intros [= <-].
Qed.

Lemma recorded_from_the_last_run w events g stats :
  run other_commands events (initial w) = Some g ->
  _ingest_last g !! "stats" = Some (VStats stats) ->
  from_the_last_run w events stats.
Proof.
  revert g stats. induction events as [| e events IH] using rev_ind;
    intros g stats Hrun Hstats.
  - injection Hrun as <-. vm_compute in Hstats. discriminate.
  - rewrite run_app in Hrun.
    destruct (run other_commands events (initial w)) as [g1 |] eqn:Hbefore;
      [| discriminate].
    assert (Hshape : shape g1).
    { apply (reachable_shape other_commands). now exists w, events. }
    assert (Hquiet : quiet e -> from_the_last_run w (events ++ [e]) stats).
    { intros He. rewrite (quiet_last e g1 g He Hrun) in Hstats.
      destruct (IH g1 stats eq_refl Hstats)
        as (before & env & now & after & g0 & -> & Hrun0 & Ht & Hstats0 & Hafter).
      exists before, env, now, (after ++ [e]), g0.
      split; [now rewrite <- app_assoc |]. split; [exact Hrun0 |].
      split; [exact Ht |]. split; [exact Hstats0 |].
      apply Forall_app. split; [exact Hafter | now constructor]. }
    destruct e as [command | now | env now | env cut].
    + now apply Hquiet.
    + unfold ChainlitApp.step in Hrun.
      destruct (_ingest_task g1) as [[| | |] |]; try discriminate.
      injection Hrun as <-. unfold _ingest_job_begin, update in Hstats.
      cbn [_ingest_last] in Hstats.
      erewrite lookup_union_Some_l in Hstats by reflexivity. discriminate.
    + unfold ChainlitApp.step in Hrun.
      destruct (_ingest_task g1) as [[| | |] |] eqn:Ht; try discriminate.
      destruct (shape_started g1 Hshape Ht) as [started Hlast].
      destruct (run_ingest_async env (world g1)) as [[stats' | message] w'] eqn:Hjob;
        cbv beta iota in Hrun; injection Hrun as <-;
        cbn [_ingest_last] in Hstats; rewrite Hlast in Hstats.
      * vm_compute in Hstats. injection Hstats as <-.
        exists events, env, now, [], g1.
        split; [reflexivity |]. split; [exact Hbefore |]. split; [exact Ht |].
        split; [now rewrite Hjob | constructor].
      * vm_compute in Hstats. discriminate.
    + now apply Hquiet.
Qed.

(** X24. The statistics on record (those [/status] and the report show)
    are those of the last run that ended: whenever the record holds
    statistics, the events so far are the events up to the end of the run
    of a job, followed by commands and cancellations only; that run, on
    the table the job found, returned these statistics, and they are the
    number of documents it loaded, the paths of the files it loaded, and
    the number of chunks the splitter made of those documents. *)
Theorem recorded_statistics_count_a_run (w : Ingest.World) (events : list event)
    (g : Globals) (stats : Ingest.stats) :
  run other_commands events (initial w) = Some g ->
  _ingest_last g !! "stats" = Some (VStats stats) ->
  exists before env now after g1 chunks,
    events = before ++ JobEnds env now :: after
    /\ run other_commands before (initial w) = Some g1
    /\ fst (run_ingest_async env (world g1)) = Returned stats
    /\ Forall quiet after
    /\ Ingest.documents stats = length (Loading.docs (loaded_by env))
    /\ Ingest.files stats = Loading.file_paths (loaded_by env)
    /\ TextSplitter.split_documents CHUNK_SIZE CHUNK_OVERLAP
         (Loading.docs (loaded_by env)) = Returned chunks
    /\ Ingest.chunks stats = length chunks.
Proof.
  intros Hrun Hstats.
  destruct (recorded_from_the_last_run w events g stats Hrun Hstats)
    as (before & env & now & after & g1 & Hevents & Hbefore & _ & Hjob & Hafter).
  destruct (run_ingest_async env (world g1)) as [outcome w'] eqn:Hreturned.
  cbn [fst] in Hjob. subst outcome.
  destruct (IngestMore.run_ingest_async_returned _ _ _ _ _ _ _ _ Hreturned)
    as (chunks & vectors & out & Hsplit & _ & _ & Hcounts & _).
  exists before, env, now, after, g1, chunks.
  split; [exact Hevents |]. split; [exact Hbefore |].
  split; [now rewrite Hreturned |]. split; [exact Hafter |].
  rewrite Hcounts. split; [reflexivity |]. split; [reflexivity |].
  split; [exact Hsplit | reflexivity].
Qed.

End WithOtherCommands.

End JobTableFacts.


(** * Where downloads are saved, and how ingestion finds them *)

Module DownloadFacts.

Import Loading Download StringFacts.
Local Open Scope list_scope.

(** [c] does not occur in [s]. *)
Fixpoint absent (c : ascii) (s : string) : Prop :=
  match s with
  | EmptyString => True
  | String a s' => a <> c /\ absent c s'
  end.

Lemma absent_app c a b : absent c (a ++ b)%string <-> absent c a /\ absent c b.
Proof.
  induction a as [| x a IH]; simpl; [tauto |].
  change (absent c (String x a ++ b)%string) with (x <> c /\ absent c (a ++ b)%string).
  rewrite IH. tauto.
Qed.

(** ** [rfind] *)

Lemma rfind_from_absent c s i : absent c s -> rfind_from c s i = (-1)%Z.
Proof.
  revert i. induction s as [| a s IH]; intros i; simpl; [reflexivity |].
  intros [Ha Hs]. rewrite (IH _ Hs). simpl.
  destruct (Ascii.eqb_spec a c); [contradiction | reflexivity].
Qed.

Lemma rfind_from_last c a b i :
  (0 <= i)%Z -> absent c b ->
  rfind_from c (a ++ String c b)%string i = (i + Z.of_nat (String.length a))%Z.
Proof.
  revert i. induction a as [| x a IH]; intros i Hi Hb.
  - simpl. rewrite (rfind_from_absent c b _ Hb). simpl.
    rewrite Ascii.eqb_refl. lia.
  - rewrite PromptFacts.append_cons. cbn [rfind_from String.length].
    rewrite IH by (try lia; exact Hb).
    replace (0 <=? i + 1 + Z.of_nat (String.length a))%Z with true
      by (symmetry; apply Z.leb_le; lia).
    lia.
Qed.

(** A text in which [c] occurs, cut at the last occurrence. *)
Lemma cut_at_last c s :
  absent c s \/ exists a b, s = (a ++ String c b)%string /\ absent c b.
Proof.
  induction s as [| x s [Hs | (a & b & -> & Hb)]].
  - now left.
  - destruct (ascii_dec x c) as [-> | Hx].
    + right. exists EmptyString, s. now split.
    + left. now split.
  - right. exists (String x a), b. now split.
Qed.

(** ** Slices *)

Lemma substring_all s : substring 0 (String.length s) s = s.
Proof. induction s as [| a s IH]; [reflexivity |]. simpl. now rewrite IH. Qed.

Lemma substring_skip a b n :
  substring (String.length a) n (a ++ b)%string = substring 0 n b.
Proof.
  induction a as [| x a IH]; [reflexivity |].
  rewrite PromptFacts.append_cons. simpl. exact IH.
Qed.

Lemma substring_take a b :
  substring 0 (String.length a) (a ++ b)%string = a.
Proof.
  induction a as [| x a IH]; [now destruct b |].
  rewrite PromptFacts.append_cons. simpl. now rewrite IH.
Qed.

Lemma slice_from_app a b :
  slice_from (a ++ b)%string (Z.of_nat (String.length a)) = b.
Proof.
  unfold slice_from. rewrite Nat2Z.id, length_append.
  replace (String.length a + String.length b - String.length a)%nat
    with (String.length b) by lia.
  now rewrite substring_skip, substring_all.
Qed.

Lemma slice_one_app a c b :
  slice_one (a ++ String c b)%string (Z.of_nat (String.length a))
  = String c EmptyString.
Proof.
  unfold slice_one. rewrite Nat2Z.id.
  replace (get (String.length a) (a ++ String c b)%string) with (Some c);
    [reflexivity |].
  induction a as [| x a IH]; [reflexivity |].
  rewrite PromptFacts.append_cons. simpl. exact IH.
Qed.

(** ** [basename] *)

Lemma basename_absent p : absent "/" p -> basename p = p.
Proof.
  intros Hp. unfold basename, rfind. rewrite (rfind_from_absent _ _ _ Hp).
  unfold slice_from. simpl. rewrite Nat.sub_0_r. apply substring_all.
Qed.

Lemma basename_last a b : absent "/" b -> basename (a ++ String "/" b)%string = b.
Proof.
  intros Hb. unfold basename, rfind. rewrite rfind_from_last by (try lia; exact Hb).
  replace (0 + Z.of_nat (String.length a) + 1)%Z
    with (Z.of_nat (String.length (a ++ "/")%string))
    by (rewrite length_append; simpl; lia).
  replace (a ++ String "/" b)%string with ((a ++ "/") ++ b)%string
    by now rewrite append_assoc.
  apply slice_from_app.
Qed.

(** The base name of a path holds no slash. *)
Lemma basename_no_slash p : absent "/" (basename p).
Proof.
  destruct (cut_at_last "/" p) as [Hp | (a & b & -> & Hb)].
  - now rewrite basename_absent.
  - now rewrite basename_last.
Qed.

(** ** [lower] and [endswith] *)

Lemma lower_app a b : lower (a ++ b)%string = (lower a ++ lower b)%string.
Proof.
  induction a as [| x a IH]; [reflexivity |].
  rewrite PromptFacts.append_cons. simpl. now rewrite IH.
Qed.

Lemma lower_length s : String.length (lower s) = String.length s.
Proof. induction s as [| a s IH]; [reflexivity |]. simpl. now rewrite IH. Qed.

(** A text cut at a length. *)
Lemma cut_at (n : nat) s :
  (n <= String.length s)%nat ->
  exists a b, s = (a ++ b)%string /\ String.length a = n
              /\ b = substring n (String.length s - n) s.
Proof.
  revert s. induction n as [| n IH]; intros s Hn.
  - exists EmptyString, s. split; [reflexivity |]. split; [reflexivity |].
    rewrite Nat.sub_0_r. now rewrite substring_all.
  - destruct s as [| x s]; [simpl in Hn; lia |].
    destruct (IH s) as (a & b & -> & Hlen & Hb); [simpl in Hn; lia |].
    exists (String x a), b. split; [reflexivity |]. split; [simpl; lia |].
    simpl. exact Hb.
Qed.

Lemma endswith_cut s suffix :
  endswith s suffix = true -> exists a, s = (a ++ suffix)%string.
Proof.
  unfold endswith. intros H. apply andb_true_iff in H. destruct H as [Hlen Heq].
  apply Nat.leb_le in Hlen. apply String.eqb_eq in Heq.
  destruct (cut_at (String.length s - String.length suffix) s) as (a & b & Hs & Ha & Hb);
    [lia |].
  exists a. rewrite Hs at 1. f_equal.
  rewrite Hb. etransitivity; [| exact Heq]. f_equal. lia.
Qed.

Lemma endswith_app a suffix : endswith (a ++ suffix)%string suffix = true.
Proof.
  unfold endswith. rewrite length_append. apply andb_true_iff. split.
  - apply Nat.leb_le. lia.
  - replace (String.length a + String.length suffix - String.length suffix)%nat
      with (String.length a) by lia.
    rewrite substring_skip, substring_all. apply String.eqb_refl.
Qed.

(** A text whose lowercase is two texts in a row is two texts in a row. *)
Lemma lower_cut s x y :
  lower s = (x ++ y)%string ->
  exists a b, s = (a ++ b)%string /\ lower a = x /\ lower b = y.
Proof.
  revert s. induction x as [| c x IH]; intros s Hs.
  - exists EmptyString, s. auto.
  - destruct s as [| d s]; [discriminate |].
    rewrite PromptFacts.append_cons in Hs. simpl in Hs. injection Hs as Hd Hs.
    destruct (IH s Hs) as (a & b & -> & Ha & Hb).
    exists (String d a), b. split; [reflexivity |]. split; [| exact Hb].
    simpl. now rewrite Hd, Ha.
Qed.

(** The characters whose lowercase is the dot or a letter of [pdf]. *)
Lemma lower_char_dot c : lower_char c = "."%char -> c = "."%char.
Proof.
  destruct c as [[] [] [] [] [] [] [] []]; vm_compute; congruence.
Qed.

Lemma lower_char_letter c l :
  lower_char c = l -> In l ["p"; "d"; "f"]%char -> c <> "."%char /\ c <> "/"%char.
Proof.
  intros <- Hl. split; intros ->; vm_compute in Hl; intuition discriminate.
Qed.

(** A name whose lowercase ends with [.pdf]: a stem, a dot and three
    letters. *)
Lemma pdf_name f :
  endswith (lower f) ".pdf" = true ->
  exists stem extension,
    f = (stem ++ String "." extension)%string
    /\ lower (String "." extension) = ".pdf"
    /\ absent "." extension /\ absent "/" extension.
Proof.
  intros Hend. apply endswith_cut in Hend. destruct Hend as [x Hx].
  apply lower_cut in Hx. destruct Hx as (stem & e & -> & _ & He).
  destruct e as [| c0 [| c1 [| c2 [| c3 [| c4 e]]]]]; try discriminate.
  simpl in He. injection He as H0 H1 H2 H3.
  apply lower_char_dot in H0. subst c0.
  exists stem, (String c1 (String c2 (String c3 EmptyString))).
  split; [reflexivity |]. split; [simpl; now rewrite H1, H2, H3 |].
  destruct (lower_char_letter c1 _ H1) as [? ?]; [simpl; auto |].
  destruct (lower_char_letter c2 _ H2) as [? ?]; [simpl; auto |].
  destruct (lower_char_letter c3 _ H3) as [? ?]; [simpl; auto |].
  simpl. auto 10.
Qed.

(** ** The digits of an index *)

Definition digit (c : ascii) : Prop := In c ["0"; "1"; "2"; "3"; "4"; "5"; "6"; "7"; "8"; "9"]%char.

Fixpoint digits (s : string) : Prop :=
  match s with
  | EmptyString => True
  | String a s' => digit a /\ digits s'
  end.

Lemma pretty_N_char_digit x : digit (pretty_N_char x).
Proof.
  unfold pretty_N_char, digit.
  repeat match goal with
         | |- context [match ?p with _ => _ end] => destruct p
         end; simpl; auto 12.
Qed.

Lemma pretty_N_go_digits x s : digits s -> digits (pretty_N_go x s).
Proof.
  revert s. induction (N.lt_wf_0 x) as [x _ IH]; intros s Hs.
  destruct (decide (x = 0)%N) as [-> | Hx]; [now rewrite pretty_N_go_0 |].
  rewrite pretty_N_go_step by lia. apply IH.
  - apply N.div_lt; lia.
  - split; [apply pretty_N_char_digit | exact Hs].
Qed.

Lemma pretty_nat_digits (n : nat) : digits (pretty n).
Proof.
  unfold pretty, pretty_nat, pretty, pretty_N.
  case_decide; [simpl; unfold digit; simpl; auto |].
  now apply pretty_N_go_digits.
Qed.

Lemma digits_absent c s : ~ digit c -> digits s -> absent c s.
Proof.
  intros Hc. induction s as [| a s IH]; simpl; [auto |].
  intros [Ha Hs]. split; [| now apply IH]. intros ->. contradiction.
Qed.

(** ** The file name and the output path *)

Lemma absent_contains f : absent "/" f -> contains "/" f = false.
Proof.
  induction f as [| c f IH]; [reflexivity |].
  intros [Hc Hf]. cbn [contains]. rewrite (IH Hf), orb_false_r.
  change (String.prefix "/" (String c f))
    with (if ascii_dec "/" c then String.prefix EmptyString f else false).
  destruct (ascii_dec "/" c) as [<- | _]; [contradiction | reflexivity].
Qed.

Lemma join_data f : absent "/" f -> join OUTPUT_DIR f = ("data/" ++ f)%string.
Proof.
  intros Hf. unfold join.
  replace (String.prefix "/" f) with false; [reflexivity |].
  destruct f as [| c f]; [reflexivity |]. destruct Hf as [Hc _].
  change (String.prefix "/" (String c f))
    with (if ascii_dec "/" c then String.prefix EmptyString f else false).
  destruct (ascii_dec "/" c) as [<- | _]; [contradiction | reflexivity].
Qed.

(** How [_load_docs] sees a saved file that is not hidden. *)
Lemma saved_file_dispatch f :
  absent "/" f -> endswith (lower f) ".pdf" = true -> startswith_dot f = false ->
  basename ("data/" ++ f)%string = f
  /\ select_loader (lower (snd (splitext ("data/" ++ f)%string))) = Some PyMuPDFLoader.
Proof.
  intros Hslash Hend Hdot.
  assert (Hbase : basename ("data/" ++ f)%string = f).
  { change ("data/" ++ f)%string with ("data" ++ String "/" f)%string.
    now apply basename_last. }
  split; [exact Hbase |].
  destruct (pdf_name f Hend) as (stem & extension & -> & Hlower & Hnodot & Hnoslash).
  destruct stem as [| x stem]; [discriminate Hdot |].
  simpl in Hdot. apply Ascii.eqb_neq in Hdot.
  unfold splitext, rfind.
  assert (Hsep : rfind_from "/" ("data/" ++ String x stem ++ String "." extension)%string 0
                 = 4%Z).
  { change ("data/" ++ String x stem ++ String "." extension)%string
      with ("data" ++ String "/" (String x stem ++ String "." extension))%string.
    rewrite rfind_from_last by (try lia; exact Hslash). reflexivity. }
  assert (Hdotindex :
            rfind_from "." ("data/" ++ String x stem ++ String "." extension)%string 0
            = Z.of_nat (String.length ("data/" ++ String x stem)%string)).
  { rewrite <- append_assoc.
    rewrite rfind_from_last by (try lia; exact Hnodot). lia. }
  rewrite Hsep, Hdotindex.
  replace (4 <? Z.of_nat (String.length ("data/" ++ String x stem)%string))%Z with true
    by (symmetry; apply Z.ltb_lt; rewrite length_append; simpl; lia).
  replace (Z.to_nat (Z.of_nat (String.length ("data/" ++ String x stem)%string) - (4 + 1)))
    with (S (String.length stem))
    by (rewrite length_append; simpl; lia).
  cbn [splitext_loop].
  replace (slice_one ("data/" ++ String x stem ++ String "." extension)%string (4 + 1))
    with (String x EmptyString) by reflexivity.
  replace (String.eqb (String x EmptyString) ".") with false.
  - cbn [negb snd]. rewrite <- append_assoc, slice_from_app, Hlower. reflexivity.
  - symmetry. apply String.eqb_neq. congruence.
Qed.

(** A path directly in the data directory, under a name whose lowercase
    ends with [.pdf]. *)
Definition pdf_in_data (path : string) : Prop :=
  exists filename,
    path = ("data/" ++ filename)%string
    /\ contains "/" filename = false
    /\ endswith (lower filename) ".pdf" = true.

Section WithUrls.

Variable urlparse_path : string -> result string.

Local Abbreviation get_filename_from_url := (get_filename_from_url urlparse_path).
Local Abbreviation output_path := (output_path urlparse_path).

(** The file name holds no slash, and its lowercase ends with [.pdf]. *)
Lemma get_filename_from_url_name url index filename :
  get_filename_from_url url index = Returned filename ->
  absent "/" filename /\ endswith (lower filename) ".pdf" = true.
Proof.
  unfold Download.get_filename_from_url.
  destruct (urlparse_path url) as [path | e]; [| discriminate]. cbn [bind].
  destruct (endswith (lower (basename path)) ".pdf") eqn:Hend; cbn [negb];
    intros [= <-].
  - split; [apply basename_no_slash | exact Hend].
  - split.
    + apply absent_app. split; [simpl; intuition discriminate |].
      apply absent_app. split; [| simpl; intuition discriminate].
      apply digits_absent; [| apply pretty_nat_digits].
      unfold digit. simpl. intuition discriminate.
    + rewrite <- append_assoc, lower_app.
      change (lower ".pdf") with ".pdf". apply endswith_app.
Qed.

Lemma output_path_name url index path :
  output_path url index = Returned path ->
  exists filename,
    get_filename_from_url url index = Returned filename
    /\ path = ("data/" ++ filename)%string
    /\ absent "/" filename
    /\ endswith (lower filename) ".pdf" = true.
Proof.
  unfold Download.output_path.
  destruct (get_filename_from_url url index) as [filename | e] eqn:Hname;
    [| discriminate].
  cbn [bind]. intros [= <-].
  destruct (get_filename_from_url_name url index filename Hname) as [Hslash Hend].
  exists filename. split; [reflexivity |]. split; [now apply join_data | now split].
Qed.

(** The URL and output path of the call a row makes, if it makes one. *)
Definition attempt (index : nat) (url : option string) : list (string * string) :=
  if truthy url then
    match output_path (default EmptyString url) index with
    | Returned path => [(default EmptyString url, path)]
    | Raised _ => []
    end
  else [].

Fixpoint attempts (index : nat) (rows : list (option string))
  : list (string * string) :=
  match rows with
  | [] => []
  | url :: rest => attempt index url ++ attempts (S index) rest
  end.

Section WithDownloads.

Variable download_pdf : nat -> string -> string -> result unit.

Local Abbreviation row := (row urlparse_path download_pdf).
Local Abbreviation rows_from := (rows_from urlparse_path download_pdf).
Local Abbreviation main := (main urlparse_path download_pdf).

Lemma row_calls acc index url :
  calls (row acc index url) = calls acc ++ attempt index url.
Proof.
  unfold Download.row, attempt. destruct (truthy url); [| now rewrite app_nil_r].
  destruct (output_path _ index) as [path | e]; [| now rewrite app_nil_r].
  now destruct (download_pdf index _ path).
Qed.


Lemma rows_from_calls rows index acc :
  calls (rows_from index rows acc) = calls acc ++ attempts index rows.
Proof.
  revert index acc. induction rows as [| url rest IH]; intros index acc; simpl.
  - now rewrite app_nil_r.
  - rewrite IH, row_calls. now rewrite <- app_assoc.
Qed.


Lemma attempts_pdf_in_data rows index url path :
  (url, path) ∈ attempts index rows -> pdf_in_data path.
Proof.
  revert index. induction rows as [| u rest IH]; intros index; simpl.
  - inversion 1.
  - intros Hin. apply elem_of_app in Hin. destruct Hin as [Hin | Hin]; [| eauto].
    unfold attempt in Hin. destruct (truthy u); [| inversion Hin].
    destruct (output_path _ index) as [p | e] eqn:Hpath; [| inversion Hin].
    apply list_elem_of_singleton in Hin. injection Hin as -> ->.
    destruct (output_path_name _ _ _ Hpath) as (filename & _ & -> & Hslash & Hend).
    exists filename. split; [reflexivity |]. split; [now apply absent_contains | exact Hend].
Qed.

(** X25. Whatever the URLs of the rows, and however [main] ends, it saves
    downloads only directly in the data directory, under names whose
    lowercase ends with [.pdf]: the output path of every call of
    [download_pdf] is [data/] followed by a file name that holds no
    slash. *)
Theorem downloads_are_saved_in_the_data_directory
    (fieldnames : result (option (list string))) (rows : list (option string))
    (ending outcome : result unit) (done : log) :
  main fieldnames rows ending = (outcome, done) ->
  forall url path, (url, path) ∈ calls done -> pdf_in_data path.
Proof.
  unfold Download.main. intros Hmain url path.
  assert (Hnone : (url, path) ∈ calls (mkLog [] []) -> pdf_in_data path).
  { intros Hin. inversion Hin. }
  destruct fieldnames as [[names |] | e]; [| now injection Hmain as _ <- ..].
  case_bool_decide; [| now injection Hmain as _ <-].
  injection Hmain as _ <-.
  rewrite rows_from_calls. cbn [calls app]. apply attempts_pdf_in_data.
Qed.


End WithDownloads.

(** X27. Ingestion loads what the download script saved: when the output
    path of a row is among the listed paths, is no directory, has a file
    name that does not start with a dot, and the PDF loader returns for it,
    [_load_docs] returns the path among its file paths. *)
Theorem saved_downloads_are_loaded_as_pdf
    (isdir : string -> bool) (load : loader -> string -> result (list Document))
    (paths : list string) (url : string) (index : nat) (path : string)
    (ds : list Document) :
  output_path url index = Returned path ->
  path ∈ paths ->
  isdir path = false ->
  startswith_dot (basename path) = false ->
  load PyMuPDFLoader path = Returned ds ->
  path ∈ file_paths (_load_docs isdir load paths).
Proof.
  intros Hpath Hlisted Hdir Hdot Hload.
  destruct (output_path_name _ _ _ Hpath) as (filename & _ & -> & Hslash & Hend).
  assert (Hbase : basename ("data/" ++ filename)%string = filename).
  { change ("data/" ++ filename)%string with ("data" ++ String "/" filename)%string.
    now apply basename_last. }
  rewrite Hbase in Hdot.
  destruct (saved_file_dispatch _ Hslash Hend Hdot) as [_ Hselect].
  rewrite LoadingFacts._load_docs_file_paths, list_elem_of_In, List.filter_In.
  split; [now apply list_elem_of_In |].
  apply bool_decide_eq_true. exists ds.
  unfold LoadingFacts.loads. rewrite Hdir, Hbase, Hdot, Hselect, Hload. reflexivity.
Qed.

End WithUrls.

End DownloadFacts.


(** * Scenarios: the theorems at concrete inputs *)

Module Scenarios.

Import Constants Rag PromptFacts ChainFacts.
Local Open Scope list_scope.

(** Three stored chunks of two files, the later file first. *)
Definition chunk_of (source text : string) : Document :=
  mkDocument text (<["source" := source]> ∅).

Definition library : list Document :=
  [chunk_of "data/orders.pdf" "Section 1. Purpose.";
   chunk_of "data/about.txt" "CivicLens explains executive orders.";
   chunk_of "data/orders.pdf" "Section 2. Policy."].

Definition library_search (_ : string) : result (list Document) := Returned library.

Definition empty_search (_ : string) : result (list Document) := Returned [].

Definition no_rewrites : result unit := Raised "no model for query rewriting".

Definition warned : State :=
  mkState None []
    ["⚠ Multi-query retriever failed: no model for query rewriting"].

(** A context of a chunk of a file and a chunk that carries no source. *)
Definition mixed : list Document :=
  [chunk_of "data/orders.pdf" "Section 1. Purpose."; mkDocument "A note." ∅].

Definition mixed_search (_ : string) : result (list Document) := Returned mixed.


(** The sources of the library, as the call returns them. *)
Example library_sources :
  fst (answer_with_docs_async (Returned tt) library_search no_rewrites sample_rewrites
         None (Returned tt) unavailable None (constant_chat "Two sections.")
         "What does the order say?" fresh)
  = Returned ("Two sections.", [Some "data/about.txt"; Some "data/orders.pdf"],
              map page_content library).
Proof. vm_compute. reflexivity. Qed.


Lemma reranker_skipped_when_not_configured_witness :
  (exists out,
     _build_chain (Returned tt) library_search no_rewrites sample_rewrites
       (Some "key") (Raised "cohere package missing") unavailable fresh
     = (Returned (unranked library_search no_rewrites sample_rewrites),
        with_stdout out fresh))
  /\ (fst (answer_with_docs_async (Returned tt) library_search no_rewrites
             sample_rewrites (Some "key") (Raised "cohere package missing")
             unavailable None (constant_chat "Two sections.")
             "What does the order say?" fresh)
      = fst (synthesis None (constant_chat "Two sections.")
               (unranked library_search no_rewrites sample_rewrites)
               "What does the order say?" fresh)
      /\ llm_cache (snd (answer_with_docs_async (Returned tt) library_search
                           no_rewrites sample_rewrites (Some "key")
                           (Raised "cohere package missing") unavailable None
                           (constant_chat "Two sections.")
                           "What does the order say?" fresh))
         = llm_cache (snd (synthesis None (constant_chat "Two sections.")
                             (unranked library_search no_rewrites sample_rewrites)
                             "What does the order say?" fresh))
      /\ model_calls (snd (answer_with_docs_async (Returned tt) library_search
                             no_rewrites sample_rewrites (Some "key")
                             (Raised "cohere package missing") unavailable None
                             (constant_chat "Two sections.")
                             "What does the order say?" fresh))
         = model_calls (snd (synthesis None (constant_chat "Two sections.")
                               (unranked library_search no_rewrites sample_rewrites)
                               "What does the order say?" fresh))
      /\ forall reply sources texts,
           fst (answer_with_docs_async (Returned tt) library_search no_rewrites
                  sample_rewrites (Some "key") (Raised "cohere package missing")
                  unavailable None (constant_chat "Two sections.")
                  "What does the order say?" fresh)
           = Returned (reply, sources, texts) ->
           exists context,
             unranked library_search no_rewrites sample_rewrites
               "What does the order say?" = Returned context
             /\ texts = map page_content context).
Proof.
  apply (reranker_skipped_when_not_configured (Returned tt) library_search no_rewrites
           sample_rewrites (Raised "cohere package missing") unavailable None
           (constant_chat "Two sections.") (Some "key") "What does the order say?" fresh).
  right. exists "cohere package missing". reflexivity.
Defined.

(** With the credential set and a reranker that cannot be built, the
    whole library reaches the model and comes back, unranked. *)
Example library_unranked :
  fst (answer_with_docs_async (Returned tt) library_search no_rewrites sample_rewrites
         (Some "key") (Raised "cohere package missing") unavailable None
         (constant_chat "Two sections.") "What does the order say?" fresh)
  = Returned ("Two sections.", [Some "data/about.txt"; Some "data/orders.pdf"],
              map page_content library).
Proof. vm_compute. reflexivity. Qed.

Lemma empty_context_answer_is_the_model_response_witness :
  contains AnswerFacts.FALLBACK_RULE SYSTEM_PROMPT = true
  /\ contains AnswerFacts.FALLBACK_PHRASE USER_PROMPT_TEMPLATE = true
  /\ answer_with_docs_async (Returned tt) empty_search no_rewrites sample_rewrites
       None (Returned tt) unavailable None (constant_chat "The order has two sections.")
       "What does the order say?" fresh
     = match generate None (constant_chat "The order has two sections.")
               (prompt "What does the order say?" []) warned with
       | (Returned response, st1) => (Returned (response, [], []), st1)
       | (Raised e, st1) => (Raised e, st1)
       end.
Proof.
  apply (AnswerFacts.empty_context_answer_is_the_model_response (Returned tt)
           empty_search no_rewrites sample_rewrites None (Returned tt) unavailable None
           (constant_chat "The order has two sections.") "What does the order say?"
           fresh warned empty_search).
  - reflexivity.
  - reflexivity.
Defined.

(** The state after the first question of [sample_chat] under an empty
    cache. *)
Definition cached : State :=
  mkState
    (Some (<[(prompt "What is an executive order?" [], model_name None)
             := "An order of the President."]> ∅))
    [(model_name None, prompt "What is an executive order?" [])] [].

Lemma cache_is_exact_match_witness :
  doc_chain None sample_chat "What is an executive order?" [] cached
  = (Returned "An order of the President.", cached)
  /\ fst (doc_chain None sample_chat "what is an executive order?" [] cached)
     = sample_chat (model_name None) (prompt "what is an executive order?" [])
  /\ model_calls (snd (doc_chain None sample_chat "what is an executive order?" [] cached))
     = model_calls cached
       ++ [(model_name None, prompt "what is an executive order?" [])].
Proof.
  destruct (cache_is_exact_match None sample_chat "What is an executive order?"
              "what is an executive order?" [] (mkState (Some ∅) [] []) cached ∅
              "An order of the President.") as [Hsame Hother].
  - reflexivity.
  - rewrite doc_chain_generate.
    rewrite (generate_miss None sample_chat (mkState (Some ∅) [] []) ∅);
      [reflexivity | reflexivity | apply lookup_empty].
  - split; [exact Hsame |]. apply Hother.
    + intros Heq. apply String.eqb_eq in Heq. vm_compute in Heq. discriminate Heq.
    + apply lookup_empty.
Defined.

End Scenarios.


Module JobScenarios.

Import ChainlitApp JobFacts.
Local Open Scope list_scope.

(** A data directory with one text file, a table that can be reached, and
    an embedding service that answers. *)
Definition one_file : Environment :=
  mkEnvironment
    ["data/about.txt"]
    (fun _ => false)
    (fun _ path => Returned [mkDocument "CivicLens explains executive orders."
                                        (<["source" := path]> ∅)])
    (Returned tt)
    (fun texts => Returned (map (fun _ => [1%Q; 0%Q]) texts)).

Definition empty_table : Ingest.World := Ingest.mkWorld (Ingest.mkStore [] ∅ []) [].

Definition silent (_ : string) (_ : Globals) : list string := [].

(** The state while the first job runs, and the state after a full run
    followed by a second [/ingest]. *)
Definition first_job_running : Globals :=
  default (initial empty_table)
          (run silent [Command "/ingest"; JobBegins 10] (initial empty_table)).

Definition second_job_created : Globals :=
  default (initial empty_table)
          (run silent [Command "/ingest"; JobBegins 10; JobEnds one_file 12;
                       Command "/ingest"]
               (initial empty_table)).

Lemma first_job_running_reachable : reachable silent first_job_running.
Proof.
  exists empty_table, [Command "/ingest"; JobBegins 10]. vm_compute. reflexivity.
Qed.

Lemma second_job_created_reachable : reachable silent second_job_created.
Proof.
  exists empty_table,
    [Command "/ingest"; JobBegins 10; JobEnds one_file 12; Command "/ingest"].
  vm_compute. reflexivity.
Qed.

Lemma second_start_is_rejected_witness :
  (_ingest_task first_job_running = Some Started ->
   status first_job_running = Some (VStr "running"))
  /\ (status first_job_running = Some (VStr "running") ->
      _ingest_task first_job_running <> Some Cancelled ->
      in_flight (_ingest_task first_job_running))
  /\ (in_flight (_ingest_task first_job_running) ->
      handle_command silent "/ingest" first_job_running
      = mkGlobals (_ingest_task first_job_running) (_ingest_last first_job_running)
                  (world first_job_running)
                  (sent first_job_running ++ [ALREADY_RUNNING])).
Proof.
  apply (second_start_is_rejected silent "/ingest" first_job_running).
  - exists empty_table, [Command "/ingest"; JobBegins 10]. vm_compute. reflexivity.
  - vm_compute. reflexivity.
Defined.

(** While the first job runs, the task has begun and a second [/ingest]
    gets the notice. *)
Example second_start_notice :
  _ingest_task first_job_running = Some Started
  /\ sent (handle_command silent "/ingest" first_job_running)
     = [STARTING; ALREADY_RUNNING].
Proof. split; vm_compute; reflexivity. Qed.

(** The state after the first job was cancelled during its run, at the
    first [await]. *)
Definition first_job_cancelled : Globals :=
  default (initial empty_table)
          (run silent [Command "/ingest"; JobBegins 10; JobCancelled one_file 0]
               (initial empty_table)).

Lemma first_job_cancelled_reachable : reachable silent first_job_cancelled.
Proof.
  exists empty_table, [Command "/ingest"; JobBegins 10; JobCancelled one_file 0].
  vm_compute. reflexivity.
Qed.

(** After the cancellation the status is still [running], the task is
    done, and the next [/ingest] creates a task. *)
Example start_after_cancellation :
  status first_job_cancelled = Some (VStr "running")
  /\ _ingest_task first_job_cancelled = Some Cancelled
  /\ _ingest_task (handle_command silent "/ingest" first_job_cancelled) = Some Created
  /\ sent (handle_command silent "/ingest" first_job_cancelled) = [STARTING; STARTING].
Proof. repeat split; vm_compute; reflexivity. Qed.

(** C4 as stated: with the status [running], an [/ingest] command is
    answered with the notice and changes nothing else. *)
Definition rejected_while_running : Prop :=
  forall other_commands command g,
    reachable other_commands g ->
    status g = Some (VStr "running") ->
    first_word (lower command) EmptyString = "/ingest" ->
    handle_command other_commands command g
    = mkGlobals (_ingest_task g) (_ingest_last g) (world g)
                (sent g ++ [ALREADY_RUNNING]).

(** C4, as stated, fails: a job that is cancelled during its run leaves
    the status [running] behind, and the next [/ingest] is accepted. *)
Lemma rejected_while_running_fails : ~ rejected_while_running.
Proof.
  intros Hrejected.
  specialize (Hrejected silent "/ingest" first_job_cancelled
                first_job_cancelled_reachable).
  apply (f_equal sent) in Hrejected.
  - vm_compute in Hrejected. discriminate Hrejected.
  - vm_compute. reflexivity.
  - vm_compute. reflexivity.
Qed.

(** The state after the run of the first job. *)
Definition first_job_done : Globals :=
  default (initial empty_table) (step silent (JobEnds one_file 12) first_job_running).

Lemma ingestion_job_transitions_witness :
  (exists s s',
     status first_job_running = Some (VStr s)
     /\ status first_job_done = Some (VStr s')
     /\ In s ["idle"; "running"; "succeeded"; "failed"]
     /\ (s' = s \/ transition s s'))
  /\ exists started,
       _ingest_last first_job_running
       = record "running" (VTime started) VNone VNone VNone
       /\ match fst (run_ingest_async one_file (world first_job_running)) with
          | Returned stats =>
              _ingest_last first_job_done
              = record "succeeded" (VTime started) (VTime 12) (VStats stats) VNone
          | Raised message =>
              _ingest_last first_job_done
              = record "failed" (VTime started) (VTime 12) VNone (VStr message)
          end.
Proof.
  apply (ingestion_job_transitions silent (JobEnds one_file 12)
           first_job_running first_job_done).
  - exists empty_table, [Command "/ingest"; JobBegins 10]. vm_compute. reflexivity.
  - vm_compute. reflexivity.
Defined.

(** The first run ends in [succeeded], with one document, one chunk and
    the file. *)
Example first_job_statistics :
  _ingest_last first_job_done
  = record "succeeded" (VTime 10) (VTime 12)
           (VStats (Ingest.mkStats 1 1 ["data/about.txt"])) VNone.
Proof. vm_compute. reflexivity. Qed.

(** The status changes of the specification: only those along idle,
    running, then succeeded or failed. *)
Definition documented_transitions_only : Prop :=
  forall other_commands e g g',
    reachable other_commands g ->
    step other_commands e g = Some g' ->
    exists s s',
      status g = Some (VStr s) /\ status g' = Some (VStr s')
      /\ (s' = s \/ documented_transition s s').

(** C5, as stated, fails: after a run that succeeded, the next job changes
    the status from [succeeded] to [running]. *)
Lemma documented_transitions_only_fails : ~ documented_transitions_only.
Proof.
  intros Hdoc.
  destruct (Hdoc silent (JobBegins 20) second_job_created
              (default (initial empty_table)
                       (step silent (JobBegins 20) second_job_created))
              second_job_created_reachable)
    as (s & s' & Hs & Hs' & Hchange).
  - vm_compute. reflexivity.
  - assert (Hbefore : status second_job_created = Some (VStr "succeeded"))
      by (vm_compute; reflexivity).
    assert (Hafter : status (default (initial empty_table)
                               (step silent (JobBegins 20) second_job_created))
                     = Some (VStr "running"))
      by (vm_compute; reflexivity).
    rewrite Hbefore in Hs. rewrite Hafter in Hs'.
    injection Hs as <-. injection Hs' as <-.
    destruct Hchange as [Heq | Htrans]; [discriminate Heq | inversion Htrans].
Qed.

End JobScenarios.


(** * More scenarios *)

Module MoreScenarios.

Import Constants Loading Ingest TextSplitter Str Rag PromptFacts ChainFacts Scenarios.
Import ChainlitApp JobFacts JobScenarios Replies.
Local Open Scope list_scope.

(** The run of [one_file] on the empty table. *)
Lemma run_ingest_async_stats_witness :
  Ingest.documents (mkStats 1 1 ["data/about.txt"])
  = length (Loading.docs (loaded_by one_file))
  /\ Ingest.files (mkStats 1 1 ["data/about.txt"])
     = Loading.file_paths (loaded_by one_file)
  /\ exists chunks,
       TextSplitter.split_documents CHUNK_SIZE CHUNK_OVERLAP
         (Loading.docs (loaded_by one_file)) = Returned chunks
       /\ Ingest.chunks (mkStats 1 1 ["data/about.txt"]) = length chunks.
Proof.
  apply (run_ingest_async_stats one_file empty_table (mkStats 1 1 ["data/about.txt"])
           (snd (ChainlitApp.run_ingest_async one_file empty_table))).
  vm_compute. reflexivity.
Defined.

(** Two documents of white space only. *)
Lemma blank_documents_give_no_chunks_witness :
  exists w',
    _chunk [mkDocument "   " ∅; mkDocument EmptyString ∅] empty_table = (Returned [], w').
Proof.
  apply (ChunkContent.blank_documents_give_no_chunks
           [mkDocument "   " ∅; mkDocument EmptyString ∅] empty_table).
  repeat constructor.
Defined.

(** One short document, with white space around its text. *)
Definition short_note : Document :=
  mkDocument "  CivicLens explains executive orders.  " (<["source" := "data/about.txt"]> ∅).

Lemma short_documents_stay_whole_witness :
  exists w',
    _chunk [short_note] empty_table
    = (Returned (flat_map ChunkContent.whole_document [short_note]), w').
Proof.
  apply (ChunkContent.short_documents_stay_whole [short_note] empty_table).
  constructor; [vm_compute; lia | constructor].
Defined.

Example short_note_chunk :
  flat_map ChunkContent.whole_document [short_note]
  = [mkDocument "CivicLens explains executive orders." (<["source" := "data/about.txt"]> ∅)].
Proof. vm_compute. reflexivity. Qed.

(** A run with a table that cannot be reached. *)
Definition answers (texts : list string) : result (list (list Q)) :=
  Returned (map (fun _ => [1%Q; 0%Q]) texts).

Lemma ingest_raises_only_for_store_or_embedding_witness :
  ((Raised "connection refused" : result unit) = Raised "connection refused"
   \/ exists chunks,
        split_documents CHUNK_SIZE CHUNK_OVERLAP
          (Loading.docs (_load_docs (fun _ => false) (fun _ _ => Returned []) []))
        = Returned chunks
        /\ answers (map page_content chunks) = Raised "connection refused")
  /\ Ingest.store (mkWorld (Ingest.store empty_table) ["INGEST: chunking 0 documents"])
     = Ingest.store empty_table.
Proof.
  apply (IngestMore.ingest_raises_only_for_store_or_embedding
           [] (fun _ => false) (fun _ _ => Returned []) (Raised "connection refused")
           answers empty_table
           (mkWorld (Ingest.store empty_table) ["INGEST: chunking 0 documents"])
           "connection refused").
  vm_compute. reflexivity.
Defined.

(** A run over one file that cannot be read and one that can. *)
Definition one_readable (L : loader) (path : string) : result (list Document) :=
  if String.eqb path "data/about.txt"
  then Returned [mkDocument "CivicLens explains executive orders."
                            (<["source" := path]> ∅)]
  else Raised "cannot read".

Lemma ingest_returns_when_store_and_embedding_answer_witness :
  exists stats w' added,
    Ingest.run_ingest_async ["data/broken.pdf"; "data/about.txt"] (fun _ => false)
      one_readable (Returned tt) answers empty_table
    = (Returned stats, w')
    /\ is_Some (indexes (Ingest.store w') !! INDEX_NAME)
    /\ (forall n, n <> INDEX_NAME ->
                  indexes (Ingest.store w') !! n = indexes (Ingest.store empty_table) !! n)
    /\ entries (Ingest.store w') = entries (Ingest.store empty_table) ++ added
    /\ (length added <= Ingest.chunks stats)%nat
    /\ Forall (fun row => (String.length (page_content (fst row)) <= 500)%nat) added.
Proof.
  apply (IngestMore.ingest_returns_when_store_and_embedding_answer
           ["data/broken.pdf"; "data/about.txt"] (fun _ => false) one_readable
           (Returned tt) answers empty_table).
  - reflexivity.
  - intros texts. eexists. reflexivity.
Defined.

(** The run over the broken and the readable file, and the table after
    it. *)
Definition two_files_run : result Ingest.stats * World :=
  Ingest.run_ingest_async ["data/broken.pdf"; "data/about.txt"] (fun _ => false)
    one_readable (Returned tt) answers empty_table.

Lemma rows_come_from_the_loaded_files_witness :
  exists added,
    entries (Ingest.store (snd two_files_run))
    = entries (Ingest.store empty_table) ++ added
    /\ forall row, row ∈ added ->
         exists path ds d,
           path ∈ ["data/broken.pdf"; "data/about.txt"]
           /\ LoadingFacts.loads (fun _ => false) one_readable path = Some ds
           /\ d ∈ ds
           /\ metadata (fst row) = metadata d
           /\ ChunkContent.substring_of (page_content (fst row)) (page_content d).
Proof.
  apply (IngestMore.rows_come_from_the_loaded_files
           ["data/broken.pdf"; "data/about.txt"] (fun _ => false) one_readable
           (Returned tt) answers empty_table (snd two_files_run)
           (mkStats 1 1 ["data/about.txt"])).
  vm_compute. reflexivity.
Defined.

Lemma second_run_stores_every_chunk_again_witness :
  exists chunks vectors w2,
    split_documents CHUNK_SIZE CHUNK_OVERLAP
      (Loading.docs (_load_docs (fun _ => false) one_readable
                                ["data/broken.pdf"; "data/about.txt"]))
    = Returned chunks
    /\ answers (map page_content chunks) = Returned vectors
    /\ Ingest.chunks (mkStats 1 1 ["data/about.txt"]) = length chunks
    /\ entries (Ingest.store (snd two_files_run))
       = entries (Ingest.store empty_table) ++ zip chunks vectors
    /\ Ingest.run_ingest_async ["data/broken.pdf"; "data/about.txt"] (fun _ => false)
         one_readable (Returned tt) answers (snd two_files_run)
       = (Returned (mkStats 1 1 ["data/about.txt"]), w2)
    /\ entries (Ingest.store w2)
       = (entries (Ingest.store empty_table) ++ zip chunks vectors)
         ++ zip chunks vectors
    /\ indexes (Ingest.store w2) = indexes (Ingest.store (snd two_files_run))
    /\ builds (Ingest.store w2) = builds (Ingest.store (snd two_files_run))
    /\ (length vectors = length chunks ->
        map fst (entries (Ingest.store (snd two_files_run)))
        = map fst (entries (Ingest.store empty_table)) ++ chunks
        /\ map fst (entries (Ingest.store w2))
           = (map fst (entries (Ingest.store empty_table)) ++ chunks) ++ chunks).
Proof.
  apply (IngestMore.second_run_stores_every_chunk_again
           ["data/broken.pdf"; "data/about.txt"] (fun _ => false) one_readable
           (Returned tt) answers empty_table (snd two_files_run)
           (mkStats 1 1 ["data/about.txt"])).
  vm_compute. reflexivity.
Defined.

(** After two runs the table holds the one chunk twice, under one
    index. *)
Example two_runs_two_rows :
  let after := snd (Ingest.run_ingest_async ["data/broken.pdf"; "data/about.txt"]
                      (fun _ => false) one_readable (Returned tt) answers
                      (snd two_files_run)) in
  length (entries (Ingest.store after)) = 2%nat
  /\ length (builds (Ingest.store after)) = 1%nat.
Proof. vm_compute. split; reflexivity. Qed.

(** A question rewritten once, over the library. *)
Definition one_rewrite (question : string) : result (list string) :=
  Returned ["Which sections does the order have?"].

Lemma question_itself_is_searched_witness :
  (exists found,
     library_search "What does the order say?" = Returned found
     /\ forall d, d ∈ found -> d ∈ library)
  /\ (forall d, d ∈ library ->
        exists query found, library_search query = Returned found /\ d ∈ found)
  /\ ((Returned tt : result unit) = Returned tt -> NoDup library).
Proof.
  apply (RagMore.question_itself_is_searched (Returned tt) library_search (Returned tt)
           one_rewrite (Returned tt) unavailable None fresh
           (mkState None [] ["✓ Multi-query retriever enabled"])
           (multi_query_retriever one_rewrite library_search)
           "What does the order say?" library).
  - reflexivity.
  - reflexivity.
  - vm_compute. reflexivity.
Defined.

Lemma answer_raises_on_mixed_sources_witness :
  (exists e,
     answer_with_docs_async (Returned tt) mixed_search no_rewrites sample_rewrites
       None (Returned tt) unavailable None (constant_chat "One section.")
       "What does the order say?" fresh
     = (Raised e,
        mkState None [(model_name None, prompt "What does the order say?" mixed)]
                (stdout warned)))
  <-> (exists d1 d2,
         d1 ∈ mixed /\ d2 ∈ mixed /\ source d1 = None /\ is_Some (source d2)).
Proof.
  apply (RagMore.answer_raises_on_mixed_sources (Returned tt) mixed_search no_rewrites
           sample_rewrites (Returned tt) unavailable None (constant_chat "One section.")
           None "What does the order say?" fresh warned
           (mkState None [(model_name None, prompt "What does the order say?" mixed)]
                    (stdout warned))
           mixed_search
           (mkResult "What does the order say?" mixed "One section.")).
  - reflexivity.
  - vm_compute. reflexivity.
Defined.

(** The sources of the mixed context cannot be sorted, and the answer of
    the model is lost. *)
Example mixed_answer_raises :
  exists e,
    fst (answer_with_docs_async (Returned tt) mixed_search no_rewrites sample_rewrites
           None (Returned tt) unavailable None (constant_chat "One section.")
           "What does the order say?" fresh)
    = Raised e
    /\ (e = "'<' not supported between instances of 'str' and 'NoneType'"
        \/ e = "'<' not supported between instances of 'NoneType' and 'str'").
Proof. eexists. split; [vm_compute; reflexivity | auto]. Qed.

(** The renderings of the runtime, for clock readings two seconds
    apart. *)
Definition two_seconds (finished started : Q) : string := "2.0".

Definition no_repr (_ : value) : string := EmptyString.

Lemma first_job_done_reachable : reachable silent first_job_done.
Proof.
  exists empty_table, [Command "/ingest"; JobBegins 10; JobEnds one_file 12].
  vm_compute. reflexivity.
Qed.


(** After a job that was cancelled during its run, [/status] still says
    that ingestion is running, and the branch that waited for the task
    sends no report. *)
Example status_after_cancellation :
  _ingest_task first_job_cancelled = Some Cancelled
  /\ status_reply two_seconds no_repr (_ingest_last first_job_cancelled)
     = Returned STATUS_RUNNING
  /\ ingest_wait no_repr Cancelled (_ingest_last first_job_cancelled)
     = Some (Raised EmptyString).
Proof. repeat split; vm_compute; reflexivity. Qed.

Lemma ingest_report_tells_the_outcome_witness :
  (Done = Done
   /\ ((exists stats,
          _ingest_last first_job_done !! "stats" = Some (VStats stats)
          /\ status first_job_done = Some (VStr "succeeded")
          /\ ingest_wait no_repr Done (_ingest_last first_job_done)
             = Some (Returned (ReplyFacts.completed_text stats)))
       \/ (exists e,
             _ingest_last first_job_done !! "error" = Some (VStr e)
             /\ status first_job_done = Some (VStr "failed")
             /\ ingest_wait no_repr Done (_ingest_last first_job_done)
                = Some (Returned (INGESTION_FAILED ++ e)%string))))
  \/ (Done = Cancelled
      /\ exists e,
           ingest_wait no_repr Done (_ingest_last first_job_done) = Some (Raised e)).
Proof.
  apply (ReplyFacts.ingest_report_tells_the_outcome no_repr silent first_job_done Done).
  - exists empty_table, [Command "/ingest"; JobBegins 10; JobEnds one_file 12].
    vm_compute. reflexivity.
  - vm_compute. reflexivity.
  - reflexivity.
Defined.

(** The report of the first job names its file. *)
Example first_job_report :
  ingest_report no_repr (_ingest_last first_job_done)
  = (INGESTION_COMPLETED ++ "1" ++ newline ++ "- Chunks: 1" ++ TOP_FILES
     ++ "- `about.txt`")%string.
Proof. vm_compute. reflexivity. Qed.


Lemma succeeded_means_indexed_witness :
  is_Some (indexes (Ingest.store (world first_job_done)) !! INDEX_NAME).
Proof.
  apply (JobTableFacts.succeeded_means_indexed silent first_job_done).
  - exists empty_table, [Command "/ingest"; JobBegins 10; JobEnds one_file 12].
    vm_compute. reflexivity.
  - vm_compute. reflexivity.
Defined.

Lemma model_is_shown_every_context_document_witness :
  (model_name None, prompt "What does the order say?" library) ∈ model_calls fresh
  \/ exists user,
       (model_name None, prompt "What does the order say?" library)
       = (model_name None, [("system", SYSTEM_PROMPT); ("user", user)])
       /\ (exists a b, user = (a ++ "What does the order say?" ++ b)%string)
       /\ forall d, d ∈ library ->
                    exists a b, user = (a ++ page_content d ++ b)%string.
Proof.
  apply (RagMore.model_is_shown_every_context_document None
           (constant_chat "Two sections.") "What does the order say?" library fresh
           (model_name None, prompt "What does the order say?" library)).
  rewrite doc_chain_generate. apply list_elem_of_here.
Defined.

(** The first job from its command to a [/status] after its run. *)
Definition first_job_events : list event :=
  [Command "/ingest"; JobBegins 10; JobEnds one_file 12; Command "/status"].

Definition first_job_asked : Globals :=
  default (initial empty_table) (run silent first_job_events (initial empty_table)).

Lemma recorded_statistics_count_a_run_witness :
  exists before env now after g1 chunks,
    first_job_events = before ++ JobEnds env now :: after
    /\ run silent before (initial empty_table) = Some g1
    /\ fst (run_ingest_async env (world g1)) = Returned (mkStats 1 1 ["data/about.txt"])
    /\ Forall JobTableFacts.quiet after
    /\ Ingest.documents (mkStats 1 1 ["data/about.txt"])
       = length (Loading.docs (loaded_by env))
    /\ Ingest.files (mkStats 1 1 ["data/about.txt"])
       = Loading.file_paths (loaded_by env)
    /\ TextSplitter.split_documents CHUNK_SIZE CHUNK_OVERLAP
         (Loading.docs (loaded_by env)) = Returned chunks
    /\ Ingest.chunks (mkStats 1 1 ["data/about.txt"]) = length chunks.
Proof.
  apply (JobTableFacts.recorded_statistics_count_a_run silent empty_table
           first_job_events first_job_asked (mkStats 1 1 ["data/about.txt"])).
  - vm_compute. reflexivity.
  - vm_compute. reflexivity.
Defined.

(** A CSV file of three rows: a PDF whose download fails, a row without
    URL, and a page that is no PDF. *)
Definition order_url : string :=
  "https://www.federalregister.gov/documents/2025-01234.PDF".

Definition page_url : string := "https://www.federalregister.gov/view?id=7".

Definition sample_urlparse (url : string) : result string :=
  if String.eqb url order_url then Returned "/documents/2025-01234.PDF"
  else if String.eqb url page_url then Returned "/view"
  else Raised "Invalid IPv6 URL".

Definition first_fails (index : nat) (_ _ : string) : result unit :=
  if (index =? 1)%nat then Raised "HTTP 404" else Returned tt.

Definition sample_rows : list (option string) := [Some order_url; None; Some page_url].

Definition sample_log : Download.log :=
  Download.rows_from sample_urlparse first_fails 1 sample_rows (Download.mkLog [] []).

Example sample_log_lines :
  sample_log
  = Download.mkLog
      [(order_url, "data/2025-01234.PDF"); (page_url, "data/document_3.pdf")]
      ["[DOWNLOADING] https://www.federalregister.gov/documents/2025-01234.PDF";
       "[ERROR] Row 1: HTTP 404";
       "[SKIP] Row 2: Empty URL";
       "[DOWNLOADING] https://www.federalregister.gov/view?id=7";
       "[SAVED] data/document_3.pdf"].
Proof. vm_compute. reflexivity. Qed.

(** The reader raises after the three rows: [main] raises then, with the
    three rows gone through. *)
Example main_reader_raises :
  Download.main sample_urlparse first_fails (Returned (Some ["title"; "pdf_url"]))
    sample_rows (Raised "line contains NUL")
  = (Raised "line contains NUL", sample_log).
Proof. vm_compute. reflexivity. Qed.

Lemma downloads_are_saved_in_the_data_directory_witness :
  DownloadFacts.pdf_in_data "data/document_3.pdf".
Proof.
  apply (DownloadFacts.downloads_are_saved_in_the_data_directory
           sample_urlparse first_fails (Returned (Some ["title"; "pdf_url"]))
           sample_rows (Raised "line contains NUL") (Raised "line contains NUL")
           sample_log) with (url := page_url).
  - vm_compute. reflexivity.
  - vm_compute. apply list_elem_of_further, list_elem_of_here.
Defined.

Lemma saved_downloads_are_loaded_as_pdf_witness :
  "data/2025-01234.PDF"
  ∈ file_paths (_load_docs (fun _ => false) (fun _ _ => Returned [])
                           ["data/notes.txt"; "data/2025-01234.PDF"]).
Proof.
  apply (DownloadFacts.saved_downloads_are_loaded_as_pdf
           sample_urlparse (fun _ => false) (fun _ _ => Returned [])
           ["data/notes.txt"; "data/2025-01234.PDF"] order_url 1
           "data/2025-01234.PDF" []).
  - vm_compute. reflexivity.
  - apply list_elem_of_further, list_elem_of_here.
  - reflexivity.
  - vm_compute. reflexivity.
  - reflexivity.
Defined.

End MoreScenarios.
